(** * Sudoku engine: board, backtracking solver and puzzle generator

    A shallow embedding of [src/board.py], [src/solver.py] and
    [src/generator.py].  Cell values are Python integers ([Z]); row and
    column indices are natural numbers.  A board object is a record of two
    lists of lists, exactly as [Board.__init__] builds it.  Methods that
    mutate the board take the board and return the updated board
    (explicit state passing); the recursive searches carry a fuel argument
    that bounds the recursion depth. *)

From stdpp Require Import base option list strings gmap.
From Stdlib Require Import ZArith Lia.

(** ** Board ([src/board.py]) *)

Module Board.

Definition SIZE : nat := 9.
Definition BOX_SIZE : nat := 3.

(** [range(a, b)] for naturals. *)
Definition range (a b : nat) : list nat := seq a (b - a).

Record t := mk { grid : list (list Z); given : list (list bool) }.

(** [Board()] *)
Definition new : t :=
  mk (replicate SIZE (replicate SIZE 0%Z))
     (replicate SIZE (replicate SIZE false)).

(** A board has the shape [Board()] gives it: nine rows of nine cells in
    both arrays.  On such a board no index in [0..8] is out of range; the
    accessors below return a default where Python would raise IndexError,
    which never happens on a well-formed board. *)
Definition wf (b : t) : Prop :=
  length (grid b) = SIZE ∧ Forall (λ row, length row = SIZE) (grid b) ∧
  length (given b) = SIZE ∧ Forall (λ row, length row = SIZE) (given b).

(** [self.grid[row][col]] *)
Definition peek (b : t) (row col : nat) : Z :=
  match grid b !! row with
  | Some cells => match cells !! col with Some v => v | None => 0%Z end
  | None => 0%Z
  end.

(** [self.grid[row][col] = value] *)
Definition poke (b : t) (row col : nat) (value : Z) : t :=
  match grid b !! row with
  | Some cells => mk (<[row := <[col := value]> cells]> (grid b)) (given b)
  | None => b
  end.

Definition get (b : t) (row col : nat) : Z := peek b row col.

Definition is_given (b : t) (row col : nat) : bool :=
  match given b !! row with
  | Some flags => match flags !! col with Some f => f | None => false end
  | None => false
  end.

(** [set] returns the success flag and the board after the call. *)
Definition set (b : t) (row col : nat) (value : Z) : bool * t :=
  if is_given b row col then (false, b)
  else (true, poke b row col value).

Definition mark_given (b : t) (row col : nat) : t :=
  match given b !! row with
  | Some flags => mk (grid b) (<[row := <[col := true]> flags]> (given b))
  | None => b
  end.

Definition cell_eqb (p q : nat * nat) : bool :=
  (p.1 =? q.1) && (p.2 =? q.2).

(** The three loops of [is_valid_move]; each returns False at the first
    clash, which is what [forallb] does. *)
Definition is_valid_move (b : t) (row col : nat) (num : Z) : bool :=
  forallb (λ c, negb (negb (c =? col) && (peek b row c =? num)%Z))
          (range 0 SIZE)
  && forallb (λ r, negb (negb (r =? row) && (peek b r col =? num)%Z))
             (range 0 SIZE)
  && (let box_row := (row / BOX_SIZE) * BOX_SIZE in
      let box_col := (col / BOX_SIZE) * BOX_SIZE in
      forallb (λ r,
        forallb (λ c,
          negb (negb (cell_eqb (r, c) (row, col)) && (peek b r c =? num)%Z))
          (range box_col (box_col + BOX_SIZE)))
        (range box_row (box_row + BOX_SIZE))).

(** [get_conflicts], as the list of clashing cells in the order the three
    loops add them. *)
Definition get_conflicts (b : t) (row col : nat) : list (nat * nat) :=
  let num := peek b row col in
  if (num =? 0)%Z then []
  else
    omap (λ c, if negb (c =? col) && (peek b row c =? num)%Z
               then Some (row, c) else None) (range 0 SIZE)
    ++ omap (λ r, if negb (r =? row) && (peek b r col =? num)%Z
                  then Some (r, col) else None) (range 0 SIZE)
    ++ (let box_row := (row / BOX_SIZE) * BOX_SIZE in
        let box_col := (col / BOX_SIZE) * BOX_SIZE in
        mjoin ((λ r,
          omap (λ c, if negb (cell_eqb (r, c) (row, col))
                        && (peek b r c =? num)%Z
                     then Some (r, c) else None)
               (range box_col (box_col + BOX_SIZE)))
          <$> range box_row (box_row + BOX_SIZE))).

(** All positions in row-major order:
    [[(r, c) for r in range(SIZE) for c in range(SIZE)]]. *)
Definition positions : list (nat * nat) :=
  mjoin ((λ r, (λ c, (r, c)) <$> range 0 SIZE) <$> range 0 SIZE).

Definition is_complete (b : t) : bool :=
  forallb (λ '(row, col),
    negb (peek b row col =? 0)%Z
    && is_valid_move b row col (peek b row col)) positions.

Definition is_filled (b : t) : bool :=
  forallb (λ '(row, col), negb (peek b row col =? 0)%Z) positions.

(** [copy.deepcopy] of both arrays: the copy is an equal value that shares
    nothing with the original. *)
Definition copy (b : t) : t := mk (grid b) (given b).

Definition clear (b : t) : t := new.

(** The serialized record: a dict that may or may not have each of the two
    keys, holding arrays of any shape and any integers. *)
Record record := mk_record {
  rec_grid : option (list (list Z));
  rec_given : option (list (list bool))
}.

Inductive error := KeyError (key : string).

Definition to_dict (b : t) : record :=
  mk_record (Some (grid b)) (Some (given b)).

(** [from_dict]: [data['grid']] and [data['given']] are stored as they
    are; a missing key raises KeyError. *)
Definition from_dict (data : record) : error + t :=
  match rec_grid data with
  | None => inl (KeyError "grid")
  | Some g =>
      match rec_given data with
      | None => inl (KeyError "given")
      | Some gv => inr (mk g gv)
      end
  end.

(** Every cell value is in the domain 0..9. *)
Definition in_domain (b : t) : Prop :=
  Forall (Forall (λ v, (0 ≤ v ≤ 9)%Z)) (grid b).

End Board.

(** ** The random source (Python's [random] module)

    The generator's random choices come from an explicit source: a state
    of type [R] that every call reads and advances.  The laws say what
    [random.shuffle] and [random.randint] guarantee: a shuffle is a
    permutation of its argument, and [randint(a, b)] lies in [a..b]. *)

Class Random (R : Type) := {
  shuffle : ∀ {A : Type}, list A → R → list A * R;
  randint : Z → Z → R → Z * R
}.

Class RandomLaws (R : Type) `{Random R} : Prop := {
  shuffle_perm : ∀ (A : Type) (l : list A) (s : R), (shuffle l s).1 ≡ₚ l;
  randint_range : ∀ (a b : Z) (s : R),
    (a ≤ b)%Z → (a ≤ (randint a b s).1 ≤ b)%Z
}.

(** ** Solver ([src/solver.py]) *)

Module Solver.

Import Board.

(** [_find_empty_cell]: the first zero cell in row-major order. *)
Definition _find_empty_cell (b : Board.t) : option (nat * nat) :=
  List.find (λ '(row, col), (peek b row col =? 0)%Z) positions.

(** [list(range(1, 10))] *)
Definition numbers : list Z := [1; 2; 3; 4; 5; 6; 7; 8; 9]%Z.

(** The [for num in numbers] loop of [solve], over the recursive call
    [rec]: the first candidate whose recursive call succeeds ends the
    loop; after a failed one the cell is reset to 0. *)
Fixpoint try_each (rec : Board.t → option (bool * Board.t))
    (row col : nat) (nums : list Z) (b : Board.t) : option (bool * Board.t) :=
  match nums with
  | [] => Some (false, b)
  | num :: rest =>
      if is_valid_move b row col num then
        match rec (poke b row col num) with
        | None => None
        | Some (true, b') => Some (true, b')
        | Some (false, b') => try_each rec row col rest (poke b' row col 0%Z)
        end
      else try_each rec row col rest b
  end.

(** [solve]: returns the flag and the board as the call leaves it;
    [None] means the fuel ran out. *)
Fixpoint solve_rec (fuel : nat) (b : Board.t) : option (bool * Board.t) :=
  match fuel with
  | O => None
  | S fuel' =>
      match _find_empty_cell b with
      | None => Some (true, b)
      | Some (row, col) => try_each (solve_rec fuel') row col numbers b
      end
  end.

(** The recursion is at most one level per empty cell, plus the last call
    on the full board. *)
Definition FUEL : nat := S (SIZE * SIZE).

Definition solve (b : Board.t) : option (bool * Board.t) := solve_rec FUEL b.

(** The [for num in range(1, 10)] loop of [backtrack]: every valid
    candidate is placed, searched and reset; the loop never stops early. *)
Fixpoint count_each (rec : Board.t → Z → option (Board.t * Z))
    (row col : nat) (nums : list Z) (b : Board.t) (count : Z)
  : option (Board.t * Z) :=
  match nums with
  | [] => Some (b, count)
  | num :: rest =>
      if is_valid_move b row col num then
        match rec (poke b row col num) count with
        | None => None
        | Some (b', count') =>
            count_each rec row col rest (poke b' row col 0%Z) count'
        end
      else count_each rec row col rest b count
  end.

(** [backtrack] of [count_solutions], threading the board and the counter
    [count[0]]. *)
Fixpoint backtrack (fuel : nat) (limit : Z) (b : Board.t) (count : Z)
  : option (Board.t * Z) :=
  match fuel with
  | O => None
  | S fuel' =>
      if (limit <=? count)%Z then Some (b, count)
      else
        match _find_empty_cell b with
        | None => Some (b, (count + 1)%Z)
        | Some (row, col) =>
            count_each (backtrack fuel' limit) row col numbers b count
        end
  end.

(** Returns the count and the board as the call leaves it. *)
Definition count_solutions (b : Board.t) (limit : Z) : option (Z * Board.t) :=
  match backtrack FUEL limit b 0%Z with
  | Some (b', count) => Some (count, b')
  | None => None
  end.

Section Randomized.
Context {R : Type} `{Random R}.

(** The candidate loop of [solve_with_randomness]; the random source is
    threaded through the recursive calls. *)
Fixpoint try_each_random (rec : Board.t → R → option (bool * Board.t * R))
    (row col : nat) (nums : list Z) (b : Board.t) (s : R)
  : option (bool * Board.t * R) :=
  match nums with
  | [] => Some (false, b, s)
  | num :: rest =>
      if is_valid_move b row col num then
        match rec (poke b row col num) s with
        | None => None
        | Some (true, b', s') => Some (true, b', s')
        | Some (false, b', s') =>
            try_each_random rec row col rest (poke b' row col 0%Z) s'
        end
      else try_each_random rec row col rest b s
  end.

(** [solve_with_randomness]: as [solve], with the candidates shuffled at
    every call. *)
Fixpoint solve_with_randomness_rec (fuel : nat) (b : Board.t) (s : R)
  : option (bool * Board.t * R) :=
  match fuel with
  | O => None
  | S fuel' =>
      match _find_empty_cell b with
      | None => Some (true, b, s)
      | Some (row, col) =>
          let '(nums, s) := shuffle numbers s in
          try_each_random (solve_with_randomness_rec fuel') row col nums b s
      end
  end.

Definition solve_with_randomness (b : Board.t) (s : R)
  : option (bool * Board.t * R) :=
  solve_with_randomness_rec FUEL b s.

End Randomized.

(** [get_solution]: a solved copy, or nothing. *)
Definition get_solution (b : Board.t) : option (option Board.t) :=
  match solve (copy b) with
  | Some (true, solution) => Some (Some solution)
  | Some (false, _) => Some None
  | None => None
  end.

End Solver.

(** ** Objects and references

    [Solver.count_solutions] and [Solver.get_hint] receive a reference to
    the caller's board.  The store below holds the board objects; a
    reference is an index into it, and [Board.copy] allocates a new
    object. *)

Module Store.

Abbreviation ref := nat.
Abbreviation heap := (list Board.t).

(** [board.copy()] *)
Definition copy (l : ref) (h : heap) : option (ref * heap) :=
  match h !! l with
  | Some b => Some (length h, h ++ [Board.copy b])
  | None => None
  end.

(** Run a method that mutates the board behind reference [l]. *)
Definition call {A} (f : Board.t → option (A * Board.t)) (l : ref) (h : heap)
  : option (A * heap) :=
  match h !! l with
  | Some b =>
      match f b with
      | Some (a, b') => Some (a, <[l := b']> h)
      | None => None
      end
  | None => None
  end.

Definition solve (l : ref) (h : heap) : option (bool * heap) :=
  call Solver.solve l h.

Definition count_solutions (l : ref) (limit : Z) (h : heap)
  : option (Z * heap) :=
  call (λ b, Solver.count_solutions b limit) l h.

(** [get_hint]: solve a copy and report the first cell that is empty in
    the caller's board and filled in the solved copy. *)
Definition get_hint (l : ref) (h : heap)
  : option (option (nat * nat * Z) * heap) :=
  match copy l h with
  | None => None
  | Some (temp, h1) =>
      match solve temp h1 with
      | None => None
      | Some (solved, h2) =>
          match h2 !! l, h2 !! temp with
          | Some board, Some temp_board =>
              let hint :=
                if solved then
                  match List.find (λ '(row, col),
                          (Board.peek board row col =? 0)%Z
                          && negb (Board.peek temp_board row col =? 0)%Z)
                        Board.positions with
                  | Some (row, col) =>
                      Some (row, col, Board.peek temp_board row col)
                  | None => None
                  end
                else None in
              Some (hint, h2)
          | _, _ => None
          end
      end
  end.

End Store.
(** ** Generator ([src/generator.py]) *)

Module Difficulty.

Definition EASY : string := "easy".
Definition MEDIUM : string := "medium".
Definition HARD : string := "hard".
Definition EXPERT : string := "expert".

(** Number of cells to remove for each difficulty. *)
Definition REMOVE_COUNT : gmap string (Z * Z) :=
  <[EASY := (40, 45)%Z]> (<[MEDIUM := (46, 49)%Z]>
    (<[HARD := (50, 53)%Z]> (<[EXPERT := (54, 58)%Z]> ∅))).

(** [REMOVE_COUNT.get(difficulty, REMOVE_COUNT[EASY])] *)
Definition remove_count (difficulty : string) : Z * Z :=
  default (40, 45)%Z (REMOVE_COUNT !! difficulty).

End Difficulty.

Module Generator.

Import Board.

(** The calls a generator function makes to the Solver.  Every function
    below returns, next to its result, the list of these calls in the
    order they are made; the list records the control flow and has no
    influence on the result. *)
Inductive call := call_solve_with_randomness | call_count_solutions | call_solve.

(** The loops of [_fill_box]: the nine cells of the box at [(row, col)]
    receive [numbers[0..8]] in row-major order. *)
Definition place_numbers (numbers : list Z) (b : Board.t) (row col : nat)
  : Board.t :=
  let cells :=
    mjoin ((λ r, (λ c, (r, c)) <$> range col (col + BOX_SIZE))
             <$> range row (row + BOX_SIZE)) in
  foldl (λ b '(idx, (r, c)), poke b r c (default 0%Z (numbers !! idx)))
        b (imap (λ idx rc, (idx, rc)) cells).

(** The [while] loop of [_remove_cells].  [stack] holds the shuffled
    positions with the last one first, so that [positions.pop()] takes
    its head. *)
Fixpoint remove_loop (stack : list (nat * nat)) (count max_attempts : Z)
    (removed attempts : Z) (b : Board.t) : option (Board.t * list call) :=
  if (removed <? count)%Z && (attempts <? max_attempts)%Z then
    match stack with
    | [] => Some (b, [])
    | (row, col) :: stack' =>
        let attempts := (attempts + 1)%Z in
        let backup := peek b row col in
        let b := poke b row col 0%Z in
        let board_copy := Board.copy b in
        match Solver.count_solutions board_copy 2 with
        | None => None
        | Some (solution_count, _) =>
            match
              (if (solution_count =? 1)%Z then
                 remove_loop stack' count max_attempts (removed + 1)%Z
                             attempts b
               else
                 remove_loop stack' count max_attempts removed attempts
                             (poke b row col backup))
            with
            | Some (b', log) => Some (b', call_count_solutions :: log)
            | None => None
            end
        end
    end
  else Some (b, []).

(** Mark all non-zero cells as given. *)
Definition mark_nonzero_given (b : Board.t) : Board.t :=
  foldl (λ b '(row, col),
           if negb (peek b row col =? 0)%Z then mark_given b row col else b)
        b Board.positions.

Section Generate.
Context {R : Type} `{Random R}.

(** [_fill_box]: shuffle the numbers 1..9, then place them. *)
Definition _fill_box (b : Board.t) (row col : nat) (s : R) : Board.t * R :=
  let '(numbers, s) := shuffle Solver.numbers s in
  (place_numbers numbers b row col, s).

Definition _fill_diagonal_boxes (b : Board.t) (s : R) : Board.t * R :=
  foldl (λ '(b, s) box, let start := box * BOX_SIZE in _fill_box b start start s)
        (b, s) (range 0 3).

(** [_generate_complete_board]: the flag [solve_with_randomness] returns
    is dropped, as in the source. *)
Definition _generate_complete_board (s : R)
  : option (Board.t * R * list call) :=
  let '(b, s) := _fill_diagonal_boxes Board.new s in
  match Solver.solve_with_randomness b s with
  | Some (_, b', s') => Some (b', s', [call_solve_with_randomness])
  | None => None
  end.

Definition _remove_cells (b : Board.t) (count : Z) (s : R)
  : option (Board.t * R * list call) :=
  let '(positions, s) := shuffle Board.positions s in
  match remove_loop (reverse positions) count (count * 3)%Z 0%Z 0%Z b with
  | Some (b', log) => Some (b', s, log)
  | None => None
  end.

Definition generate (difficulty : string) (s : R)
  : option (Board.t * R * list call) :=
  match _generate_complete_board s with
  | None => None
  | Some (board, s, log1) =>
      let '(min_remove, max_remove) := Difficulty.remove_count difficulty in
      let '(num_to_remove, s) := randint min_remove max_remove s in
      match _remove_cells board num_to_remove s with
      | None => None
      | Some (board, s, log2) =>
          Some (mark_nonzero_given board, s, log1 ++ log2)
      end
  end.

(** [generate_simple]: [positions[i]] for [i] in [range(num_to_remove)]
    are zeroed; nothing is called after the removal but the marking of
    the given cells. *)
Definition generate_simple (difficulty : string) (s : R)
  : option (Board.t * R * list call) :=
  match _generate_complete_board s with
  | None => None
  | Some (board, s, log1) =>
      let '(min_remove, max_remove) := Difficulty.remove_count difficulty in
      let '(num_to_remove, s) := randint min_remove max_remove s in
      let '(positions, s) := shuffle Board.positions s in
      let board :=
        foldl (λ b '(row, col), poke b row col 0%Z) board
              (take (Z.to_nat num_to_remove) positions) in
      Some (mark_nonzero_given board, s, log1)
  end.

End Generate.

End Generator.

(** ** A scripted random source

    A source that replays a script: each shuffle takes the next index
    permutation of the script and applies it when it is a permutation of
    the argument's indices (and leaves the list as it is otherwise); each
    [randint] takes the next integer when it is in range (and the lower
    bound otherwise). *)

Module Script.

Record t := mk { perms : list (list nat); ints : list Z }.

Definition is_index_perm (p : list nat) (n : nat) : bool :=
  bool_decide (p ≡ₚ seq 0 n).

Definition apply_perm {A} (p : list nat) (l : list A) : list A :=
  omap (λ i, l !! i) p.

Definition script_shuffle {A} (l : list A) (s : t) : list A * t :=
  match perms s with
  | [] => (l, s)
  | p :: ps =>
      (if is_index_perm p (length l) then apply_perm p l else l,
       mk ps (ints s))
  end.

Definition script_randint (a b : Z) (s : t) : Z * t :=
  match ints s with
  | [] => (a, s)
  | n :: ns =>
      (if (a <=? n)%Z && (n <=? b)%Z then n else a, mk (perms s) ns)
  end.

#[global] Instance random : Random t :=
  {| shuffle := @script_shuffle; randint := script_randint |}.

End Script.

(** ** The source that never shuffles

    [shuffle] leaves the list as it is and [randint(a, b)] is [a]. *)

Module Fixed.

#[global] Instance random : Random unit :=
  {| shuffle := λ A (l : list A) s, (l, s); randint := λ a b s, (a, s) |}.

End Fixed.

(** ** Vocabulary of the statements *)

Module Spec.

Import Board.

(** The number of empty cells: it bounds the depth of the searches. *)
Definition empty_count (b : Board.t) : nat :=
  length (List.filter (λ '(row, col), (peek b row col =? 0)%Z) positions).

(** [(r, c)] is another cell of the row, the column or the box of
    [(row, col)]. *)
Definition peers (r c row col : nat) : Prop :=
  (r, c) ≠ (row, col) ∧
  (r = row ∨ c = col ∨ (r / 3 = row / 3 ∧ c / 3 = col / 3)).

(** Cell-for-cell equality of two boards. *)
Definition same_cells (b1 b2 : Board.t) : Prop :=
  ∀ r c, r < SIZE → c < SIZE → get b1 r c = get b2 r c.

Definition same_flags (b1 b2 : Board.t) : Prop :=
  ∀ r c, r < SIZE → c < SIZE → is_given b1 r c = is_given b2 r c.

(** A solution: a well-formed board whose cells all hold a number of
    1..9 that clashes with no peer. *)
Definition solution (sol : Board.t) : Prop :=
  wf sol ∧
  ∀ r c, r < SIZE → c < SIZE →
    peek sol r c ∈ Solver.numbers ∧
    is_valid_move sol r c (peek sol r c) = true.

(** [sol] keeps every filled cell of [b]. *)
Definition extends (b sol : Board.t) : Prop :=
  ∀ r c, r < SIZE → c < SIZE → peek b r c ≠ 0%Z → peek sol r c = peek b r c.

(** No filled cell clashes with a peer, and the filled cells hold
    numbers of 1..9. *)
Definition consistent (b : Board.t) : Prop :=
  ∀ r c, r < SIZE → c < SIZE → peek b r c ≠ 0%Z →
    peek b r c ∈ Solver.numbers ∧
    is_valid_move b r c (peek b r c) = true.

(** The board [b] with the flags [gv]. *)
Definition with_given (gv : list (list bool)) (b : Board.t) : Board.t :=
  mk (grid b) gv.

(** What a call of a search guarantees: it returns, the board keeps its
    shape and flags, a failed search has put every cell back, and a
    successful one has left no empty cell. *)
Definition search_post {R} (b : Board.t) (res : option (bool * Board.t * R))
  : Prop :=
  ∃ ok b' s', res = Some (ok, b', s') ∧ wf b' ∧ given b' = given b ∧
    (ok = false → b' = b) ∧
    (ok = true → Solver._find_empty_cell b' = None ∧
                 (consistent b → consistent b')).

(** The result of a randomized search without the final random state. *)
Definition forget {R} (res : option (bool * Board.t * R))
  : option (bool * Board.t) :=
  (λ x, (x.1.1, x.1.2)) <$> res.

(** The number of filled cells and the number of cells marked given. *)
Definition filled_count (b : Board.t) : nat :=
  length (List.filter (λ '(row, col), negb (peek b row col =? 0)%Z) positions).

Definition given_count (b : Board.t) : nat :=
  length (List.filter (λ '(row, col), is_given b row col) positions).

(** Some solution keeps every filled cell of [b]. *)
Definition solvable (b : Board.t) : Prop :=
  ∃ sol, solution sol ∧ extends b sol.

(** Two solutions that differ in some cell keep every filled cell of
    [b]. *)
Definition ambiguous (b : Board.t) : Prop :=
  ∃ sol1 sol2, solution sol1 ∧ solution sol2 ∧
    extends b sol1 ∧ extends b sol2 ∧ ¬ same_cells sol1 sol2.

(** [sol] is the one solution that keeps every filled cell of [b]. *)
Definition only_solution (b sol : Board.t) : Prop :=
  solution sol ∧ extends b sol ∧
  ∀ sol', solution sol' → extends b sol' → same_cells sol' sol.

(** The place of a cell in row-major order. *)
Definition cell_key (p : nat * nat) : nat := 9 * p.1 + p.2.

(** The puzzle has exactly one solution, as [count_solutions] on a copy
    with limit 2 sees it. *)
Definition unique (b : Board.t) : Prop :=
  fst <$> Solver.count_solutions (Board.copy b) 2 = Some 1%Z.

End Spec.

(** ** Boards used as examples *)

Module Examples.

Import Board.

(** [Board()] with the first row set to 1, as in
    [test_solve_unsolvable_board]. *)
Definition row_of_ones : Board.t :=
  foldl (λ b col, poke b 0 col 1%Z) Board.new (range 0 9).

(** [Board()] after [set(0, 0, 5)] and [set(0, 5, 5)], as in
    [test_get_conflicts]. *)
Definition two_fives : Board.t :=
  (set (set Board.new 0 0 5%Z).2 0 5 5%Z).2.

(** A record with both keys whose grid has one row of one cell holding
    42. *)
Definition bad_record : record :=
  mk_record (Some [[42%Z]]) (Some [[false]]).

(** The board that [solve] makes of the empty board. *)
Definition first_solution : Board.t :=
  Board.mk
    [[1; 2; 3; 4; 5; 6; 7; 8; 9]; [4; 5; 6; 7; 8; 9; 1; 2; 3];
     [7; 8; 9; 1; 2; 3; 4; 5; 6]; [2; 1; 4; 3; 6; 5; 8; 9; 7];
     [3; 6; 5; 8; 9; 7; 2; 1; 4]; [8; 9; 7; 2; 1; 4; 3; 6; 5];
     [5; 3; 1; 6; 4; 2; 9; 7; 8]; [6; 4; 2; 9; 7; 8; 5; 3; 1];
     [9; 7; 8; 5; 3; 1; 6; 4; 2]]%Z
    (given Board.new).

(** Random choices under which the removal loop of [generate] runs out
    of positions: the shuffles of [_fill_box] put 9 8 7 1 5 4 6 3 2,
    7 2 4 8 3 1 6 5 9 and 4 1 2 9 6 3 7 8 5 into the three diagonal
    boxes (given here as index permutations of 1..9), every later
    shuffle leaves its list in order, and [randint] returns its lower
    bound. *)
Definition stuck_script : Script.t :=
  Script.mk [[8; 7; 6; 0; 4; 3; 5; 2; 1]; [6; 1; 3; 7; 2; 0; 5; 4; 8];
             [3; 0; 1; 8; 5; 2; 6; 7; 4]] [].

End Examples.

From Stdlib Require Import Uint63.

(** ** Layouts of the digits

    A completion of three diagonal boxes is described box by box: every
    digit gets a row label and a column label (0..2) inside each box.
    Digits are numbered 0..8 by their place in the first box. *)

Module Layout.

(** A labeling is a list of nine labels; [lbl l d] is the label of digit
    [d], and [compose f g] is [f] after [g]. *)
Definition lbl (l : list nat) (d : nat) : nat := nth d l 0.
Definition compose (f g : list nat) : list nat := map (lbl f) g.

Definition r0 : list nat := [0; 0; 0; 1; 1; 1; 2; 2; 2].
Definition c0 : list nat := [0; 1; 2; 0; 1; 2; 0; 1; 2].
Definition cells9 : list (nat * nat) := zip r0 c0.
Definition digits : list nat := seq 0 9.

(** Row labels [u] and column labels [a] fill a box: the nine digits land
    on the nine cells. *)
Definition orth (u a : list nat) : Prop :=
  length u = 9 ∧ length a = 9 ∧ zip u a ≡ₚ cells9.

(** Three labelings of the boxes of one band (or stack) put every digit
    in three different rows (or columns). *)
Definition latin3 (x a a' : list nat) : Prop :=
  length x = 9 ∧ length a = 9 ∧ length a' = 9 ∧
  ∀ d, d < 9 →
    lbl x d ≠ lbl a d ∧ lbl x d ≠ lbl a' d ∧ lbl a d ≠ lbl a' d ∧
    lbl a d < 3 ∧ lbl a' d < 3.

(** Three boxes in a chain: the box with rows [u] gets columns [a]; the
    box with columns [v] gets rows [b]; the box in between gets [a'] and
    [b'], where [a, a'] go with [x] and [b, b'] go with [y]. *)
Definition chain (x y u v : list nat) : Prop :=
  ∃ a a' b b', latin3 x a a' ∧ latin3 y b b' ∧
    orth u a ∧ orth a' b' ∧ orth b v.

(** At least [n] pairs of a row structure of [rows] and a column
    structure of [cols] admit a chain. *)
Definition many (n : nat) (rows cols : list (list nat * list nat))
    (x y : list nat) : Prop :=
  ∃ W : list ((list nat * list nat) * (list nat * list nat)),
    NoDup W ∧ n ≤ length W ∧
    ∀ rc, rc ∈ W → rc.1 ∈ rows ∧ rc.2 ∈ cols ∧ chain x y rc.1.1 rc.2.2.

(** A labeling of the nine digits by 0..2. *)
Definition wfl (l : list nat) : Prop := length l = 9 ∧ Forall (λ v, v < 3) l.

(** *** Structures

    The two other labelings of a band (or stack) are obtained from the
    first by moving every digit up by one or by two, digit by digit:
    [ch] tells the digits that move up by two in the first of them. *)
Definition up1 (v : nat) : nat := match v with 0 => 1 | 1 => 2 | _ => 0 end.
Definition up2 (v : nat) : nat := match v with 0 => 2 | 1 => 0 | _ => 1 end.

Definition shift (x : list nat) (ch : list bool) : list nat * list nat :=
  (map (λ vc : nat * bool, if vc.2 then up2 vc.1 else up1 vc.1) (zip x ch),
   map (λ vc : nat * bool, if vc.2 then up1 vc.1 else up2 vc.1) (zip x ch)).

(** The digits that [x] labels [v]. *)
Definition places_of (v : nat) (x : list nat) : list nat :=
  map fst (List.filter (λ dv : nat * nat, dv.2 =? v) (zip digits x)).

(** One digit of each label, or all digits but one of each label. *)
Definition picks (x : list nat) : list (list bool) :=
  flat_map (λ i, flat_map (λ j, flat_map (λ l,
    let ch := map (λ d, (d =? i) || (d =? j) || (d =? l)) digits in
    [ch; map negb ch]) (places_of 2 x)) (places_of 1 x)) (places_of 0 x).

(** The structures that go with [x]. *)
Definition opts (x : list nat) : list (list nat * list nat) :=
  map (shift x) (picks x).

(** The row structures of the first band that move a whole column of the
    first box, and the column structures of the first stack that move
    the digits of a row or of a diagonal of the first box. *)
Definition consts : list (list nat) := [[0; 0; 0]; [1; 1; 1]; [2; 2; 2]].

Definition lines (x z : list nat) (fs : list (list nat))
  : list (list nat * list nat) :=
  flat_map (λ f,
    let ch := map (λ d, lbl z d =? lbl f (lbl x d)) digits in
    [shift x ch; shift x (map negb ch)]) fs.

Definition rows6 : list (list nat * list nat) := lines r0 c0 consts.

(** *** Bit sets over the pairs of digits *)

Fixpoint ints (n : nat) (i : int) : list int :=
  match n with O => [] | S n' => i :: ints n' (i + 1)%uint63 end.
Definition idxs : list int := ints 36 0%uint63.
Definition pows : list int := map (λ k, (1 << k)%uint63) idxs.

Definition mask (bs : list bool) : int :=
  fold_left (λ (acc : int) (pb : int * bool),
               if pb.2 then (acc lor pb.1)%uint63 else acc)
            (zip pows bs) 0%uint63.

(** The comparisons of the labels of the 36 pairs of digits. *)
Fixpoint pair_tests (l : list nat) : list bool :=
  match l with
  | [] => []
  | v :: l' => map (Nat.eqb v) l' ++ pair_tests l'
  end.

(** The pairs of digits with the same label. *)
Definition sig (l : list nat) : int := mask (pair_tests l).

(** No pair of digits has the same label in both labelings. *)
Definition apart (e e' : int) : bool := (e land e' =? 0)%uint63.

Definition pre (x : list nat) : list (int * int) :=
  map (λ aa : list nat * list nat, (sig aa.1, sig aa.2)) (opts x).

(** Among the structures [p], those whose first labeling fills a box
    with the labeling of signature [e]; each is given by the signature
    of its second labeling. *)
Definition sel (e : int) (p : list (int * int)) : list int :=
  map snd (List.filter (λ ee : int * int, apart e ee.1) p).

Definition meets (es ns : list int) : bool :=
  existsb (λ e, existsb (apart e) ns) es.

(** At least [n] elements of [l] pass [f]. *)
Fixpoint at_least {A} (f : A → bool) (l : list A) (n : nat) : bool :=
  match n, l with
  | O, _ => true
  | _, [] => false
  | S n', a :: l' => if f a then at_least f l' n' else at_least f l' n
  end.

(** For all [x] of [xs] and [y] of [ys], the bit sets show a chain for
    at least [n] pairs of a row structure and a column structure. *)
Definition check (n : nat) (rows cols : list (list nat * list nat))
    (xs ys : list (list nat)) : bool :=
  let pxs := map (λ x, let p := pre x in
                       map (λ s : list nat * list nat, sel (sig s.1) p) rows)
                 xs in
  let pys := map (λ y, let p := pre y in
                       map (λ t : list nat * list nat, sel (sig t.2) p) cols)
                 ys in
  forallb (λ px,
    forallb (λ py,
      at_least (λ en : list int * list int, meets en.1 en.2)
               (list_prod px py) n) pys) pxs.

(** *** The labelings to check *)

Fixpoint all_labs (n : nat) : list (list nat) :=
  match n with
  | O => [[]]
  | S n' => flat_map (λ l, [0 :: l; 1 :: l; 2 :: l]) (all_labs n')
  end.

Definition bal_list : list (list nat) :=
  List.filter (λ l, bool_decide (l ≡ₚ r0)) (all_labs 9).

(** The labels appear in the order 0, 1, 2. *)
Definition is_canonical (l : list nat) : bool :=
  match l with
  | 0 :: _ =>
      match List.find (λ v, negb (v =? 0)) l with
      | Some 1 => true
      | _ => false
      end
  | _ => false
  end.

Definition canon280 : list (list nat) := List.filter is_canonical bal_list.

(** One labeling from each class under the row and column permutations
    of the first box. *)
Definition reps17 : list (list nat) :=
  [[0; 0; 0; 1; 1; 1; 2; 2; 2];
   [0; 0; 0; 1; 1; 2; 1; 2; 2];
   [0; 0; 0; 1; 1; 2; 2; 2; 1];
   [0; 0; 1; 0; 1; 2; 1; 2; 2];
   [0; 0; 1; 0; 1; 2; 2; 1; 2];
   [0; 0; 1; 0; 1; 2; 2; 2; 1];
   [0; 0; 1; 0; 2; 1; 2; 1; 2];
   [0; 0; 1; 0; 2; 1; 2; 2; 1];
   [0; 0; 1; 0; 2; 2; 1; 1; 2];
   [0; 0; 1; 0; 2; 2; 1; 2; 1];
   [0; 0; 1; 1; 1; 2; 2; 2; 0];
   [0; 0; 1; 1; 2; 0; 2; 1; 2];
   [0; 1; 2; 0; 1; 2; 0; 1; 2];
   [0; 1; 2; 0; 1; 2; 0; 2; 1];
   [0; 1; 2; 0; 1; 2; 1; 2; 0];
   [0; 1; 2; 0; 2; 1; 1; 0; 2];
   [0; 1; 2; 1; 2; 0; 2; 0; 1]].

(** The six permutations of the labels, each with its inverse. *)
Definition perm3 : list (list nat * list nat) :=
  [([0; 1; 2], [0; 1; 2]); ([0; 2; 1], [0; 2; 1]); ([1; 0; 2], [1; 0; 2]);
   ([1; 2; 0], [2; 0; 1]); ([2; 0; 1], [1; 2; 0]); ([2; 1; 0], [2; 1; 0])].

Definition cols18 : list (list nat * list nat) :=
  lines c0 r0 (consts ++ perm3.*1).

(** A symmetry of the first box: rows permuted by [pr], columns by [pc].
    [sym_g] renumbers the digits and [sym_h] is its inverse. *)
Record sym := mk_sym {
  sym_g : list nat; sym_h : list nat; sym_pr : list nat; sym_pc : list nat
}.

Definition box_syms : list sym :=
  flat_map (λ pr, map (λ pc,
      mk_sym (map (λ p, 3 * lbl pr.1 (p / 3) + lbl pc.1 (p mod 3)) digits)
             (map (λ p, 3 * lbl pr.2 (p / 3) + lbl pc.2 (p mod 3)) digits)
             pr.1 pc.1) perm3) perm3.

(** How a symmetry moves a structure. *)
Definition move (h p : list nat) (e : list nat * list nat)
  : list nat * list nat :=
  (compose p (compose e.1 h), compose p (compose e.2 h)).

Definition closedb (h p : list nat) (l : list (list nat * list nat)) : bool :=
  forallb (λ e, bool_decide (move h p e ∈ l)) l
  && bool_decide (NoDup (map (move h p) l)).

Definition sym_ok (s : sym) : bool :=
  bool_decide (compose (sym_g s) (sym_h s) = digits)
  && bool_decide (sym_h s ≡ₚ digits)
  && bool_decide (sym_g s ≡ₚ digits)
  && bool_decide (sym_pr s ∈ perm3.*1) && bool_decide (sym_pc s ∈ perm3.*1)
  && closedb (sym_h s) (sym_pr s) rows6
  && closedb (sym_h s) (sym_pc s) cols18.

(** Every balanced labeling is brought into [reps17] by a symmetry of
    the first box and a permutation of the labels. *)
Definition covered17 (x : list nat) : bool :=
  existsb (λ s, existsb (λ p,
      bool_decide (compose p.1 (compose x (sym_g s)) ∈ reps17)) perm3)
    box_syms.

Definition covered280 (z : list nat) : bool :=
  existsb (λ p, is_canonical (compose p.1 z)) perm3.

End Layout.

(** ** From a layout to a board *)

Module Completion.

Import Board Layout.

(** The place of [v] in [n]. *)
Fixpoint index_of (v : Z) (n : list Z) : nat :=
  match n with
  | [] => 0
  | w :: n' => if (w =? v)%Z then 0 else S (index_of v n')
  end.

(** For the digits in the order of [n0]: their places in [n], and the
    row and the column of these places in a box. *)
Definition places (n0 n : list Z) : list nat := map (λ v, index_of v n) n0.
Definition rows_of (n0 n : list Z) : list nat :=
  map (λ p, p / 3) (places n0 n).
Definition cols_of (n0 n : list Z) : list nat :=
  map (λ p, p mod 3) (places n0 n).

(** The digit that row labels [u] and column labels [a] put on cell
    [(r, c)] of a box. *)
Definition digit_at (u a : list nat) (r c : nat) : nat :=
  default 0 (List.find (λ d, (lbl u d =? r) && (lbl a d =? c)) digits).

(** Nine labelings, one per box. *)
Definition table (l00 l01 l02 l10 l11 l12 l20 l21 l22 : list nat)
    (i j : nat) : list nat :=
  match i, j with
  | 0, 0 => l00 | 0, 1 => l01 | 0, _ => l02
  | 1, 0 => l10 | 1, 1 => l11 | 1, _ => l12
  | _, 0 => l20 | _, 1 => l21 | _, _ => l22
  end.

(** The rows and columns of a layout fit together: every box is filled,
    and no digit has the same row in two boxes of a band or the same
    column in two boxes of a stack. *)
Definition fits (rho gam : nat → nat → list nat) : Prop :=
  (∀ i j, i < 3 → j < 3 → orth (rho i j) (gam i j)) ∧
  (∀ i j j' d, i < 3 → j < 3 → j' < 3 → j ≠ j' → d < 9 →
     lbl (rho i j) d ≠ lbl (rho i j') d) ∧
  (∀ i i' j d, i < 3 → i' < 3 → j < 3 → i ≠ i' → d < 9 →
     lbl (gam i j) d ≠ lbl (gam i' j) d).

(** The board of a layout: the digits are the numbers of [n0]. *)
Definition board_of (n0 : list Z) (rho gam : nat → nat → list nat)
  : Board.t :=
  Board.mk
    ((λ R, (λ C,
        nth (digit_at (rho (R / 3) (C / 3)) (gam (R / 3) (C / 3))
                      (R mod 3) (C mod 3)) n0 0%Z) <$> seq 0 9) <$> seq 0 9)
    (given Board.new).

(** The board after [_fill_diagonal_boxes], when the three shuffles
    return [n0], [n1] and [n2]. *)
Definition seed (n0 n1 n2 : list Z) : Board.t :=
  Generator.place_numbers n2
    (Generator.place_numbers n1
       (Generator.place_numbers n0 Board.new 0 0) 3 3) 6 6.

End Completion.

#[global] Instance int_eq_dec : EqDecision int.
Proof.
  intros x y. destruct (x =? y)%uint63 eqn:Heq.
  - left. by apply Uint63.eqb_spec.
  - right. by apply Uint63.eqb_false_spec.
Defined.

(** ** Game state ([src/game_state.py])

    The board, the difficulty, the cursor, the move counter, the undo
    history and the hinted cell of a [GameState]; methods take the state
    and return the state after the call.  The timer fields
    ([start_time], [elapsed_time], [is_paused]) are left out: none of the
    methods below reads or writes them.  The cursor holds natural
    numbers: [__init__] sets it to (0, 0) and [move_cursor] keeps both
    components in 0..8. *)

Module GameState.

(** [Move] *)
Record move := mk_move {
  row : nat; col : nat; old_value : Z; new_value : Z
}.

Definition MAX_HISTORY : nat := 100.

Record t := mk {
  board : Board.t;
  difficulty : string;
  cursor : nat * nat;
  move_count : Z;
  history : list move;
  hint_cell : option (nat * nat)
}.

(** [GameState(board, difficulty)] *)
Definition new (b : Board.t) (difficulty : string) : t :=
  mk b difficulty (0, 0) 0%Z [] None.

(** [move_cursor]: with the modulus 9, Python's [%] is [Z.modulo]. *)
Definition move_cursor (g : t) (delta_row delta_col : Z) : t :=
  let new_row := ((Z.of_nat (cursor g).1 + delta_row) mod 9)%Z in
  let new_col := ((Z.of_nat (cursor g).2 + delta_col) mod 9)%Z in
  mk (board g) (difficulty g) (Z.to_nat new_row, Z.to_nat new_col)
     (move_count g) (history g) (hint_cell g).

(** [set_cell]: the move is appended to the history, and the oldest
    entry is dropped ([history.pop(0)]) when the history is longer than
    [MAX_HISTORY]. *)
Definition set_cell (g : t) (value : Z) : bool * t :=
  let '(row, col) := cursor g in
  let old_value := Board.get (board g) row col in
  let '(ok, b) := Board.set (board g) row col value in
  if ok then
    let history := history g ++ [mk_move row col old_value value] in
    let history :=
      if MAX_HISTORY <? length history then drop 1 history else history in
    (true, mk b (difficulty g) (cursor g) (move_count g + 1)%Z history None)
  else
    (false, mk b (difficulty g) (cursor g) (move_count g) (history g)
               (hint_cell g)).

(** [undo]: [history.pop()] takes the last move; its old value is
    written into the grid directly, not through [Board.set]. *)
Definition undo (g : t) : bool * t :=
  match reverse (history g) with
  | [] => (false, g)
  | m :: earlier =>
      (true,
       mk (Board.poke (board g) (row m) (col m) (old_value m))
          (difficulty g) (cursor g) (Z.max 0 (move_count g - 1))
          (reverse earlier) None)
  end.

Definition get_conflicts (g : t) : list (nat * nat) :=
  let '(row, col) := cursor g in Board.get_conflicts (board g) row col.

Definition is_complete (g : t) : bool := Board.is_complete (board g).

(** The states the game reaches: a board of the standard shape, the
    cursor on the board, at most [MAX_HISTORY] recorded moves, each of
    them on a cell of the board that is not given. *)
Definition cursor_ok (g : t) : Prop :=
  (cursor g).1 < Board.SIZE ∧ (cursor g).2 < Board.SIZE.

Definition history_ok (g : t) : Prop :=
  Forall (λ m, row m < Board.SIZE ∧ col m < Board.SIZE ∧
               Board.is_given (board g) (row m) (col m) = false)
         (history g).

Definition valid (g : t) : Prop :=
  Board.wf (board g) ∧ cursor_ok g ∧ history_ok g ∧
  length (history g) ≤ MAX_HISTORY.

End GameState.

(** * Properties *)

(** ** Reading and writing cells *)

Section BoardFacts.
Import Board.
Implicit Types (b : Board.t) (row col : nat) (v : Z).

Lemma given_poke b row col v : given (poke b row col v) = given b.
Proof. unfold poke. by destruct (grid b !! row). Qed.

Lemma grid_mark_given b row col : grid (mark_given b row col) = grid b.
Proof. unfold mark_given. by destruct (given b !! row). Qed.

Lemma peek_mark_given b row col r c :
  peek (mark_given b row col) r c = peek b r c.
Proof. unfold peek. by rewrite grid_mark_given. Qed.

Lemma is_given_poke b row col v r c :
  is_given (poke b row col v) r c = is_given b r c.
Proof. unfold is_given. by rewrite given_poke. Qed.

Lemma wf_lookup_row b row :
  wf b → row < SIZE → ∃ cells, grid b !! row = Some cells ∧ length cells = SIZE.
Proof.
  intros (Hlen & Hrows & _) Hrow.
  destruct (lookup_lt_is_Some_2 (grid b) row) as [cells Hcells]; [lia|].
  exists cells. split; [done|].
  by eapply (Forall_lookup_1 _ _ _ _ Hrows).
Qed.

Lemma peek_poke_same b row col v :
  wf b → row < SIZE → col < SIZE → peek (poke b row col v) row col = v.
Proof.
  intros Hwf Hrow Hcol.
  destruct (wf_lookup_row b row Hwf Hrow) as (cells & Hcells & Hlen).
  unfold peek, poke. rewrite Hcells. simpl.
  rewrite list_lookup_insert_eq by (apply lookup_lt_Some in Hcells; lia).
  by rewrite list_lookup_insert_eq by lia.
Qed.

Lemma peek_poke_other b row col v r c :
  (r, c) ≠ (row, col) → peek (poke b row col v) r c = peek b r c.
Proof.
  intros Hne. unfold peek, poke.
  destruct (grid b !! row) as [cells|] eqn:Hcells; [|done]. simpl.
  destruct (decide (r = row)) as [->|Hr].
  - rewrite list_lookup_insert_eq by (by eapply lookup_lt_Some).
    rewrite Hcells, list_lookup_insert_ne by congruence. done.
  - by rewrite list_lookup_insert_ne.
Qed.

Lemma poke_poke b row col v w :
  poke (poke b row col v) row col w = poke b row col w.
Proof.
  unfold poke. destruct (grid b !! row) as [cells|] eqn:Hcells.
  - simpl. rewrite list_lookup_insert_eq by (by eapply lookup_lt_Some).
    by rewrite list_insert_insert_eq, list_insert_insert_eq.
  - by rewrite Hcells.
Qed.

Lemma poke_peek b row col : poke b row col (peek b row col) = b.
Proof.
  unfold poke, peek. destruct b as [g gv]. simpl.
  destruct (g !! row) as [cells|] eqn:Hcells; [|done].
  f_equal. apply list_insert_id.
  rewrite Hcells. f_equal. symmetry.
  destruct (cells !! col) as [x|] eqn:Hx.
  - by apply list_insert_id.
  - apply list_insert_ge. by apply lookup_ge_None.
Qed.

Lemma poke_restore b row col v :
  peek b row col = 0%Z → poke (poke b row col v) row col 0%Z = b.
Proof. intros <-. rewrite poke_poke. apply poke_peek. Qed.

Lemma wf_poke b row col v : wf b → wf (poke b row col v).
Proof.
  intros (Hlen & Hrows & Hg). unfold wf, poke.
  destruct (grid b !! row) as [cells|] eqn:Hcells; [|done]. simpl.
  split_and!; try tauto.
  - by rewrite length_insert.
  - apply Forall_insert; [done|]. rewrite length_insert.
    by eapply (Forall_lookup_1 _ _ _ _ Hrows).
Qed.

Lemma wf_new : wf Board.new.
Proof. unfold wf. simpl. split_and!; try done; by repeat constructor. Qed.

Lemma elem_of_positions r c : (r, c) ∈ positions ↔ r < SIZE ∧ c < SIZE.
Proof.
  unfold positions, range. rewrite list_elem_of_join. split.
  - intros (l & Hin & Hl). apply list_elem_of_fmap in Hl as (r' & -> & Hr').
    apply list_elem_of_fmap in Hin as (c' & [= -> ->] & Hc').
    apply elem_of_seq in Hr', Hc'. unfold SIZE in *. lia.
  - intros [Hr Hc]. exists ((λ c, (r, c)) <$> seq 0 (SIZE - 0)). split.
    + apply list_elem_of_fmap. exists c. split; [done|].
      apply elem_of_seq. unfold SIZE in *. lia.
    + apply list_elem_of_fmap. exists r. split; [done|].
      apply elem_of_seq. unfold SIZE in *. lia.
Qed.

Lemma NoDup_positions : NoDup positions.
Proof. apply (bool_decide_unpack _). by vm_compute. Qed.

(** Two well-formed grids with the same cells are the same list. *)
Lemma grid_ext b1 b2 :
  wf b1 → wf b2 →
  (∀ r c, r < SIZE → c < SIZE → peek b1 r c = peek b2 r c) →
  grid b1 = grid b2.
Proof.
  intros Hwf1 Hwf2 Heq. apply list_eq. intros r.
  destruct (decide (r < SIZE)) as [Hr|Hr].
  - destruct (wf_lookup_row b1 r Hwf1 Hr) as (cs1 & H1 & L1).
    destruct (wf_lookup_row b2 r Hwf2 Hr) as (cs2 & H2 & L2).
    rewrite H1, H2. f_equal. apply list_eq. intros c.
    destruct (decide (c < SIZE)) as [Hc|Hc].
    + specialize (Heq r c Hr Hc). unfold peek in Heq. rewrite H1, H2 in Heq.
      destruct (lookup_lt_is_Some_2 cs1 c) as [x1 Hx1]; [lia|].
      destruct (lookup_lt_is_Some_2 cs2 c) as [x2 Hx2]; [lia|].
      rewrite Hx1, Hx2 in Heq |- *. by f_equal.
    + rewrite !lookup_ge_None_2; [done|lia|lia].
  - destruct Hwf1 as (L1 & _), Hwf2 as (L2 & _).
    rewrite !lookup_ge_None_2; [done|lia|lia].
Qed.

End BoardFacts.

(** ** The searches: termination, restoring and completeness *)

Section SolverFacts.
Import Board Solver Spec.
Implicit Types (b sol : Board.t) (row col : nat) (v num : Z).

Lemma find_empty_Some b row col :
  _find_empty_cell b = Some (row, col) →
  peek b row col = 0%Z ∧ row < SIZE ∧ col < SIZE.
Proof.
  intros Hf. apply find_some in Hf as [Hin Hz].
  apply list_elem_of_In, elem_of_positions in Hin.
  split; [lia|done].
Qed.

Lemma find_empty_None b r c :
  _find_empty_cell b = None → r < SIZE → c < SIZE → peek b r c ≠ 0%Z.
Proof.
  intros Hf Hr Hc.
  assert (Hin : In (r, c) positions)
    by (by apply list_elem_of_In, elem_of_positions).
  pose proof (find_none _ _ Hf _ Hin) as Hz. simpl in Hz. lia.
Qed.

Lemma find_empty_same_grid b1 b2 :
  grid b1 = grid b2 → _find_empty_cell b1 = _find_empty_cell b2.
Proof. intros Hg. unfold _find_empty_cell, peek. by rewrite Hg. Qed.

Lemma box_range r row :
  r ∈ range (row / BOX_SIZE * BOX_SIZE) (row / BOX_SIZE * BOX_SIZE + BOX_SIZE)
  ↔ r / 3 = row / 3.
Proof.
  unfold range, BOX_SIZE. rewrite elem_of_seq.
  pose proof (Nat.div_mod_eq r 3). pose proof (Nat.div_mod_eq row 3).
  pose proof (Nat.mod_upper_bound r 3). pose proof (Nat.mod_upper_bound row 3).
  lia.
Qed.

Lemma box_range_lt r row :
  row < SIZE → r / 3 = row / 3 → r < SIZE.
Proof.
  unfold SIZE.
  pose proof (Nat.div_mod_eq r 3). pose proof (Nat.div_mod_eq row 3).
  pose proof (Nat.mod_upper_bound r 3). pose proof (Nat.mod_upper_bound row 3).
  lia.
Qed.

Lemma line_range r : r ∈ range 0 SIZE ↔ r < SIZE.
Proof. unfold range, SIZE. rewrite elem_of_seq. lia. Qed.

(** [is_valid_move] holds exactly when no peer holds the number. *)
Lemma is_valid_move_spec b row col num :
  row < SIZE → col < SIZE →
  is_valid_move b row col num = true ↔
  ∀ r c, r < SIZE → c < SIZE → peers r c row col → peek b r c ≠ num.
Proof.
  intros Hrow Hcol. unfold is_valid_move.
  rewrite !andb_true_iff, !forallb_forall. split.
  - intros [[Hr Hc] Hb] r c Hr9 Hc9 [Hne [->|[->|[Hbr Hbc]]]].
    + specialize (Hr c). rewrite <- list_elem_of_In, line_range in Hr.
      specialize (Hr Hc9).
      destruct (Nat.eqb_spec c col); [congruence|]. simpl in Hr. lia.
    + specialize (Hc r). rewrite <- list_elem_of_In, line_range in Hc.
      specialize (Hc Hr9).
      destruct (Nat.eqb_spec r row); [congruence|]. simpl in Hc. lia.
    + specialize (Hb r). rewrite <- list_elem_of_In, box_range in Hb.
      specialize (Hb Hbr). rewrite forallb_forall in Hb.
      specialize (Hb c). rewrite <- list_elem_of_In, box_range in Hb.
      specialize (Hb Hbc). unfold cell_eqb in Hb. simpl in Hb.
      destruct (Nat.eqb_spec r row), (Nat.eqb_spec c col);
        simpl in Hb; try lia; congruence.
  - intros Hp. split_and!.
    + intros c Hin. rewrite <- list_elem_of_In, line_range in Hin.
      destruct (Nat.eqb_spec c col); [done|]. simpl.
      apply negb_true_iff, Z.eqb_neq, Hp; [done..|].
      split; [congruence|by left].
    + intros r Hin. rewrite <- list_elem_of_In, line_range in Hin.
      destruct (Nat.eqb_spec r row); [done|]. simpl.
      apply negb_true_iff, Z.eqb_neq, Hp; [done..|].
      split; [congruence|by right; left].
    + intros r Hin. rewrite <- list_elem_of_In, box_range in Hin.
      apply forallb_forall. intros c Hinc.
      rewrite <- list_elem_of_In, box_range in Hinc.
      unfold cell_eqb. simpl.
      destruct (Nat.eqb_spec r row), (Nat.eqb_spec c col); simpl; try done;
        apply negb_true_iff, Z.eqb_neq, Hp;
        eauto using box_range_lt; (split; [congruence|by right; right]).
Qed.

Lemma is_valid_move_same_grid b1 b2 row col num :
  grid b1 = grid b2 → is_valid_move b1 row col num = is_valid_move b2 row col num.
Proof. intros Hg. unfold is_valid_move, peek. by rewrite Hg. Qed.

(** Filling an empty cell lowers the number of empty cells. *)
Lemma empty_count_poke b row col num :
  wf b → row < SIZE → col < SIZE → peek b row col = 0%Z → num ≠ 0%Z →
  empty_count (poke b row col num) < empty_count b.
Proof.
  intros Hwf Hrow Hcol Hz Hnum. unfold empty_count.
  assert (Hin : (row, col) ∈ positions) by (by apply elem_of_positions).
  pose proof NoDup_positions as Hnd. revert Hin Hnd.
  generalize positions as ps.
  assert (Hle : ∀ ps : list (nat * nat), (row, col) ∉ ps →
    length (List.filter (λ '(r, c), (peek (poke b row col num) r c =? 0)%Z) ps)
    = length (List.filter (λ '(r, c), (peek b r c =? 0)%Z) ps)).
  { induction ps as [|[r c] ps IH]; intros Hnin; [done|].
    apply not_elem_of_cons in Hnin as [Hne Hnin]. simpl.
    rewrite peek_poke_other by congruence.
    destruct (peek b r c =? 0)%Z; simpl; rewrite IH; done. }
  induction ps as [|[r c] ps IH]; intros Hin Hnd.
  - by apply elem_of_nil in Hin.
  - apply NoDup_cons in Hnd as [Hnin Hnd]. simpl.
    destruct (decide ((r, c) = (row, col))) as [[= -> ->]|Hne].
    + rewrite peek_poke_same, Hz by done.
      destruct (Z.eqb_spec num 0); [done|]. simpl.
      rewrite Hle by done. lia.
    + apply elem_of_cons in Hin as [Heq|Hin]; [congruence|].
      rewrite peek_poke_other by done.
      specialize (IH Hin Hnd).
      destruct (peek b r c =? 0)%Z; simpl; lia.
Qed.

Lemma empty_count_same_grid b1 b2 :
  grid b1 = grid b2 → empty_count b1 = empty_count b2.
Proof. intros Hg. unfold empty_count, peek. by rewrite Hg. Qed.

Lemma empty_count_bound b : empty_count b < FUEL.
Proof.
  unfold empty_count, FUEL.
  pose proof (filter_length_le
    (λ '(row, col), (peek b row col =? 0)%Z) positions) as Hle.
  assert (length positions = SIZE * SIZE) by done. lia.
Qed.

Lemma numbers_nonzero num : num ∈ numbers → num ≠ 0%Z.
Proof. unfold numbers. rewrite !elem_of_cons, elem_of_nil. lia. Qed.

(** *** Consistent boards *)

Lemma peers_sym r c row col : peers r c row col → peers row col r c.
Proof. intros [Hne Hp]. split; [congruence|]. intuition auto. Qed.

Lemma consistent_poke b row col num :
  wf b → row < SIZE → col < SIZE → peek b row col = 0%Z →
  num ∈ numbers → is_valid_move b row col num = true →
  consistent b → consistent (poke b row col num).
Proof.
  intros Hwf Hrow Hcol Hz Hnum Hv Hc r c Hr Hcc Hnz.
  rewrite is_valid_move_spec in Hv by done.
  destruct (decide ((r, c) = (row, col))) as [[= -> ->]|Hne].
  - rewrite peek_poke_same by done. split; [done|].
    apply is_valid_move_spec; [done..|]. intros r' c' Hr' Hc' Hp.
    rewrite peek_poke_other by apply Hp. by apply Hv.
  - rewrite peek_poke_other in Hnz |- * by done.
    destruct (Hc r c Hr Hcc Hnz) as [Hin Hvalid]. split; [done|].
    rewrite is_valid_move_spec in Hvalid |- * by done.
    intros r' c' Hr' Hc' Hp.
    destruct (decide ((r', c') = (row, col))) as [[= -> ->]|Hne'].
    + rewrite peek_poke_same by done. intros Heq.
      apply (Hv r c Hr Hcc); [by apply peers_sym|done].
    + rewrite peek_poke_other by done. by apply Hvalid.
Qed.

Lemma extends_consistent b sol : solution sol → extends b sol → consistent b.
Proof.
  intros [Hwfs Hsol] Hext r c Hr Hc Hnz.
  destruct (Hsol r c Hr Hc) as [Hin Hv].
  rewrite (Hext r c Hr Hc Hnz) in Hin, Hv. split; [done|].
  rewrite is_valid_move_spec in Hv |- * by done.
  intros r' c' Hr' Hc' Hp Heq. apply (Hv r' c' Hr' Hc' Hp).
  rewrite <- Heq. apply Hext; [done..|]. by rewrite Heq.
Qed.

Lemma full_consistent_solution b :
  wf b → _find_empty_cell b = None → consistent b → solution b.
Proof.
  intros Hwf Hf Hc. split; [done|]. intros r c Hr Hcc.
  apply Hc; [done..|]. by apply find_empty_None.
Qed.

Lemma solution_extends_self sol : extends sol sol.
Proof. by intros r c _ _ _. Qed.

(** *** Unfolding equations *)

Lemma solve_rec_S fuel b :
  solve_rec (S fuel) b =
  match _find_empty_cell b with
  | None => Some (true, b)
  | Some (row, col) => try_each (solve_rec fuel) row col numbers b
  end.
Proof. reflexivity. Qed.

Lemma backtrack_S fuel limit b count :
  backtrack (S fuel) limit b count =
  if (limit <=? count)%Z then Some (b, count)
  else match _find_empty_cell b with
       | None => Some (b, (count + 1)%Z)
       | Some (row, col) =>
           count_each (backtrack fuel limit) row col numbers b count
       end.
Proof. reflexivity. Qed.

Lemma solve_with_randomness_rec_S {R} `{Random R} fuel b (s : R) :
  solve_with_randomness_rec (S fuel) b s =
  match _find_empty_cell b with
  | None => Some (true, b, s)
  | Some (row, col) =>
      try_each_random (solve_with_randomness_rec fuel) row col
        (shuffle numbers s).1 b (shuffle numbers s).2
  end.
Proof.
  cbn [solve_with_randomness_rec].
  destruct (_find_empty_cell b) as [[row col]|]; [|reflexivity].
  destruct (shuffle numbers s). reflexivity.
Qed.

(** *** The randomized search *)

Section Randomized.
Context {R : Type} `{RandomLaws R}.

Lemma try_each_random_post (rec : Board.t → R → option (bool * Board.t * R))
    n row col :
  (∀ b1 s1, wf b1 → empty_count b1 < n → search_post b1 (rec b1 s1)) →
  row < SIZE → col < SIZE →
  ∀ nums b s, Forall (λ num, num ∈ numbers) nums →
    wf b → peek b row col = 0%Z → empty_count b ≤ n →
    search_post b (try_each_random rec row col nums b s).
Proof.
  intros Hrec Hrow Hcol. induction nums as [|num nums IH];
    intros b s Hnz Hwf Hz Hn; simpl.
  - by exists false, b, s.
  - apply Forall_cons in Hnz as [Hnum Hnz].
    destruct (is_valid_move b row col num) eqn:Hv; [|by apply IH].
    destruct (Hrec (poke b row col num) s) as (ok & b' & s' & -> & Hwf' & Hg & Hf & Ht).
    { by apply wf_poke. }
    { pose proof (empty_count_poke b row col num Hwf Hrow Hcol Hz
                    (numbers_nonzero _ Hnum)). lia. }
    destruct ok.
    + exists true, b', s'. rewrite Hg, given_poke.
      destruct (Ht eq_refl) as [Hfull Hcons].
      split_and!; auto; [done|]. intros _. split; [done|].
      intros Hc. apply Hcons. by apply consistent_poke.
    + rewrite (Hf eq_refl), poke_restore by done. by apply IH.
Qed.

Lemma shuffled_numbers (s : R) :
  Forall (λ num, num ∈ numbers) (shuffle numbers s).1.
Proof.
  apply Forall_forall. intros num Hin.
  by rewrite (shuffle_perm _ numbers s) in Hin.
Qed.

Lemma solve_with_randomness_rec_post fuel b s :
  wf b → empty_count b < fuel →
  search_post b (solve_with_randomness_rec fuel b s).
Proof.
  revert b s. induction fuel as [|fuel IH]; intros b s Hwf Hn; [lia|].
  rewrite solve_with_randomness_rec_S.
  destruct (_find_empty_cell b) as [[row col]|] eqn:Hf.
  - apply find_empty_Some in Hf as (Hz & Hrow & Hcol).
    apply (try_each_random_post _ fuel); try done; [|lia].
    apply shuffled_numbers.
  - exists true, b, s. split_and!; done.
Qed.

(** Completeness: when some solution keeps the filled cells of the board,
    the search succeeds, whatever the order of the candidates. *)
Lemma try_each_random_complete (rec : Board.t → R → option (bool * Board.t * R))
    n row col sol :
  (∀ b1 s1, wf b1 → empty_count b1 < n → search_post b1 (rec b1 s1)) →
  (∀ b1 s1, wf b1 → empty_count b1 < n → extends b1 sol →
     ∃ b' s', rec b1 s1 = Some (true, b', s')) →
  row < SIZE → col < SIZE → solution sol →
  ∀ nums b s, Forall (λ num, num ∈ numbers) nums → peek sol row col ∈ nums →
    wf b → peek b row col = 0%Z → empty_count b ≤ n → extends b sol →
    ∃ b' s', try_each_random rec row col nums b s = Some (true, b', s').
Proof.
  intros Hrec Hcomp Hrow Hcol [Hwfs Hsol]. induction nums as [|num nums IH];
    intros b s Hnz Hin Hwf Hz Hn Hext; simpl.
  - by apply elem_of_nil in Hin.
  - apply Forall_cons in Hnz as [Hnum Hnz].
    assert (Hlt : empty_count (poke b row col num) < n).
    { pose proof (empty_count_poke b row col num Hwf Hrow Hcol Hz
                    (numbers_nonzero _ Hnum)). lia. }
    destruct (decide (num = peek sol row col)) as [->|Hne].
    + assert (Hv : is_valid_move b row col (peek sol row col) = true).
      { apply is_valid_move_spec; [done..|]. intros r c Hr Hc Hp Heq.
        destruct (Hsol row col Hrow Hcol) as [_ Hvs].
        rewrite is_valid_move_spec in Hvs by done.
        apply (Hvs r c Hr Hc Hp). rewrite <- Heq. apply Hext; [done..|].
        rewrite Heq. by apply numbers_nonzero. }
      rewrite Hv.
      destruct (Hcomp (poke b row col (peek sol row col)) s) as (b' & s' & ->);
        [by apply wf_poke|done| |by eauto].
      intros r c Hr Hc Hnz'.
      destruct (decide ((r, c) = (row, col))) as [[= -> ->]|Hne].
      * by rewrite peek_poke_same.
      * rewrite peek_poke_other in Hnz' |- * by done. by apply Hext.
    + apply elem_of_cons in Hin as [Heq|Hin]; [congruence|].
      destruct (is_valid_move b row col num); [|by apply IH].
      destruct (Hrec (poke b row col num) s) as (ok & b' & s' & -> & _ & _ & Hf & _);
        [by apply wf_poke|done|].
      destruct ok; [by eauto|].
      rewrite (Hf eq_refl), poke_restore by done. by apply IH.
Qed.

Lemma solve_with_randomness_rec_complete fuel b s sol :
  solution sol → wf b → empty_count b < fuel → extends b sol →
  ∃ b' s', solve_with_randomness_rec fuel b s = Some (true, b', s').
Proof.
  intros Hsol. revert b s. induction fuel as [|fuel IH];
    intros b s Hwf Hn Hext; [lia|].
  rewrite solve_with_randomness_rec_S.
  destruct (_find_empty_cell b) as [[row col]|] eqn:Hf; [|by eauto].
  apply find_empty_Some in Hf as (Hz & Hrow & Hcol).
  apply (try_each_random_complete _ fuel row col sol); try done.
  - intros. by apply solve_with_randomness_rec_post.
  - apply shuffled_numbers.
  - rewrite (shuffle_perm _ numbers s). by apply Hsol.
  - lia.
Qed.

(** A successful search keeps every cell that was filled. *)
Lemma extends_poke b row col num b' :
  peek b row col = 0%Z → extends (poke b row col num) b' → extends b b'.
Proof.
  intros Hz Hext r c Hr Hc Hnz.
  assert (Hne : (r, c) ≠ (row, col)) by (intros [= -> ->]; done).
  rewrite <- (peek_poke_other b row col num r c Hne).
  apply Hext; [done..|]. by rewrite peek_poke_other.
Qed.

Lemma try_each_random_extends (rec : Board.t → R → option (bool * Board.t * R))
    n row col :
  (∀ b1 s1, wf b1 → empty_count b1 < n → search_post b1 (rec b1 s1)) →
  (∀ b1 s1 b' s', wf b1 → empty_count b1 < n →
     rec b1 s1 = Some (true, b', s') → extends b1 b') →
  row < SIZE → col < SIZE →
  ∀ nums b s b' s', Forall (λ num, num ∈ numbers) nums →
    wf b → peek b row col = 0%Z → empty_count b ≤ n →
    try_each_random rec row col nums b s = Some (true, b', s') →
    extends b b'.
Proof.
  intros Hrec Hext Hrow Hcol. induction nums as [|num nums IH];
    intros b s b' s' Hnz Hwf Hz Hn Hrun; simpl in Hrun; [done|].
  apply Forall_cons in Hnz as [Hnum Hnz].
  destruct (is_valid_move b row col num) eqn:Hv; [|by eapply IH].
  assert (Hlt : empty_count (poke b row col num) < n).
  { pose proof (empty_count_poke b row col num Hwf Hrow Hcol Hz
                  (numbers_nonzero _ Hnum)). lia. }
  pose proof (wf_poke b row col num Hwf) as Hwf1.
  destruct (Hrec (poke b row col num) s Hwf1 Hlt)
    as (ok & b1 & s1 & Hr1 & _ & _ & Hf & _).
  rewrite Hr1 in Hrun. destruct ok.
  - injection Hrun as <- <-. apply (extends_poke b row col num); [done|].
    by eapply Hext.
  - rewrite (Hf eq_refl), poke_restore in Hrun by done. by eapply IH.
Qed.

Lemma solve_with_randomness_rec_extends fuel b s b' s' :
  wf b → empty_count b < fuel →
  solve_with_randomness_rec fuel b s = Some (true, b', s') → extends b b'.
Proof.
  revert b s b' s'. induction fuel as [|fuel IH];
    intros b s b' s' Hwf Hn Hrun; [lia|].
  rewrite solve_with_randomness_rec_S in Hrun.
  destruct (_find_empty_cell b) as [[row col]|] eqn:Hf.
  - apply find_empty_Some in Hf as (Hz & Hrow & Hcol).
    refine (try_each_random_extends _ fuel row col _ IH Hrow Hcol _ _ _ _ _
              (shuffled_numbers s) Hwf Hz _ Hrun); [|lia].
    intros. by apply solve_with_randomness_rec_post.
  - injection Hrun as <- <-. by intros r c _ _ _.
Qed.

End Randomized.

(** *** The deterministic search is the randomized one without shuffling *)

#[export] Instance Fixed_laws : RandomLaws unit.
Proof. split; [done|]. intros a b s Hab. simpl. lia. Qed.

Lemma try_each_as_random rec1 (rec2 : Board.t → unit → option (bool * Board.t * unit))
    row col nums b :
  (∀ b1, rec1 b1 = forget (rec2 b1 tt)) →
  try_each rec1 row col nums b = forget (try_each_random rec2 row col nums b tt).
Proof.
  intros Hrec. revert b. induction nums as [|num nums IH]; intros b; [done|].
  simpl. destruct (is_valid_move b row col num); [|done].
  rewrite Hrec. destruct (rec2 (poke b row col num) tt) as [[[[] b'] []]|];
    simpl; [done| |done].
  apply IH.
Qed.

Lemma solve_rec_as_random fuel b :
  solve_rec fuel b = forget (solve_with_randomness_rec fuel b tt).
Proof.
  revert b. induction fuel as [|fuel IH]; intros b; [done|].
  rewrite solve_rec_S, solve_with_randomness_rec_S.
  destruct (_find_empty_cell b) as [[row col]|]; [|done].
  by apply try_each_as_random.
Qed.

Lemma solve_rec_post fuel b :
  wf b → empty_count b < fuel →
  ∃ ok b', solve_rec fuel b = Some (ok, b') ∧ wf b' ∧ given b' = given b ∧
    (ok = false → b' = b) ∧
    (ok = true → _find_empty_cell b' = None ∧ (consistent b → consistent b')).
Proof.
  intros Hwf Hn. rewrite solve_rec_as_random.
  destruct (solve_with_randomness_rec_post fuel b tt Hwf Hn)
    as (ok & b' & s' & -> & Hpost).
  by exists ok, b'.
Qed.

Lemma solve_rec_complete fuel b sol :
  solution sol → wf b → empty_count b < fuel → extends b sol →
  ∃ b', solve_rec fuel b = Some (true, b').
Proof.
  intros Hsol Hwf Hn Hext. rewrite solve_rec_as_random.
  destruct (solve_with_randomness_rec_complete fuel b tt sol Hsol Hwf Hn Hext)
    as (b' & s' & ->).
  by exists b'.
Qed.

Lemma solve_rec_extends fuel b b' :
  wf b → empty_count b < fuel →
  solve_rec fuel b = Some (true, b') → extends b b'.
Proof.
  intros Hwf Hn. rewrite solve_rec_as_random.
  destruct (solve_with_randomness_rec fuel b tt) as [[[ok b1] s1]|] eqn:Hrun;
    [|done].
  simpl. intros [= -> ->]. by eapply solve_with_randomness_rec_extends.
Qed.

(** *** The searches read and write the grid only *)

Lemma poke_with_given gv b row col v :
  poke (with_given gv b) row col v = with_given gv (poke b row col v).
Proof. unfold poke, with_given. simpl. by destruct (grid b !! row). Qed.

Lemma with_given_id b : with_given (given b) b = b.
Proof. by destruct b. Qed.

Lemma try_each_with_given gv rec1 rec2 row col nums b :
  (∀ b1, rec2 (with_given gv b1) = prod_map id (with_given gv) <$> rec1 b1) →
  try_each rec2 row col nums (with_given gv b)
  = prod_map id (with_given gv) <$> try_each rec1 row col nums b.
Proof.
  intros Hrec. revert b. induction nums as [|num nums IH]; intros b; [done|].
  simpl. rewrite (is_valid_move_same_grid (with_given gv b) b) by done.
  destruct (is_valid_move b row col num); [|done].
  rewrite poke_with_given, Hrec.
  destruct (rec1 (poke b row col num)) as [[[] b']|]; simpl; [done| |done].
  rewrite poke_with_given. apply IH.
Qed.

Lemma solve_rec_with_given gv fuel b :
  solve_rec fuel (with_given gv b)
  = prod_map id (with_given gv) <$> solve_rec fuel b.
Proof.
  revert b. induction fuel as [|fuel IH]; intros b; [done|].
  rewrite !solve_rec_S.
  rewrite (find_empty_same_grid (with_given gv b) b) by done.
  destruct (_find_empty_cell b) as [[row col]|]; [|done].
  by apply try_each_with_given.
Qed.

Lemma count_each_with_given gv rec1 rec2 row col nums b count :
  (∀ b1 c1, rec2 (with_given gv b1) c1
            = prod_map (with_given gv) id <$> rec1 b1 c1) →
  count_each rec2 row col nums (with_given gv b) count
  = prod_map (with_given gv) id <$> count_each rec1 row col nums b count.
Proof.
  intros Hrec. revert b count.
  induction nums as [|num nums IH]; intros b count; [done|].
  simpl. rewrite (is_valid_move_same_grid (with_given gv b) b) by done.
  destruct (is_valid_move b row col num); [|done].
  rewrite poke_with_given, Hrec.
  destruct (rec1 (poke b row col num) count) as [[b' count']|]; simpl; [|done].
  rewrite poke_with_given. apply IH.
Qed.

Lemma backtrack_with_given gv fuel limit b count :
  backtrack fuel limit (with_given gv b) count
  = prod_map (with_given gv) id <$> backtrack fuel limit b count.
Proof.
  revert b count. induction fuel as [|fuel IH]; intros b count; [done|].
  rewrite !backtrack_S.
  destruct (limit <=? count)%Z; [done|].
  rewrite (find_empty_same_grid (with_given gv b) b) by done.
  destruct (_find_empty_cell b) as [[row col]|]; [|done].
  by apply count_each_with_given.
Qed.

(** *** Counting: the board is put back, and the count is returned *)

Lemma count_each_post (rec : Board.t → Z → option (Board.t * Z)) n row col :
  (∀ b1 c1, wf b1 → empty_count b1 < n → ∃ c', rec b1 c1 = Some (b1, c')) →
  row < SIZE → col < SIZE →
  ∀ nums b count, Forall (λ num, num ≠ 0%Z) nums →
    wf b → peek b row col = 0%Z → empty_count b ≤ n →
    ∃ c', count_each rec row col nums b count = Some (b, c').
Proof.
  intros Hrec Hrow Hcol. induction nums as [|num nums IH];
    intros b count Hnz Hwf Hz Hn; simpl.
  - by exists count.
  - apply Forall_cons in Hnz as [Hnum Hnz].
    destruct (is_valid_move b row col num); [|by apply IH].
    destruct (Hrec (poke b row col num) count) as (c' & ->).
    { by apply wf_poke. }
    { pose proof (empty_count_poke b row col num Hwf Hrow Hcol Hz Hnum). lia. }
    rewrite poke_restore by done. by apply IH.
Qed.

Lemma backtrack_post fuel limit b count :
  wf b → empty_count b < fuel →
  ∃ c', backtrack fuel limit b count = Some (b, c').
Proof.
  revert b count. induction fuel as [|fuel IH]; intros b count Hwf Hn; [lia|].
  rewrite backtrack_S. destruct (limit <=? count)%Z; [by eauto|].
  destruct (_find_empty_cell b) as [[row col]|] eqn:Hf; [|by eauto].
  apply find_empty_Some in Hf as (Hz & Hrow & Hcol).
  apply (count_each_post _ fuel); try done; [|lia].
  apply Forall_forall. intros num Hin. by apply numbers_nonzero.
Qed.

Lemma count_solutions_post b limit :
  wf b → ∃ n, count_solutions b limit = Some (n, b).
Proof.
  intros Hwf. unfold count_solutions.
  destruct (backtrack_post FUEL limit b 0 Hwf (empty_count_bound b)) as (c & ->).
  by exists c.
Qed.

Lemma count_solutions_full b :
  _find_empty_cell b = None → count_solutions b 2 = Some (1%Z, b).
Proof.
  intros Hf. unfold count_solutions, FUEL. rewrite backtrack_S, Hf.
  reflexivity.
Qed.

Lemma count_solutions_with_given gv b limit :
  count_solutions (with_given gv b) limit
  = prod_map id (with_given gv) <$> count_solutions b limit.
Proof.
  unfold count_solutions. rewrite backtrack_with_given.
  by destruct (backtrack FUEL limit b 0) as [[b' c]|].
Qed.

End SolverFacts.

Section LayoutFacts.
Import Layout.

(** *** Labelings *)

Lemma length_compose f g : length (compose f g) = length g.
Proof. apply length_map. Qed.

Lemma lbl_compose f g d :
  d < length g → lbl (compose f g) d = lbl f (lbl g d).
Proof.
  intros Hd. unfold lbl, compose.
  rewrite (nth_indep _ 0 (nth 0 f 0)) by (by rewrite length_map).
  apply (map_nth (λ d, nth d f 0)).
Qed.

Lemma compose_digits x : length x = 9 → compose x digits = x.
Proof. do 10 (destruct x as [|? x]; try done). Qed.

Lemma zip_map_fst {A B C} (f : A → C) (l : list A) (k : list B) :
  zip (map f l) k = map (λ p, (f p.1, p.2)) (zip l k).
Proof.
  revert k. induction l as [|x l IH]; intros [|y k]; simpl; [done..|].
  by rewrite IH.
Qed.

Lemma zip_map_snd {A B C} (f : B → C) (l : list A) (k : list B) :
  zip l (map f k) = map (λ p, (p.1, f p.2)) (zip l k).
Proof.
  revert k. induction l as [|x l IH]; intros [|y k]; simpl; [done..|].
  by rewrite IH.
Qed.

Lemma zip_map_both {A B C} (f : A → B) (g : A → C) (l : list A) :
  zip (map f l) (map g l) = map (λ d, (f d, g d)) l.
Proof. induction l as [|x l IH]; simpl; [done|]. by rewrite IH. Qed.

Lemma zip_lbl u a :
  length u = 9 → length a = 9 →
  map (λ d, (lbl u d, lbl a d)) digits = zip u a.
Proof.
  intros Hu Ha.
  do 10 (destruct u as [|? u]; try done).
  do 10 (destruct a as [|? a]; try done).
Qed.

Lemma orth_length u a : orth u a → length u = 9 ∧ length a = 9.
Proof. by intros (? & ? & _). Qed.

Lemma orth_compose u a h :
  h ≡ₚ digits → orth u a → orth (compose u h) (compose a h).
Proof.
  intros Hh (Hu & Ha & Hp).
  assert (Hlen : length h = 9) by (by rewrite Hh).
  split; [by rewrite length_compose|]. split; [by rewrite length_compose|].
  unfold compose. rewrite zip_map_both.
  rewrite (Permutation_map _ Hh), zip_lbl; done.
Qed.

Lemma orth_sym u a : orth u a → orth a u.
Proof.
  intros (Hu & Ha & Hp). split; [done|]. split; [done|].
  assert (Hswap : zip a u = map (λ p, (p.2, p.1)) (zip u a)).
  { clear. revert a. induction u as [|x u IH]; intros [|y a]; simpl; [done..|].
    by rewrite IH. }
  rewrite Hswap, (Permutation_map _ Hp).
  apply (bool_decide_unpack _). by vm_compute.
Qed.

Lemma orth_post_l p q u a : (p, q) ∈ perm3 → orth u a → orth (compose p u) a.
Proof.
  intros Hp (Hu & Ha & Hperm).
  split; [by rewrite length_compose|]. split; [done|].
  unfold compose. rewrite zip_map_fst, (Permutation_map _ Hperm).
  unfold perm3 in Hp. rewrite !elem_of_cons, elem_of_nil in Hp.
  destruct Hp as [[= -> ->]|[[= -> ->]|[[= -> ->]|[[= -> ->]|[[= -> ->]|[[= -> ->]|[]]]]]]];
    apply (bool_decide_unpack _); by vm_compute.
Qed.

Lemma orth_post_r p q u a : (p, q) ∈ perm3 → orth u a → orth u (compose p a).
Proof. intros Hp Ho. by apply orth_sym, (orth_post_l p q), orth_sym. Qed.

Lemma orth_lt u a d : orth u a → d < 9 → lbl u d < 3 ∧ lbl a d < 3.
Proof.
  intros (Hu & Ha & Hp) Hd.
  assert (Hin : (lbl u d, lbl a d) ∈ cells9).
  { rewrite <- Hp, <- zip_lbl by done.
    apply list_elem_of_In, (in_map (λ d, (lbl u d, lbl a d))).
    apply list_elem_of_In, elem_of_seq. lia. }
  revert Hin. generalize (lbl u d) (lbl a d). intros n m.
  unfold cells9. simpl. rewrite !elem_of_cons, elem_of_nil.
  intros [[= -> ->]|[[= -> ->]|[[= -> ->]|[[= -> ->]|[[= -> ->]|[[= -> ->]|[[= -> ->]|[[= -> ->]|[[= -> ->]|[]]]]]]]]]]; lia.
Qed.

(** *** Bit sets *)

Lemma tags_ok :
  forallb (λ k, forallb (λ j, Bool.eqb (bit (1 << k) j) (j =? k)%uint63) idxs)
          idxs = true.
Proof. vm_compute. reflexivity. Qed.

Lemma tag_bit j : j ∈ idxs → bit (1 << j) j = true.
Proof.
  intros Hj. pose proof tags_ok as Hok.
  rewrite forallb_forall in Hok. apply list_elem_of_In in Hj.
  specialize (Hok j Hj). rewrite forallb_forall in Hok.
  specialize (Hok j Hj). rewrite Uint63.eqb_refl in Hok.
  by destruct (bit (1 << j) j).
Qed.

Lemma fold_or_complete {A} (f : A → bool) (g : A → int) (l : list A) acc j :
  bit acc j = true ∨ (∃ e, e ∈ l ∧ f e = true ∧ bit (g e) j = true) →
  bit (fold_left (λ (acc : int) (e : A),
         if f e then (acc lor g e)%uint63 else acc) l acc) j = true.
Proof.
  revert acc. induction l as [|e l IH]; intros acc Hb; simpl.
  - destruct Hb as [Hb|(e & Hin & _)]; [done|]. by apply elem_of_nil in Hin.
  - apply IH. destruct Hb as [Hb|(e' & Hin & Hf & Hg)].
    + left. destruct (f e); [|done]. by rewrite lor_spec, Hb.
    + apply elem_of_cons in Hin as [->|Hin].
      * left. by rewrite Hf, lor_spec, Hg, orb_true_r.
      * right. by exists e'.
Qed.

Lemma mask_complete bs j :
  (j, true) ∈ zip idxs bs → bit (mask bs) j = true.
Proof.
  intros Hin. unfold mask. apply (fold_or_complete snd fst). right.
  exists ((1 << j)%uint63, true). split_and!; [|done|].
  - unfold pows. rewrite zip_map_fst.
    apply list_elem_of_In.
    apply (in_map (λ p : int * bool, ((1 << p.1)%uint63, p.2)) _ (j, true)).
    by apply list_elem_of_In.
  - cbn [fst]. apply tag_bit. by eapply elem_of_zip_l.
Qed.

(** Two bit sets that are apart have no place in common. *)
Lemma apart_masks bs bs' j :
  apart (mask bs) (mask bs') = true →
  (j, true) ∈ zip idxs bs → (j, true) ∈ zip idxs bs' → False.
Proof.
  unfold apart. intros Hz Hin Hin'. apply Uint63.eqb_spec in Hz.
  assert (Hb : bit (mask bs land mask bs') j = true).
  { by rewrite land_spec, !mask_complete. }
  by rewrite Hz, bit_0 in Hb.
Qed.

Lemma apart_lookup bs bs' k :
  length bs ≤ 36 →
  apart (mask bs) (mask bs') = true →
  bs !! k = Some true → bs' !! k = Some true → False.
Proof.
  intros Hlen Hz Hk Hk'.
  assert (Hlt : k < length idxs).
  { apply lookup_lt_Some in Hk. change (length idxs) with 36. lia. }
  destruct (lookup_lt_is_Some_2 idxs k Hlt) as [j Hj].
  apply (apart_masks bs bs' j Hz).
  - apply (list_elem_of_lookup_2 _ k). by rewrite lookup_zip_with, Hj, Hk.
  - apply (list_elem_of_lookup_2 _ k). by rewrite lookup_zip_with, Hj, Hk'.
Qed.

End LayoutFacts.

Section LayoutFacts2.
Import Layout.

(** *** Labelings that fill a box *)

Lemma NoDup_cells9 : NoDup cells9.
Proof. apply (bool_decide_unpack _). by vm_compute. Qed.

Lemma wfl_lbl l d : wfl l → d < 9 → lbl l d < 3.
Proof.
  intros [Hlen Hall] Hd. rewrite Forall_forall in Hall. apply Hall.
  apply list_elem_of_In, nth_In. lia.
Qed.

Lemma lbl_wfl l : length l = 9 → (∀ d, d < 9 → lbl l d < 3) → wfl l.
Proof.
  intros Hlen Hall. split; [done|]. apply Forall_forall. intros v Hin.
  apply list_elem_of_In, (In_nth _ _ 0) in Hin as (d & Hd & <-).
  apply Hall. lia.
Qed.

Lemma latin3_wfl x a a' : latin3 x a a' → wfl a ∧ wfl a'.
Proof.
  intros (_ & La & La' & Hall).
  split; apply lbl_wfl; try done; intros d Hd; destruct (Hall d Hd); tauto.
Qed.

Lemma bal_wfl x : x ≡ₚ r0 → wfl x.
Proof.
  intros Hx. split; [by rewrite Hx|]. rewrite Hx. by repeat constructor.
Qed.

Lemma NoDup_zip_orth a b : wfl a → wfl b → NoDup (zip a b) → orth a b.
Proof.
  intros [La Ha] [Lb Hb] Hnd. split; [done|]. split; [done|].
  apply submseteq_length_Permutation.
  - apply NoDup_submseteq; [done|]. intros [n m] Hin.
    assert (Hn : n < 3).
    { rewrite Forall_forall in Ha. apply Ha. by eapply elem_of_zip_l. }
    assert (Hm : m < 3).
    { rewrite Forall_forall in Hb. apply Hb. by eapply elem_of_zip_r. }
    destruct n as [|[|[|n]]], m as [|[|[|m]]]; try lia;
      apply list_elem_of_In; simpl; tauto.
  - rewrite length_zip_with, La, Lb. done.
Qed.

(** *** Signatures *)

Lemma length_pair_tests l : length l = 9 → length (pair_tests l) = 36.
Proof. intros Hl. by do 10 (destruct l as [|? l]; try done). Qed.

(** When no pair of places passes both lists of comparisons, the pairs
    of labels are all different. *)
Lemma pair_tests_NoDup a : ∀ b,
  length a = length b →
  Forall (λ pq : bool * bool, ¬ (pq.1 = true ∧ pq.2 = true))
         (zip (pair_tests a) (pair_tests b)) →
  NoDup (zip a b).
Proof.
  induction a as [|v a IH]; intros [|w b] Hlen Hall; try done.
  - constructor.
  - cbn [pair_tests] in Hall.
    rewrite zip_with_app in Hall by (rewrite !length_map; by injection Hlen).
    apply Forall_app in Hall as [Hhead Htail].
    cbn [zip zip_with]. apply NoDup_cons. split.
    + intros Hin. rewrite zip_map_fst, zip_map_snd in Hhead.
      rewrite Forall_forall in Hhead.
      apply (Hhead (true, true)); [|done].
      apply list_elem_of_In, in_map_iff. exists (v, true).
      cbn [fst snd]. rewrite Nat.eqb_refl. split; [done|].
      apply in_map_iff. exists (v, w).
      cbn [fst snd]. rewrite Nat.eqb_refl. split; [done|].
      by apply list_elem_of_In.
    + apply IH; [by injection Hlen|done].
Qed.

Lemma apart_orth a b :
  wfl a → wfl b → apart (sig a) (sig b) = true → orth a b.
Proof.
  intros Ha Hb Hz. apply NoDup_zip_orth; [done..|].
  destruct Ha as [La _], Hb as [Lb _].
  apply pair_tests_NoDup; [by rewrite La, Lb|].
  apply Forall_lookup. intros k [p q] Hk [Hp' Hq']. cbn [fst snd] in *.
  subst p q.
  apply lookup_zip_with_Some in Hk as (p & q & [= <- <-] & Hp & Hq).
  apply (apart_lookup _ _ k) in Hz; [done| |done..].
  by rewrite length_pair_tests.
Qed.

(** *** Structures *)

Lemma up_facts v (c : bool) :
  v < 3 →
  v ≠ (if c then up2 v else up1 v) ∧ v ≠ (if c then up1 v else up2 v) ∧
  (if c then up2 v else up1 v) ≠ (if c then up1 v else up2 v) ∧
  (if c then up2 v else up1 v) < 3 ∧ (if c then up1 v else up2 v) < 3.
Proof. intros Hv. destruct c, v as [|[|[|v]]]; simpl; lia. Qed.

Lemma shift_latin3 x ch :
  wfl x → length ch = 9 → latin3 x (shift x ch).1 (shift x ch).2.
Proof.
  intros [Lx Hx] Lch.
  do 10 (destruct x as [|? x]; try done).
  do 10 (destruct ch as [|? ch]; try done).
  repeat (apply Forall_cons in Hx as [? Hx]).
  split_and!; [done..|]. intros d Hd.
  do 9 (destruct d as [|d]; [by apply up_facts|]). lia.
Qed.

Lemma picks_length x ch : ch ∈ picks x → length ch = 9.
Proof.
  unfold picks. intros Hin.
  apply list_elem_of_In, in_flat_map in Hin as (i & _ & Hin).
  apply in_flat_map in Hin as (j & _ & Hin).
  apply in_flat_map in Hin as (l & _ & Hin).
  destruct Hin as [<-|[<-|[]]]; by rewrite ?length_map.
Qed.

Lemma opts_sound x aa : wfl x → aa ∈ opts x → latin3 x aa.1 aa.2.
Proof.
  intros Hx Hin. unfold opts in Hin.
  apply list_elem_of_In, in_map_iff in Hin as (ch & <- & Hin).
  apply list_elem_of_In, picks_length in Hin.
  exact (shift_latin3 x ch Hx Hin).
Qed.

Lemma lines_sound x z fs s : wfl x → s ∈ lines x z fs → latin3 x s.1 s.2.
Proof.
  intros Hx Hin. unfold lines in Hin.
  apply list_elem_of_In, in_flat_map in Hin as (f & _ & Hin).
  cbv zeta in Hin.
  destruct Hin as [<-|[<-|[]]]; refine (shift_latin3 x _ Hx _);
    by rewrite ?length_map.
Qed.

(** *** The check *)

Lemma at_least_filter {A} (f : A → bool) (l : list A) : ∀ n,
  at_least f l n = true → n ≤ length (List.filter f l).
Proof.
  induction l as [|a l IH]; intros [|n] Hn; simpl in *; try done; try lia.
  destruct (f a); simpl.
  - apply IH in Hn. lia.
  - by apply IH in Hn.
Qed.

Lemma list_prod_map {A B C D} (f : A → C) (g : B → D) l k :
  list_prod (map f l) (map g k)
  = map (λ p : A * B, (f p.1, g p.2)) (list_prod l k).
Proof.
  induction l as [|a l IH]; [done|]. simpl.
  rewrite map_app, <- IH, !map_map. done.
Qed.

Lemma NoDup_pair_map {A B} (a : A) (k : list B) :
  NoDup k → NoDup (map (pair a) k).
Proof.
  induction 1 as [|b k Hnin Hnd IH]; simpl; constructor; [|done].
  intros Hin. apply list_elem_of_In, in_map_iff in Hin as (b' & [= ->] & Hin).
  by apply Hnin, list_elem_of_In.
Qed.

Lemma NoDup_list_prod {A B} (l : list A) (k : list B) :
  NoDup l → NoDup k → NoDup (list_prod l k).
Proof.
  intros Hl Hk. induction Hl as [|a l Hnin Hnd IH]; simpl; [constructor|].
  apply NoDup_app. split; [by apply NoDup_pair_map|]. split; [|done].
  intros [a' b] Hin Hin'.
  apply list_elem_of_In, in_map_iff in Hin as (b' & [= <- <-] & _).
  apply list_elem_of_In, in_prod_iff in Hin' as [Hin' _].
  by apply Hnin, list_elem_of_In.
Qed.

Lemma filter_map_length {A B} (f : B → bool) (h : A → B) l :
  length (List.filter f (map h l))
  = length (List.filter (λ a, f (h a)) l).
Proof.
  induction l as [|a l IH]; [done|]. simpl.
  destruct (f (h a)); simpl; by rewrite IH.
Qed.

Lemma meets_sound es ns :
  meets es ns = true → ∃ e nn, e ∈ es ∧ nn ∈ ns ∧ apart e nn = true.
Proof.
  unfold meets. intros Hm.
  apply existsb_exists in Hm as (e & He & Hm).
  apply existsb_exists in Hm as (nn & Hnn & Hm).
  exists e, nn. by rewrite <- !list_elem_of_In in *.
Qed.

Lemma sel_sound e x e' :
  e' ∈ sel e (pre x) →
  ∃ aa, aa ∈ opts x ∧ apart e (sig aa.1) = true ∧ e' = sig aa.2.
Proof.
  unfold sel, pre. intros Hin.
  apply list_elem_of_In, in_map_iff in Hin as ([e1 e2] & <- & Hin).
  apply filter_In in Hin as [Hin Hap].
  apply in_map_iff in Hin as (aa & [= <- <-] & Hin).
  exists aa. by rewrite <- list_elem_of_In in Hin.
Qed.

Lemma check_sound n rows cols xs ys x y :
  NoDup rows → NoDup cols →
  (∀ s, s ∈ rows → wfl s.1) → (∀ t, t ∈ cols → wfl t.2) →
  wfl x → wfl y →
  check n rows cols xs ys = true →
  x ∈ xs → y ∈ ys → many n rows cols x y.
Proof.
  intros Hndr Hndc Hrows Hcols Hwx Hwy Hchk Hx Hy.
  unfold check in Hchk. cbv zeta in Hchk.
  rewrite forallb_forall in Hchk.
  specialize (Hchk _ (in_map _ _ _ (proj1 (list_elem_of_In _ _) Hx))).
  rewrite forallb_forall in Hchk.
  specialize (Hchk _ (in_map _ _ _ (proj1 (list_elem_of_In _ _) Hy))).
  cbv beta in Hchk. rewrite list_prod_map in Hchk.
  apply at_least_filter in Hchk. rewrite filter_map_length in Hchk.
  cbn [fst snd] in Hchk.
  eexists. split; [|split; [exact Hchk|]].
  - apply NoDup_ListNoDup, List.NoDup_filter, NoDup_ListNoDup.
    by apply NoDup_list_prod.
  - intros [s t] Hin. apply list_elem_of_In, filter_In in Hin as [Hin Hm].
    apply in_prod_iff in Hin as [Hs Ht].
    apply list_elem_of_In in Hs, Ht. cbn [fst snd] in *.
    split; [done|]. split; [done|].
    apply meets_sound in Hm as (e & nn & He & Hnn & Hap).
    apply sel_sound in He as ([a a'] & Ha & Hua & ->).
    apply sel_sound in Hnn as ([b b'] & Hb & Hvb & ->).
    cbn [fst snd] in *.
    pose proof (opts_sound x _ Hwx Ha) as La.
    pose proof (opts_sound y _ Hwy Hb) as Lb. cbn [fst snd] in *.
    destruct (latin3_wfl _ _ _ La) as [Wa Wa'].
    destruct (latin3_wfl _ _ _ Lb) as [Wb Wb'].
    exists a, a', b, b'. split_and!; [done..| | |].
    + apply apart_orth; [by apply Hrows|done..].
    + by apply apart_orth.
    + apply orth_sym, apart_orth; [by apply Hcols|done..].
Qed.

End LayoutFacts2.

Section LayoutFacts3.
Import Layout.

(** *** Permuting the labels *)

Lemma perm3_inv p q v :
  (p, q) ∈ perm3 → v < 3 →
  lbl q (lbl p v) = v ∧ lbl p (lbl q v) = v ∧ lbl p v < 3 ∧ lbl q v < 3.
Proof.
  intros Hp Hv. unfold perm3 in Hp. rewrite !elem_of_cons, elem_of_nil in Hp.
  destruct Hp as [[= -> ->]|[[= -> ->]|[[= -> ->]|[[= -> ->]|[[= -> ->]|[[= -> ->]|[]]]]]]];
    destruct v as [|[|[|v]]]; try lia; unfold lbl; simpl; lia.
Qed.

Lemma perm3_swap p q : (p, q) ∈ perm3 → (q, p) ∈ perm3.
Proof.
  intros Hp. unfold perm3 in *. rewrite !elem_of_cons, elem_of_nil in Hp.
  destruct Hp as [[= -> ->]|[[= -> ->]|[[= -> ->]|[[= -> ->]|[[= -> ->]|[[= -> ->]|[]]]]]]];
    apply list_elem_of_In; simpl; tauto.
Qed.

Lemma perm3_bal p q z : (p, q) ∈ perm3 → z ≡ₚ r0 → compose p z ≡ₚ r0.
Proof.
  intros Hp Hz. unfold compose. rewrite (Permutation_map _ Hz).
  unfold perm3 in Hp. rewrite !elem_of_cons, elem_of_nil in Hp.
  destruct Hp as [[= -> ->]|[[= -> ->]|[[= -> ->]|[[= -> ->]|[[= -> ->]|[[= -> ->]|[]]]]]]];
    apply (bool_decide_unpack _); by vm_compute.
Qed.

Lemma bal_lt x d : x ≡ₚ r0 → d < 9 → lbl x d < 3.
Proof.
  intros Hx Hd. assert (Hlen : length x = 9) by (by rewrite Hx).
  assert (Hin : lbl x d ∈ x).
  { apply list_elem_of_In, nth_In. lia. }
  revert Hin. generalize (lbl x d). intros n Hin.
  rewrite Hx in Hin. unfold r0 in Hin.
  rewrite !elem_of_cons, elem_of_nil in Hin. lia.
Qed.

Lemma latin3_canon p q x a a' :
  (p, q) ∈ perm3 → x ≡ₚ r0 →
  latin3 (compose p x) a a' → latin3 x (compose q a) (compose q a').
Proof.
  intros Hp Hx (_ & La & La' & Hall).
  assert (Lx : length x = 9) by (by rewrite Hx).
  split_and!; [done|by rewrite length_compose..|].
  intros d Hd. destruct (Hall d Hd) as (H1 & H2 & H3 & H4 & H5).
  rewrite lbl_compose in H1, H2 by lia.
  rewrite !lbl_compose by lia.
  pose proof (bal_lt x d Hx Hd) as Hxd.
  destruct (perm3_inv p q _ Hp Hxd) as (Ix & _ & _ & _).
  destruct (perm3_inv p q _ Hp H4) as (_ & Ia & _ & Ba).
  destruct (perm3_inv p q _ Hp H5) as (_ & Ia' & _ & Ba').
  split_and!; try done; intros Heq.
  - apply H1. by rewrite Heq, Ia.
  - apply H2. by rewrite Heq, Ia'.
  - apply H3. by rewrite <- Ia, <- Ia', Heq.
Qed.

Lemma chain_canon p q p' q' x y u v :
  (p, q) ∈ perm3 → (p', q') ∈ perm3 → x ≡ₚ r0 → y ≡ₚ r0 →
  chain (compose p x) (compose p' y) u v → chain x y u v.
Proof.
  intros Hp Hp' Hx Hy (a & a' & b & b' & Lx & Ly & O1 & O2 & O3).
  exists (compose q a), (compose q a'), (compose q' b), (compose q' b').
  split_and!.
  - by apply (latin3_canon p).
  - by apply (latin3_canon p').
  - apply (orth_post_r q p); [by apply perm3_swap|done].
  - apply (orth_post_l q p); [by apply perm3_swap|].
    apply (orth_post_r q' p'); [by apply perm3_swap|done].
  - apply (orth_post_l q' p'); [by apply perm3_swap|done].
Qed.

Lemma many_canon n rows cols p q p' q' x y :
  (p, q) ∈ perm3 → (p', q') ∈ perm3 → x ≡ₚ r0 → y ≡ₚ r0 →
  many n rows cols (compose p x) (compose p' y) → many n rows cols x y.
Proof.
  intros Hp Hp' Hx Hy (W & Hnd & Hlen & HW). exists W.
  split; [done|]. split; [done|]. intros rc Hin.
  destruct (HW rc Hin) as (Hr & Hc & Hch). split; [done|]. split; [done|].
  by apply (chain_canon p q p' q').
Qed.

(** *** Renumbering the digits *)

Lemma digits_lt h d : h ≡ₚ digits → d < 9 → lbl h d < 9.
Proof.
  intros Hh Hd. assert (Hlen : length h = 9) by (by rewrite Hh).
  assert (Hin : lbl h d ∈ h) by (apply list_elem_of_In, nth_In; lia).
  revert Hin. generalize (lbl h d). intros n Hin.
  rewrite Hh in Hin. apply elem_of_seq in Hin. lia.
Qed.

Lemma latin3_pre g h x a a' :
  compose g h = digits → h ≡ₚ digits → g ≡ₚ digits → length x = 9 →
  latin3 (compose x g) a a' → latin3 x (compose a h) (compose a' h).
Proof.
  intros Hgh Hh Hg Lx (_ & La & La' & Hall).
  assert (Lh : length h = 9) by (by rewrite Hh).
  assert (Lg : length g = 9) by (by rewrite Hg).
  split_and!; [done|by rewrite length_compose..|].
  intros d Hd. pose proof (digits_lt h d Hh Hd) as He.
  destruct (Hall _ He) as (H1 & H2 & H3 & H4 & H5).
  rewrite lbl_compose in H1, H2 by lia.
  assert (Hback : lbl g (lbl h d) = d).
  { rewrite <- lbl_compose, Hgh by lia. unfold lbl, digits.
    rewrite seq_nth by lia. done. }
  rewrite Hback in H1, H2. rewrite !lbl_compose by lia. done.
Qed.

Lemma chain_pre g h x y u v :
  compose g h = digits → h ≡ₚ digits → g ≡ₚ digits →
  length x = 9 → length y = 9 →
  chain (compose x g) (compose y g) u v →
  chain x y (compose u h) (compose v h).
Proof.
  intros Hgh Hh Hg Lx Ly (a & a' & b & b' & Hlx & Hly & O1 & O2 & O3).
  exists (compose a h), (compose a' h), (compose b h), (compose b' h).
  split_and!; [by apply (latin3_pre g)..| | |]; by apply orth_compose.
Qed.

Lemma chain_post p q p' q' x y u v :
  (p, q) ∈ perm3 → (p', q') ∈ perm3 →
  chain x y u v → chain x y (compose p u) (compose p' v).
Proof.
  intros Hp Hp' (a & a' & b & b' & Hlx & Hly & O1 & O2 & O3).
  exists a, a', b, b'. split_and!; [done..| |done|].
  - by apply (orth_post_l p q).
  - by apply (orth_post_r p' q').
Qed.

Lemma NoDup_map_inj {A B} (f : A → B) (l : list A) x y :
  NoDup (map f l) → x ∈ l → y ∈ l → f x = f y → x = y.
Proof.
  induction l as [|z l IH]; simpl; intros Hnd Hx Hy Heq.
  - by apply elem_of_nil in Hx.
  - apply NoDup_cons in Hnd as [Hnin Hnd].
    apply elem_of_cons in Hx as [->|Hx], Hy as [->|Hy]; auto.
    + exfalso. apply Hnin. rewrite Heq.
      apply list_elem_of_In, in_map. by apply list_elem_of_In.
    + exfalso. apply Hnin. rewrite <- Heq.
      apply list_elem_of_In, in_map. by apply list_elem_of_In.
Qed.

Lemma closedb_sound h p l :
  closedb h p l = true →
  (∀ e, e ∈ l → move h p e ∈ l) ∧ NoDup (map (move h p) l).
Proof.
  unfold closedb. rewrite andb_true_iff, forallb_forall.
  intros [Hall Hnd]. split.
  - intros e He. apply list_elem_of_In in He.
    specialize (Hall e He). by apply bool_decide_eq_true_1 in Hall.
  - by apply bool_decide_eq_true_1 in Hnd.
Qed.

Lemma many_transfer n rows cols g h pR qR pC qC x y :
  compose g h = digits → h ≡ₚ digits → g ≡ₚ digits →
  (pR, qR) ∈ perm3 → (pC, qC) ∈ perm3 →
  closedb h pR rows = true → closedb h pC cols = true →
  length x = 9 → length y = 9 →
  many n rows cols (compose x g) (compose y g) → many n rows cols x y.
Proof.
  intros Hgh Hh Hg HpR HpC HcR HcC Lx Ly (W & Hnd & Hlen & HW).
  apply closedb_sound in HcR as [HR1 HR2], HcC as [HC1 HC2].
  exists ((λ rc, (move h pR rc.1, move h pC rc.2)) <$> W). split_and!.
  - apply NoDup_fmap_2_strong; [|done].
    intros [r c] [r' c'] Hin Hin' Heq.
    pose proof (f_equal fst Heq) as Hr. pose proof (f_equal snd Heq) as Hc.
    destruct (HW _ Hin) as (? & ? & _), (HW _ Hin') as (? & ? & _).
    cbn [fst snd] in *. f_equal.
    + by apply (NoDup_map_inj (move h pR) rows).
    + by apply (NoDup_map_inj (move h pC) cols).
  - by rewrite length_fmap.
  - intros rc Hin. apply list_elem_of_fmap in Hin as ([r c] & -> & Hin).
    destruct (HW _ Hin) as (Hr & Hc & Hch). cbn [fst snd] in *.
    split; [by apply HR1|]. split; [by apply HC1|].
    unfold move. cbn [fst snd].
    apply (chain_post pR qR pC qC); [done..|].
    by apply (chain_pre g h).
Qed.

(** *** Two large sets of pairs meet *)

Lemma wfl_r0 : wfl r0.
Proof. split; [done|]. by repeat constructor. Qed.

Lemma wfl_c0 : wfl c0.
Proof. split; [done|]. by repeat constructor. Qed.

Lemma length_rows6 : length rows6 = 6.
Proof. reflexivity. Qed.

Lemma length_cols18 : length cols18 = 18.
Proof. reflexivity. Qed.

Lemma rows6_sound s : s ∈ rows6 → latin3 r0 s.1 s.2.
Proof. apply lines_sound, wfl_r0. Qed.

Lemma cols18_sound t : t ∈ cols18 → latin3 c0 t.1 t.2.
Proof. apply lines_sound, wfl_c0. Qed.

Lemma NoDup_rows6 : NoDup rows6.
Proof. apply (bool_decide_unpack _). by vm_compute. Qed.

Lemma NoDup_cols18 : NoDup cols18.
Proof. apply (bool_decide_unpack _). by vm_compute. Qed.

#[local] Opaque rows6 cols18.

Lemma many_meet x y x' y' :
  many 55 rows6 cols18 x y → many 55 cols18 rows6 x' y' →
  ∃ s t, s ∈ rows6 ∧ t ∈ cols18 ∧
    chain x y s.1 t.2 ∧ chain x' y' t.1 s.2.
Proof.
  intros (W1 & Hnd1 & Hlen1 & HW1) (W2 & Hnd2 & Hlen2 & HW2).
  set (W2' := (λ ts : (list nat * list nat) * (list nat * list nat),
                 (ts.2, ts.1)) <$> W2).
  assert (Hnd2' : NoDup W2').
  { apply NoDup_fmap_2_strong; [|done].
    intros [a b] [a' b'] _ _ [= -> ->]. done. }
  destruct (decide (Exists (λ p, p ∈ W2') W1)) as [Hex|Hnex].
  - apply Exists_exists in Hex as ([s t] & Hin1 & Hin2).
    apply list_elem_of_fmap in Hin2 as ([t' s'] & [= -> ->] & Hin2).
    destruct (HW1 _ Hin1) as (Hs & Ht & Hch1).
    destruct (HW2 _ Hin2) as (_ & _ & Hch2).
    exists s', t'. exact (conj Hs (conj Ht (conj Hch1 Hch2))).
  - exfalso. apply not_Exists_Forall in Hnex; [|intros ?; apply _].
    rewrite Forall_forall in Hnex.
    assert (Hsub : W1 ++ W2' ⊆+ list_prod rows6 cols18).
    { apply NoDup_submseteq.
      - apply NoDup_app. split; [done|]. split; [|done].
        intros p Hp Hp'. by apply (Hnex p Hp).
      - intros [s t] Hin. apply list_elem_of_In, in_prod.
        + apply list_elem_of_In.
          apply elem_of_app in Hin as [Hin|Hin].
          * by destruct (HW1 _ Hin) as (? & _).
          * apply list_elem_of_fmap in Hin as ([t' s'] & [= -> ->] & Hin).
            by destruct (HW2 _ Hin) as (_ & ? & _).
        + apply list_elem_of_In.
          apply elem_of_app in Hin as [Hin|Hin].
          * by destruct (HW1 _ Hin) as (_ & ? & _).
          * apply list_elem_of_fmap in Hin as ([t' s'] & [= -> ->] & Hin).
            by destruct (HW2 _ Hin) as (? & _). }
    apply submseteq_length in Hsub.
    rewrite length_app, length_prod in Hsub. unfold W2' in Hsub.
    rewrite length_fmap in Hsub.
    rewrite length_rows6, length_cols18 in Hsub. lia.
Qed.

(** *** All balanced labelings *)

Lemma all_labs_complete l :
  Forall (λ v, v < 3) l → l ∈ all_labs (length l).
Proof.
  induction 1 as [|v l Hv Hl IH]; simpl; [by apply list_elem_of_In; left|].
  apply list_elem_of_In, in_flat_map. exists l.
  split; [by apply list_elem_of_In|].
  destruct v as [|[|[|v]]]; simpl; try tauto. lia.
Qed.

Lemma bal_list_complete x : x ≡ₚ r0 → x ∈ bal_list.
Proof.
  intros Hx. apply list_elem_of_In, filter_In. split.
  - apply list_elem_of_In.
    replace 9 with (length x) by (by rewrite Hx).
    apply all_labs_complete. rewrite Hx. by repeat constructor.
  - by apply bool_decide_eq_true_2.
Qed.

Lemma compose_bal x g : x ≡ₚ r0 → g ≡ₚ digits → compose x g ≡ₚ r0.
Proof.
  intros Hx Hg. unfold compose. rewrite (Permutation_map _ Hg).
  fold (compose x digits). rewrite compose_digits; [done|by rewrite Hx].
Qed.

Lemma covered17_all : forallb covered17 bal_list = true.
Proof. vm_cast_no_check (eq_refl true). Qed.

Lemma covered280_all : forallb covered280 bal_list = true.
Proof. vm_cast_no_check (eq_refl true). Qed.

Lemma box_syms_ok : forallb sym_ok box_syms = true.
Proof. vm_cast_no_check (eq_refl true). Qed.

Lemma check_rows : check 55 rows6 cols18 reps17 canon280 = true.
Proof. vm_cast_no_check (eq_refl true). Qed.

Lemma check_cols : check 55 cols18 rows6 reps17 canon280 = true.
Proof. vm_cast_no_check (eq_refl true). Qed.

Lemma to_canon280 z :
  z ≡ₚ r0 → ∃ p q, (p, q) ∈ perm3 ∧ compose p z ∈ canon280.
Proof.
  intros Hz. pose proof covered280_all as Hall.
  rewrite forallb_forall in Hall.
  specialize (Hall z (proj1 (list_elem_of_In _ _) (bal_list_complete z Hz))).
  apply existsb_exists in Hall as ([p q] & Hin & Hc).
  apply list_elem_of_In in Hin. exists p, q. split; [done|].
  apply list_elem_of_In, filter_In. split; [|done].
  apply list_elem_of_In, bal_list_complete. by apply (perm3_bal p q).
Qed.

Lemma to_reps17 x :
  x ≡ₚ r0 →
  ∃ s p q, s ∈ box_syms ∧ (p, q) ∈ perm3 ∧
    compose p (compose x (sym_g s)) ∈ reps17.
Proof.
  intros Hx. pose proof covered17_all as Hall.
  rewrite forallb_forall in Hall.
  specialize (Hall x (proj1 (list_elem_of_In _ _) (bal_list_complete x Hx))).
  apply existsb_exists in Hall as (s & Hs & Hex).
  apply existsb_exists in Hex as ([p q] & Hp & Hc).
  exists s, p, q. split; [by apply list_elem_of_In|].
  split; [by apply list_elem_of_In|]. by apply bool_decide_eq_true_1 in Hc.
Qed.

Lemma sym_ok_sound s :
  s ∈ box_syms →
  compose (sym_g s) (sym_h s) = digits ∧ sym_h s ≡ₚ digits ∧
  sym_g s ≡ₚ digits ∧
  (∃ q, (sym_pr s, q) ∈ perm3) ∧ (∃ q, (sym_pc s, q) ∈ perm3) ∧
  closedb (sym_h s) (sym_pr s) rows6 = true ∧
  closedb (sym_h s) (sym_pc s) cols18 = true.
Proof.
  intros Hs. pose proof box_syms_ok as Hall.
  rewrite forallb_forall in Hall.
  specialize (Hall s (proj1 (list_elem_of_In _ _) Hs)).
  unfold sym_ok in Hall. rewrite !andb_true_iff in Hall.
  destruct Hall as [[[[[[H1 H2] H3] H4] H5] H6] H7].
  apply bool_decide_eq_true_1 in H1, H2, H3, H4, H5.
  refine (conj H1 (conj H2 (conj H3 (conj _ (conj _ (conj H6 H7)))))).
  - apply list_elem_of_fmap in H4 as ([p q] & -> & Hin). by exists q.
  - apply list_elem_of_fmap in H5 as ([p q] & -> & Hin). by exists q.
Qed.

(** For every pair of balanced labelings, more than half of the pairs of
    a structure of [rows6] and a structure of [cols18] admit a chain, in
    both directions. *)
Lemma many_all x y :
  x ≡ₚ r0 → y ≡ₚ r0 →
  many 55 rows6 cols18 x y ∧ many 55 cols18 rows6 x y.
Proof.
  intros Hx Hy.
  destruct (to_reps17 x Hx) as (s & p & q & Hs & Hp & Hrep).
  destruct (sym_ok_sound s Hs)
    as (Hgh & Hh & Hg & [qr Hpr] & [qc Hpc] & Hcr & Hcc).
  pose proof (compose_bal x _ Hx Hg) as Hxg.
  pose proof (compose_bal y _ Hy Hg) as Hyg.
  destruct (to_canon280 _ Hyg) as (p' & q' & Hp' & Hcan).
  assert (Lx : length x = 9) by (by rewrite Hx).
  assert (Ly : length y = 9) by (by rewrite Hy).
  pose proof (bal_wfl _ (perm3_bal p q _ Hp Hxg)) as Wx.
  pose proof (bal_wfl _ (perm3_bal p' q' _ Hp' Hyg)) as Wy.
  assert (R1 : ∀ s, s ∈ rows6 → wfl s.1).
  { intros e He. by destruct (latin3_wfl _ _ _ (rows6_sound e He)). }
  assert (R2 : ∀ s, s ∈ rows6 → wfl s.2).
  { intros e He. by destruct (latin3_wfl _ _ _ (rows6_sound e He)). }
  assert (C1 : ∀ t, t ∈ cols18 → wfl t.1).
  { intros e He. by destruct (latin3_wfl _ _ _ (cols18_sound e He)). }
  assert (C2 : ∀ t, t ∈ cols18 → wfl t.2).
  { intros e He. by destruct (latin3_wfl _ _ _ (cols18_sound e He)). }
  split.
  - apply (many_transfer _ _ _ (sym_g s) (sym_h s) (sym_pr s) qr (sym_pc s) qc
             x y Hgh Hh Hg Hpr Hpc Hcr Hcc Lx Ly).
    apply (many_canon _ _ _ p q p' q' _ _ Hp Hp' Hxg Hyg).
    exact (check_sound 55 rows6 cols18 reps17 canon280 _ _
             NoDup_rows6 NoDup_cols18 R1 C2 Wx Wy check_rows Hrep Hcan).
  - apply (many_transfer _ _ _ (sym_g s) (sym_h s) (sym_pc s) qc (sym_pr s) qr
             x y Hgh Hh Hg Hpc Hpr Hcc Hcr Lx Ly).
    apply (many_canon _ _ _ p q p' q' _ _ Hp Hp' Hxg Hyg).
    exact (check_sound 55 cols18 rows6 reps17 canon280 _ _
             NoDup_cols18 NoDup_rows6 C1 R2 Wx Wy check_cols Hrep Hcan).
Qed.

End LayoutFacts3.

Section LayoutExists.
Import Layout Completion.

Lemma orth_bal u a : orth u a → u ≡ₚ r0 ∧ a ≡ₚ r0.
Proof.
  intros (Hu & Ha & Hp).
  assert (Hfst : (zip u a).*1 = u) by (apply fst_zip; lia).
  assert (Hsnd : (zip u a).*2 = a) by (apply snd_zip; lia).
  split.
  - rewrite <- Hfst, Hp. done.
  - rewrite <- Hsnd, Hp. apply (bool_decide_unpack _). by vm_compute.
Qed.

Lemma orth_r0_c0 : orth r0 c0.
Proof. by split_and!. Qed.

Lemma latin3_at x a a' d :
  latin3 x a a' → d < 9 →
  lbl x d ≠ lbl a d ∧ lbl x d ≠ lbl a' d ∧ lbl a d ≠ lbl a' d.
Proof. intros (_ & _ & _ & Hall) Hd. destruct (Hall d Hd). tauto. Qed.

(** Any two boxes on the diagonal, next to the first box in standard
    order, leave room for the six other boxes. *)
Theorem layout_exists r1 c1 r2 c2 :
  orth r1 c1 → orth r2 c2 →
  ∃ rho gam, fits rho gam ∧
    rho 0 0 = r0 ∧ gam 0 0 = c0 ∧ rho 1 1 = r1 ∧ gam 1 1 = c1 ∧
    rho 2 2 = r2 ∧ gam 2 2 = c2.
Proof.
  intros O1 O2.
  destruct (orth_bal _ _ O1) as [Br1 Bc1], (orth_bal _ _ O2) as [Br2 Bc2].
  destruct (many_all c1 r2 Bc1 Br2) as [M1 _].
  destruct (many_all r1 c2 Br1 Bc2) as [_ M2].
  destruct (many_meet _ _ _ _ M1 M2)
    as ([u01 u02] & [a10 a20] & Hs & Ht & Ch1 & Ch2).
  apply rows6_sound in Hs. apply cols18_sound in Ht. cbn [fst snd] in *.
  destruct Ch1 as (a01 & a21 & u20 & u21 & Lc1 & Lr2 & O01 & O21 & O20).
  destruct Ch2 as (u10 & u12 & a02 & a12 & Lr1 & Lc2 & O10 & O12 & O02).
  exists (table r0 u01 u02 u10 r1 u12 u20 u21 r2),
         (table c0 a01 a02 a10 c1 a12 a20 a21 c2).
  split; [|done]. split_and!.
  - intros i j Hi Hj.
    destruct i as [|[|[|i]]]; [| | |lia];
      (destruct j as [|[|[|j]]]; [| | |lia]); simpl;
      auto using orth_r0_c0, orth_sym.
  - intros i j j' d Hi Hj Hj' Hne Hd.
    pose proof (latin3_at _ _ _ d Hs Hd).
    pose proof (latin3_at _ _ _ d Lr1 Hd).
    pose proof (latin3_at _ _ _ d Lr2 Hd).
    destruct i as [|[|[|i]]]; [| | |lia];
      (destruct j as [|[|[|j]]]; [| | |lia]);
      (destruct j' as [|[|[|j']]]; [| | |lia]); simpl; try done;
      intros Heq; intuition congruence.
  - intros i i' j d Hi Hi' Hj Hne Hd.
    pose proof (latin3_at _ _ _ d Ht Hd).
    pose proof (latin3_at _ _ _ d Lc1 Hd).
    pose proof (latin3_at _ _ _ d Lc2 Hd).
    destruct i as [|[|[|i]]]; [| | |lia];
      (destruct i' as [|[|[|i']]]; [| | |lia]);
      (destruct j as [|[|[|j]]]; [| | |lia]); simpl; try done;
      intros Heq; intuition congruence.
Qed.

End LayoutExists.

Section CompletionFacts.
Import Board Layout Completion Spec.

(** *** Places of the digits *)

Lemma index_of_lt v n : v ∈ n → index_of v n < length n.
Proof.
  induction n as [|w n IH]; intros Hin; [by apply elem_of_nil in Hin|].
  simpl. destruct (Z.eqb_spec w v); [lia|].
  apply elem_of_cons in Hin as [->|Hin]; [done|]. specialize (IH Hin). lia.
Qed.

Lemma nth_index_of v n : v ∈ n → nth (index_of v n) n 0%Z = v.
Proof.
  induction n as [|w n IH]; intros Hin; [by apply elem_of_nil in Hin|].
  simpl. destruct (Z.eqb_spec w v); [done|].
  apply elem_of_cons in Hin as [->|Hin]; [done|]. by apply IH.
Qed.

Lemma index_of_nth n d :
  NoDup n → d < length n → index_of (nth d n 0%Z) n = d.
Proof.
  intros Hnd. revert d. induction Hnd as [|w n Hnin Hnd IH]; intros d Hd;
    simpl in *; [lia|].
  destruct d as [|d].
  - by rewrite Z.eqb_refl.
  - destruct (Z.eqb_spec w (nth d n 0%Z)) as [Heq|Hne].
    + exfalso. apply Hnin. rewrite Heq. apply list_elem_of_In, nth_In. lia.
    + f_equal. apply IH. lia.
Qed.

Lemma NoDup_numbers : NoDup Solver.numbers.
Proof. apply (bool_decide_unpack _). by vm_compute. Qed.

Lemma places_self n0 : n0 ≡ₚ Solver.numbers → places n0 n0 = digits.
Proof.
  intros Hp. assert (Hlen : length n0 = 9) by (by rewrite Hp).
  assert (Hnd : NoDup n0) by (rewrite Hp; apply NoDup_numbers).
  apply (nth_ext _ _ 0 0).
  - unfold places. by rewrite length_map, Hlen.
  - intros d Hd. unfold places in *. rewrite length_map in Hd.
    rewrite (nth_indep _ 0 (index_of 0%Z n0)) by (by rewrite length_map).
    rewrite (map_nth (λ v, index_of v n0)).
    rewrite index_of_nth by done. unfold digits. by rewrite seq_nth by lia.
Qed.

Lemma places_perm n0 n :
  n0 ≡ₚ Solver.numbers → n ≡ₚ Solver.numbers → places n0 n ≡ₚ digits.
Proof.
  intros Hp0 Hp.
  assert (Hlen0 : length n0 = 9) by (by rewrite Hp0).
  assert (Hlen : length n = 9) by (by rewrite Hp).
  assert (Hnd0 : NoDup n0) by (rewrite Hp0; apply NoDup_numbers).
  assert (Hsub : ∀ v, v ∈ n0 → v ∈ n) by (intros v; by rewrite Hp0, Hp).
  apply submseteq_length_Permutation.
  - apply NoDup_submseteq.
    + change (NoDup ((λ v, index_of v n) <$> n0)).
      apply NoDup_fmap_2_strong; [|done].
      intros v w Hv Hw Heq.
      rewrite <- (nth_index_of v n), <- (nth_index_of w n) by auto.
      by rewrite Heq.
    + intros p Hin. apply list_elem_of_In, in_map_iff in Hin as (v & <- & Hv).
      apply elem_of_seq. apply list_elem_of_In in Hv.
      pose proof (index_of_lt v n (Hsub v Hv)). lia.
  - unfold places. rewrite length_map, Hlen0. done.
Qed.

Lemma orth_places n0 n :
  n0 ≡ₚ Solver.numbers → n ≡ₚ Solver.numbers →
  orth (rows_of n0 n) (cols_of n0 n).
Proof.
  intros Hp0 Hp. pose proof (places_perm n0 n Hp0 Hp) as Hpl.
  assert (Hlen : length (places n0 n) = 9) by (by rewrite Hpl).
  unfold orth, rows_of, cols_of. rewrite !length_map.
  split; [done|]. split; [done|].
  rewrite zip_map_both, (Permutation_map _ Hpl). done.
Qed.

Lemma lbl_places n0 n d :
  d < length n0 →
  3 * lbl (rows_of n0 n) d + lbl (cols_of n0 n) d
  = index_of (nth d n0 0%Z) n.
Proof.
  intros Hd. unfold lbl, rows_of, cols_of, places.
  rewrite (nth_indep (map (λ p, p / 3) _) 0 (0 / 3))
    by (by rewrite !length_map).
  rewrite (nth_indep (map (λ p, p mod 3) _) 0 (0 mod 3))
    by (by rewrite !length_map).
  rewrite (map_nth (λ p, p / 3)), (map_nth (λ p, p mod 3)).
  rewrite (nth_indep _ 0 (index_of 0%Z n)) by (by rewrite length_map).
  rewrite (map_nth (λ v, index_of v n)).
  symmetry. apply (Nat.div_mod_eq _ 3).
Qed.

(** *** The digit on a cell *)

Lemma digit_at_spec u a r c :
  orth u a → r < 3 → c < 3 →
  digit_at u a r c < 9 ∧
  lbl u (digit_at u a r c) = r ∧ lbl a (digit_at u a r c) = c.
Proof.
  intros (Hu & Ha & Hp) Hr Hc. unfold digit_at.
  destruct (List.find _ digits) as [d|] eqn:Hf; simpl.
  - apply find_some in Hf as [Hin Hd].
    apply list_elem_of_In, elem_of_seq in Hin.
    apply andb_true_iff in Hd as [Hd1 Hd2].
    apply Nat.eqb_eq in Hd1, Hd2. lia.
  - exfalso.
    assert (Hin : (r, c) ∈ zip u a).
    { rewrite Hp. destruct r as [|[|[|r]]], c as [|[|[|c]]]; try lia;
        apply list_elem_of_In; simpl; tauto. }
    rewrite <- zip_lbl in Hin by done.
    apply list_elem_of_In, in_map_iff in Hin as (d & [= Hd1 Hd2] & Hd).
    pose proof (find_none _ _ Hf d Hd) as Hnone. simpl in Hnone.
    apply andb_false_iff in Hnone as [Hn|Hn]; apply Nat.eqb_neq in Hn; done.
Qed.

Lemma digit_unique u a d d' :
  orth u a → d < 9 → d' < 9 →
  lbl u d = lbl u d' → lbl a d = lbl a d' → d = d'.
Proof.
  intros (Hu & Ha & Hp) Hd Hd' Heq1 Heq2.
  assert (Hnd : NoDup (map (λ d, (lbl u d, lbl a d)) digits)).
  { rewrite zip_lbl by done. rewrite Hp. apply NoDup_cells9. }
  apply (NoDup_map_inj _ _ d d' Hnd); [apply elem_of_seq; lia..|].
  by rewrite Heq1, Heq2.
Qed.

(** *** The board of a layout is a solution *)

Lemma peek_board_of n0 rho gam R C :
  R < 9 → C < 9 →
  peek (board_of n0 rho gam) R C
  = nth (digit_at (rho (R / 3) (C / 3)) (gam (R / 3) (C / 3))
                  (R mod 3) (C mod 3)) n0 0%Z.
Proof.
  intros HR HC. unfold peek, board_of. cbn [grid].
  rewrite list_lookup_fmap, lookup_seq_lt by done. cbn [fmap option_fmap option_map].
  rewrite list_lookup_fmap, lookup_seq_lt by done. done.
Qed.

Lemma wf_board_of n0 rho gam : wf (board_of n0 rho gam).
Proof.
  unfold wf, board_of. simpl. split_and!; try done.
  - repeat constructor.
  - repeat constructor.
Qed.

Lemma board_of_solution n0 rho gam :
  n0 ≡ₚ Solver.numbers → fits rho gam → solution (board_of n0 rho gam).
Proof.
  intros Hp0 (Horth & Hrow & Hcol).
  assert (Hlen0 : length n0 = 9) by (by rewrite Hp0).
  assert (Hnd0 : NoDup n0) by (rewrite Hp0; apply NoDup_numbers).
  assert (Hbox : ∀ R, R < 9 → R / 3 < 3 ∧ R mod 3 < 3).
  { intros R HR. pose proof (Nat.div_mod_eq R 3).
    pose proof (Nat.mod_upper_bound R 3). lia. }
  split; [apply wf_board_of|].
  intros R C HR HC. change SIZE with 9 in *.
  destruct (Hbox R HR) as [Hi Ha], (Hbox C HC) as [Hj Hb].
  destruct (digit_at_spec _ _ _ _ (Horth _ _ Hi Hj) Ha Hb) as (Hd & Hdr & Hdc).
  rewrite peek_board_of by done. split.
  - rewrite <- Hp0. apply list_elem_of_In, nth_In. lia.
  - apply is_valid_move_spec; [done..|].
    intros R' C' HR' HC' [Hne Hpeer]. change SIZE with 9 in *.
    destruct (Hbox R' HR') as [Hi' Ha'], (Hbox C' HC') as [Hj' Hb'].
    destruct (digit_at_spec _ _ _ _ (Horth _ _ Hi' Hj') Ha' Hb')
      as (Hd' & Hdr' & Hdc').
    rewrite peek_board_of by done. intros Heq.
    apply NoDup_ListNoDup in Hnd0.
    apply (proj1 (NoDup_nth n0 0%Z) Hnd0) in Heq; [|lia..].
    rewrite Heq in Hdr', Hdc'.
    pose proof (Nat.div_mod_eq R 3). pose proof (Nat.div_mod_eq R' 3).
    pose proof (Nat.div_mod_eq C 3). pose proof (Nat.div_mod_eq C' 3).
    destruct (decide (R' / 3 = R / 3)) as [Hei|Hni];
      destruct (decide (C' / 3 = C / 3)) as [Hej|Hnj].
    + rewrite Hei, Hej in Hdr', Hdc'. apply Hne. f_equal; lia.
    + destruct Hpeer as [->|[->|[_ ?]]]; [|done..].
      apply (Hrow (R / 3) (C' / 3) (C / 3)
               (digit_at (rho (R / 3) (C / 3)) (gam (R / 3) (C / 3))
                         (R mod 3) (C mod 3))); try done. lia.
    + destruct Hpeer as [->|[->|[? _]]]; [done| |done].
      apply (Hcol (R' / 3) (R / 3) (C / 3)
               (digit_at (rho (R / 3) (C / 3)) (gam (R / 3) (C / 3))
                         (R mod 3) (C mod 3))); try done. lia.
    + destruct Hpeer as [->|[->|[? _]]]; done.
Qed.

(** *** The seed *)

Lemma peek_seed n0 n1 n2 R C :
  length n0 = 9 → length n1 = 9 → length n2 = 9 → R < 9 → C < 9 →
  peek (seed n0 n1 n2) R C
  = if R / 3 =? C / 3
    then nth (3 * (R mod 3) + C mod 3) (nth (R / 3) [n0; n1; n2] []) 0%Z
    else 0%Z.
Proof.
  intros H0 H1 H2 HR HC.
  do 10 (destruct n0 as [|? n0]; try done).
  do 10 (destruct n1 as [|? n1]; try done).
  do 10 (destruct n2 as [|? n2]; try done).
  do 9 (destruct R as [|R];
        [do 9 (destruct C as [|C]; [vm_compute; reflexivity|]); lia|]).
  lia.
Qed.

Lemma wf_place_numbers numbers b row col :
  wf b → wf (Generator.place_numbers numbers b row col).
Proof.
  unfold Generator.place_numbers. cbv zeta.
  generalize (imap (λ (idx : nat) (rc : nat * nat), (idx, rc))
    (mjoin ((λ r, (λ c, (r, c)) <$> range col (col + BOX_SIZE))
              <$> range row (row + BOX_SIZE)))).
  intros l. revert b. induction l as [|[idx [r c]] l IH]; intros b Hwf; [done|].
  simpl. apply IH. by apply wf_poke.
Qed.

Lemma wf_seed n0 n1 n2 : wf (seed n0 n1 n2).
Proof. unfold seed. do 3 apply wf_place_numbers. apply wf_new. Qed.

(** Every filling of the three diagonal boxes by permutations of 1..9
    can be completed to a solution. *)
Theorem seed_completable n0 n1 n2 :
  n0 ≡ₚ Solver.numbers → n1 ≡ₚ Solver.numbers → n2 ≡ₚ Solver.numbers →
  ∃ sol, solution sol ∧ extends (seed n0 n1 n2) sol.
Proof.
  intros Hp0 Hp1 Hp2.
  assert (L0 : length n0 = 9) by (by rewrite Hp0).
  assert (L1 : length n1 = 9) by (by rewrite Hp1).
  assert (L2 : length n2 = 9) by (by rewrite Hp2).
  destruct (layout_exists _ _ _ _ (orth_places n0 n1 Hp0 Hp1)
              (orth_places n0 n2 Hp0 Hp2))
    as (rho & gam & Hfits & R00 & G00 & R11 & G11 & R22 & G22).
  exists (board_of n0 rho gam). split; [by apply board_of_solution|].
  intros R C HR HC Hnz. change SIZE with 9 in *.
  rewrite peek_seed in Hnz |- * by done.
  destruct (Nat.eqb_spec (R / 3) (C / 3)) as [Heq|]; [|done].
  rewrite peek_board_of by done. rewrite <- Heq.
  assert (Hbox : R / 3 < 3 ∧ R mod 3 < 3 ∧ C mod 3 < 3).
  { pose proof (Nat.div_mod_eq R 3). pose proof (Nat.mod_upper_bound R 3).
    pose proof (Nat.mod_upper_bound C 3). lia. }
  destruct Hbox as (Hi & Ha & Hb).
  destruct Hfits as (Horth & _ & _).
  destruct (digit_at_spec _ _ _ _ (Horth _ _ Hi Hi) Ha Hb) as (Hd & Hdr & Hdc).
  revert Hd Hdr Hdc.
  generalize (digit_at (rho (R / 3) (R / 3)) (gam (R / 3) (R / 3))
                       (R mod 3) (C mod 3)).
  intros d Hd Hdr Hdc.
  assert (Hrc : ∀ n, n ≡ₚ Solver.numbers →
    rho (R / 3) (R / 3) = rows_of n0 n → gam (R / 3) (R / 3) = cols_of n0 n →
    nth d n0 0%Z = nth (3 * (R mod 3) + C mod 3) n 0%Z).
  { intros n Hn Hr Hc. rewrite Hr in Hdr. rewrite Hc in Hdc.
    rewrite <- Hdr, <- Hdc, lbl_places by lia.
    rewrite nth_index_of; [done|].
    rewrite Hn, <- Hp0. apply list_elem_of_In, nth_In. lia. }
  destruct (R / 3) as [|[|[|i]]]; [| | |lia]; simpl.
  - apply Hrc; [done| |].
    + rewrite R00. unfold rows_of. rewrite places_self by done. done.
    + rewrite G00. unfold cols_of. rewrite places_self by done. done.
  - by apply Hrc.
  - by apply Hrc.
Qed.

End CompletionFacts.

(** ** Facts about the generator *)

Section GeneratorFacts.
Import Board Solver Generator Spec Completion.

Lemma copy_id b : Board.copy b = b.
Proof. by destruct b. Qed.

(** *** Counting cells *)

Lemma filter_length_flip (f g : nat * nat → bool) ps cell :
  NoDup ps → cell ∈ ps → (∀ p, p ≠ cell → f p = g p) →
  f cell = true → g cell = false →
  length (List.filter f ps) = S (length (List.filter g ps)).
Proof.
  intros Hnd Hin Hsame Hf Hg.
  assert (Hle : ∀ qs : list (nat * nat), cell ∉ qs →
    length (List.filter f qs) = length (List.filter g qs)).
  { induction qs as [|q qs IH]; intros Hnin; [done|].
    apply not_elem_of_cons in Hnin as [Hne Hnin]. simpl.
    rewrite (Hsame q) by done. destruct (g q); simpl; by rewrite IH. }
  revert Hnd Hin. induction ps as [|p ps IH]; intros Hnd Hin.
  - by apply elem_of_nil in Hin.
  - apply NoDup_cons in Hnd as [Hnin Hnd]. simpl.
    destruct (decide (p = cell)) as [->|Hne].
    + rewrite Hf, Hg. simpl. by rewrite Hle.
    + apply elem_of_cons in Hin as [Heq|Hin]; [congruence|].
      rewrite (Hsame p) by done. destruct (g p); simpl; by rewrite IH.
Qed.

Lemma filter_all {A} (f : A → bool) (l : list A) :
  (∀ x, x ∈ l → f x = true) → List.filter f l = l.
Proof.
  induction l as [|x l IH]; intros Hall; [done|]. simpl.
  rewrite Hall by left. f_equal. apply IH. intros y Hy. apply Hall. by right.
Qed.

Lemma filter_same {A} (f g : A → bool) (l : list A) :
  (∀ x, x ∈ l → f x = g x) → List.filter f l = List.filter g l.
Proof.
  induction l as [|x l IH]; intros Hall; [done|]. simpl.
  rewrite Hall by left. rewrite IH; [done|]. intros y Hy. apply Hall. by right.
Qed.

Lemma length_positions : length positions = 81.
Proof. reflexivity. Qed.

Lemma filled_count_le b : filled_count b ≤ 81.
Proof.
  unfold filled_count. rewrite <- length_positions. apply filter_length_le.
Qed.

Lemma filled_count_same_grid b1 b2 :
  grid b1 = grid b2 → filled_count b1 = filled_count b2.
Proof. intros Hg. unfold filled_count, peek. by rewrite Hg. Qed.

Lemma filled_count_full b : _find_empty_cell b = None → filled_count b = 81.
Proof.
  intros Hf. unfold filled_count. rewrite filter_all; [done|].
  intros [r c] Hin. apply elem_of_positions in Hin as [Hr Hc].
  apply negb_true_iff, Z.eqb_neq. by apply (find_empty_None b).
Qed.

(** Emptying a filled cell lowers the number of filled cells by one. *)
Lemma filled_count_remove b row col :
  wf b → row < SIZE → col < SIZE → peek b row col ≠ 0%Z →
  filled_count b = S (filled_count (poke b row col 0%Z)).
Proof.
  intros Hwf Hrow Hcol Hnz. unfold filled_count.
  apply (filter_length_flip _ _ _ (row, col)).
  - apply NoDup_positions.
  - by apply elem_of_positions.
  - intros [r c] Hne. by rewrite peek_poke_other.
  - by apply negb_true_iff, Z.eqb_neq.
  - by rewrite peek_poke_same.
Qed.

Lemma solution_full sol : solution sol → _find_empty_cell sol = None.
Proof.
  intros [Hwf Hsol]. unfold _find_empty_cell.
  destruct (List.find _ _) as [[r c]|] eqn:Hf; [|done].
  apply find_some in Hf as [Hin Hz].
  apply list_elem_of_In, elem_of_positions in Hin as [Hr Hc].
  apply Z.eqb_eq in Hz. destruct (Hsol r c Hr Hc) as [Hnum _].
  by apply numbers_nonzero in Hnum.
Qed.

Lemma extends_same_grid b1 b2 sol :
  grid b1 = grid b2 → extends b1 sol → extends b2 sol.
Proof.
  intros Hg Hext r c Hr Hc. specialize (Hext r c Hr Hc).
  unfold peek in *. by rewrite <- Hg.
Qed.

Lemma extends_poke_zero b row col b' :
  wf b → row < SIZE → col < SIZE →
  extends b' (poke b row col 0%Z) → extends b' b.
Proof.
  intros Hwf Hrow Hcol Hext r c Hr Hc Hp.
  destruct (decide ((r, c) = (row, col))) as [[= -> ->]|Hne].
  - pose proof (Hext row col Hr Hc Hp) as He.
    rewrite peek_poke_same in He by done. congruence.
  - rewrite <- (Hext r c Hr Hc Hp). symmetry. by apply peek_poke_other.
Qed.

(** *** Marking the given cells *)

Lemma wf_mark_given b row col : wf b → wf (mark_given b row col).
Proof.
  intros (Hlen & Hrows & Hglen & Hgrows). unfold wf, mark_given.
  destruct (given b !! row) as [flags|] eqn:Hflags; [|done]. simpl.
  split_and!; try done.
  - by rewrite length_insert.
  - apply Forall_insert; [done|]. rewrite length_insert.
    by eapply (Forall_lookup_1 _ _ _ _ Hgrows).
Qed.

Lemma is_given_mark_given_same b row col :
  wf b → row < SIZE → col < SIZE → is_given (mark_given b row col) row col = true.
Proof.
  intros (_ & _ & Hglen & Hgrows) Hrow Hcol.
  destruct (lookup_lt_is_Some_2 (given b) row) as [flags Hflags]; [lia|].
  pose proof (Forall_lookup_1 _ _ _ _ Hgrows Hflags) as Hlen. simpl in Hlen.
  unfold is_given, mark_given. rewrite Hflags. simpl.
  rewrite list_lookup_insert_eq by lia.
  by rewrite list_lookup_insert_eq by lia.
Qed.

Lemma is_given_mark_given_other b row col r c :
  (r, c) ≠ (row, col) → is_given (mark_given b row col) r c = is_given b r c.
Proof.
  intros Hne. unfold is_given, mark_given.
  destruct (given b !! row) as [flags|] eqn:Hflags; [|done]. simpl.
  destruct (decide (r = row)) as [->|Hr].
  - rewrite list_lookup_insert_eq by (by eapply lookup_lt_Some).
    rewrite Hflags, list_lookup_insert_ne by congruence. done.
  - by rewrite list_lookup_insert_ne.
Qed.

Lemma mark_loop_spec ps : ∀ b,
  wf b → Forall (λ '(r, c), r < SIZE ∧ c < SIZE) ps →
  let b' := foldl (λ b '(row, col),
                     if negb (peek b row col =? 0)%Z
                     then mark_given b row col else b) b ps in
  wf b' ∧ grid b' = grid b ∧
  ∀ r c, is_given b' r c
         = is_given b r c
           || (bool_decide ((r, c) ∈ ps) && negb (peek b r c =? 0)%Z).
Proof.
  induction ps as [|[row col] ps IH]; intros b Hwf Hall; simpl.
  - split_and!; [done..|]. intros r c. by rewrite orb_false_r.
  - apply Forall_cons in Hall as [[Hrow Hcol] Hall].
    set (b1 := if negb (peek b row col =? 0)%Z then mark_given b row col else b).
    assert (Hwf1 : wf b1).
    { unfold b1. destruct (negb _); [by apply wf_mark_given|done]. }
    assert (Hg1 : grid b1 = grid b).
    { unfold b1. destruct (negb _); [apply grid_mark_given|done]. }
    destruct (IH b1 Hwf1 Hall) as (Hwf' & Hg' & Hflags).
    split_and!; [done|congruence|]. intros r c. rewrite Hflags.
    assert (Hpk : peek b1 r c = peek b r c) by (unfold peek; by rewrite Hg1).
    rewrite Hpk.
    destruct (decide ((r, c) = (row, col))) as [[= -> ->]|Hne].
    + rewrite (bool_decide_eq_true_2 ((row, col) ∈ (row, col) :: ps)) by left.
      unfold b1. destruct (negb (peek b row col =? 0)%Z) eqn:Hnz; simpl.
      * rewrite is_given_mark_given_same by done. by rewrite orb_true_r.
      * by rewrite andb_false_r, !orb_false_r.
    + assert (Hg : is_given b1 r c = is_given b r c).
      { unfold b1. destruct (negb (peek b row col =? 0)%Z); [|done].
        by apply is_given_mark_given_other. }
      rewrite Hg. do 2 f_equal. apply bool_decide_ext.
      rewrite elem_of_cons. split; [by right|]. by intros [?|?].
Qed.

Lemma Forall_positions : Forall (λ '(r, c), r < SIZE ∧ c < SIZE) positions.
Proof. apply Forall_forall. intros [r c]. apply elem_of_positions. Qed.

(** The marking loop of [generate] leaves the grid as it is and flags
    exactly the filled cells, next to those flagged before. *)
Lemma mark_nonzero_given_spec b :
  wf b →
  wf (mark_nonzero_given b) ∧ grid (mark_nonzero_given b) = grid b ∧
  ∀ r c, r < SIZE → c < SIZE →
    is_given (mark_nonzero_given b) r c
    = is_given b r c || negb (peek b r c =? 0)%Z.
Proof.
  intros Hwf.
  destruct (mark_loop_spec positions b Hwf Forall_positions) as (Hwf' & Hg & Hfl).
  split_and!; [done..|]. intros r c Hr Hc. unfold mark_nonzero_given.
  rewrite Hfl. by rewrite bool_decide_eq_true_2 by (by apply elem_of_positions).
Qed.

Lemma is_given_new_flags b r c : given b = given Board.new → is_given b r c = false.
Proof.
  intros Hg. unfold is_given. rewrite Hg. unfold Board.new. cbn [given].
  destruct (replicate SIZE (replicate SIZE false) !! r) as [flags|] eqn:Hr; [|done].
  apply lookup_replicate in Hr as [-> _].
  destruct (replicate SIZE false !! c) as [f|] eqn:Hc; [|done].
  by apply lookup_replicate in Hc as [-> _].
Qed.

Lemma given_count_marked b :
  wf b → given b = given Board.new →
  given_count (mark_nonzero_given b) = filled_count b.
Proof.
  intros Hwf Hg. unfold given_count, filled_count. f_equal.
  apply filter_same. intros [r c] Hin.
  apply elem_of_positions in Hin as [Hr Hc].
  destruct (mark_nonzero_given_spec b Hwf) as (_ & _ & Hfl).
  by rewrite Hfl, (is_given_new_flags b r c Hg) by done.
Qed.

(** *** Uniqueness is a property of the grid *)

Lemma unique_same_grid b1 b2 : grid b1 = grid b2 → unique b1 → unique b2.
Proof.
  intros Hg. unfold unique. rewrite !copy_id.
  assert (Hb : b2 = with_given (given b2) b1).
  { destruct b1, b2. unfold with_given. simpl in *. by subst. }
  rewrite Hb, count_solutions_with_given.
  destruct (count_solutions b1 2) as [[n b']|]; done.
Qed.

Lemma unique_solution sol : solution sol → unique sol.
Proof.
  intros Hsol. unfold unique. rewrite copy_id.
  by rewrite count_solutions_full by (by apply solution_full).
Qed.

(** *** The removal loop *)

Lemma remove_loop_eq stack count max_attempts removed attempts b :
  remove_loop stack count max_attempts removed attempts b =
  if (removed <? count)%Z && (attempts <? max_attempts)%Z then
    match stack with
    | [] => Some (b, [])
    | (row, col) :: stack' =>
        match count_solutions (Board.copy (poke b row col 0%Z)) 2 with
        | None => None
        | Some (solution_count, _) =>
            match
              (if (solution_count =? 1)%Z then
                 remove_loop stack' count max_attempts (removed + 1)%Z
                             (attempts + 1)%Z (poke b row col 0%Z)
               else
                 remove_loop stack' count max_attempts removed (attempts + 1)%Z
                             (poke (poke b row col 0%Z) row col (peek b row col)))
            with
            | Some (b', log) => Some (b', call_count_solutions :: log)
            | None => None
            end
        end
    end
  else Some (b, []).
Proof. destruct stack as [|[row col] stack']; reflexivity. Qed.

Ltac loop_stops Hguard :=
  split_and!; try done; try (simpl; lia); try (by intros ? ? _ _ _);
  try (intros ? ?; apply andb_false_iff in Hguard as [Hguard|Hguard];
       apply Z.ltb_ge in Hguard; simpl in *; lia).

(** The loop returns; the board it leaves has one solution, keeps the
    flags and agrees with the board it started from on every filled
    cell; every kept removal lowers the number of filled cells by one,
    at most [count - removed] removals are kept, and the loop stops
    before the positions run out only when the target or the attempt
    limit is reached. *)
Lemma remove_loop_spec stack : ∀ count max_attempts removed attempts b,
  wf b → unique b → NoDup stack →
  Forall (λ '(r, c), r < SIZE ∧ c < SIZE ∧ peek b r c ≠ 0%Z) stack →
  ∃ b' log,
    remove_loop stack count max_attempts removed attempts b = Some (b', log) ∧
    wf b' ∧ unique b' ∧ given b' = given b ∧ extends b' b ∧
    Forall (λ c, c = call_count_solutions) log ∧
    length log ≤ length stack ∧
    filled_count b' ≤ filled_count b ∧
    (Z.of_nat (filled_count b - filled_count b') ≤ Z.max 0 (count - removed))%Z ∧
    ((removed + Z.of_nat (filled_count b - filled_count b') < count)%Z →
     (attempts + Z.of_nat (length log) < max_attempts)%Z →
     length log = length stack).
Proof.
  induction stack as [|[row col] stack IH];
    intros count max_attempts removed attempts b Hwf Huniq Hnd Hall;
    rewrite remove_loop_eq;
    destruct ((removed <? count)%Z && (attempts <? max_attempts)%Z) eqn:Hguard.
  - exists b, []. loop_stops Hguard.
  - exists b, []. loop_stops Hguard.
  - apply andb_true_iff in Hguard as [Hg1 Hg2].
    apply Z.ltb_lt in Hg1, Hg2.
    apply NoDup_cons in Hnd as [Hnin Hnd].
    apply Forall_cons in Hall as [(Hrow & Hcol & Hnz) Hall].
    pose proof (wf_poke b row col 0%Z Hwf) as Hwf1.
    rewrite copy_id.
    destruct (count_solutions_post (poke b row col 0%Z) 2 Hwf1) as [n Hn].
    rewrite Hn.
    pose proof (filled_count_remove b row col Hwf Hrow Hcol Hnz) as Hfc.
    destruct (n =? 1)%Z eqn:Hone.
    + apply Z.eqb_eq in Hone. subst n.
      destruct (IH count max_attempts (removed + 1)%Z (attempts + 1)%Z
                  (poke b row col 0%Z)) as
        (b' & log & -> & Hwf' & Hu' & Hgv' & Hext' & Hlog & Hlen & Hle & Hk & Hall');
        [done| |done| |].
      { unfold unique. by rewrite copy_id, Hn. }
      { apply Forall_forall. intros [r c] Hin.
        destruct (proj1 (Forall_forall _ _) Hall (r, c) Hin) as (Hr & Hc & Hp).
        split_and!; [done..|].
        rewrite peek_poke_other; [done|]. intros [= -> ->]. by apply Hnin. }
      exists b', (call_count_solutions :: log).
      split_and!; try done.
      * by rewrite Hgv', given_poke.
      * by apply (extends_poke_zero b row col b').
      * by constructor.
      * simpl. lia.
      * lia.
      * lia.
      * intros H1 H2. simpl in *. f_equal. apply Hall'; lia.
    + rewrite poke_poke, poke_peek.
      destruct (IH count max_attempts removed (attempts + 1)%Z b) as
        (b' & log & -> & Hwf' & Hu' & Hgv' & Hext' & Hlog & Hlen & Hle & Hk & Hall');
        [done..| |].
      { eapply Forall_impl; [exact Hall|]. by intros [r c]. }
      exists b', (call_count_solutions :: log).
      split_and!; try done.
      * by constructor.
      * simpl. lia.
      * intros H1 H2. simpl in *. f_equal. apply Hall'; lia.
  - exists b, []. loop_stops Hguard.
Qed.

(** *** Blanking cells without checks ([generate_simple]) *)

Lemma blank_cells_spec cells : ∀ b,
  wf b → NoDup cells →
  Forall (λ '(r, c), r < SIZE ∧ c < SIZE ∧ peek b r c ≠ 0%Z) cells →
  let b' := foldl (λ b '(row, col), poke b row col 0%Z) b cells in
  wf b' ∧ given b' = given b ∧ extends b' b ∧
  filled_count b = filled_count b' + length cells.
Proof.
  induction cells as [|[row col] cells IH]; intros b Hwf Hnd Hall; simpl.
  - split_and!; try done; try lia.
  - apply NoDup_cons in Hnd as [Hnin Hnd].
    apply Forall_cons in Hall as [(Hrow & Hcol & Hnz) Hall].
    destruct (IH (poke b row col 0%Z)) as (Hwf' & Hg' & Hext' & Hfc');
      [by apply wf_poke|done| |].
    { apply Forall_forall. intros [r c] Hin.
      destruct (proj1 (Forall_forall _ _) Hall (r, c) Hin) as (Hr & Hc & Hp).
      split_and!; [done..|].
      rewrite peek_poke_other; [done|]. intros [= -> ->]. by apply Hnin. }
    split_and!; [done|by rewrite Hg', given_poke| |].
    + by apply (extends_poke_zero b row col).
    + rewrite (filled_count_remove b row col) by done. lia.
Qed.

(** The cells of the loop are empty afterwards, and no other cell
    changes. *)
Lemma blank_cells_peek cells : ∀ b r c,
  wf b → Forall (λ '(r, c), r < SIZE ∧ c < SIZE) cells →
  peek (foldl (λ b '(row, col), poke b row col 0%Z) b cells) r c
  = if bool_decide ((r, c) ∈ cells) then 0%Z else peek b r c.
Proof.
  induction cells as [|[row col] cells IH]; intros b r c Hwf Hall; [done|].
  apply Forall_cons in Hall as [[Hrow Hcol] Hall]. simpl.
  rewrite IH by (by try apply wf_poke).
  destruct (decide ((r, c) = (row, col))) as [[= -> ->]|Hne].
  - rewrite (bool_decide_eq_true_2 ((row, col) ∈ (row, col) :: cells)) by left.
    rewrite peek_poke_same by done. by destruct (bool_decide _).
  - rewrite peek_poke_other by done.
    assert (Hiff : (r, c) ∈ (row, col) :: cells ↔ (r, c) ∈ cells).
    { rewrite elem_of_cons. split; [by intros [?|?]|by right]. }
    by rewrite (bool_decide_ext _ _ Hiff).
Qed.

(** *** The table of difficulties *)

Lemma remove_count_cases difficulty :
  Difficulty.remove_count difficulty ∈
    [(40, 45)%Z; (46, 49)%Z; (50, 53)%Z; (54, 58)%Z].
Proof.
  unfold Difficulty.remove_count, Difficulty.REMOVE_COUNT.
  destruct (decide (difficulty = Difficulty.EASY)) as [->|H1].
  { rewrite lookup_insert_eq. simpl. set_solver. }
  rewrite lookup_insert_ne by done.
  destruct (decide (difficulty = Difficulty.MEDIUM)) as [->|H2].
  { rewrite lookup_insert_eq. simpl. set_solver. }
  rewrite lookup_insert_ne by done.
  destruct (decide (difficulty = Difficulty.HARD)) as [->|H3].
  { rewrite lookup_insert_eq. simpl. set_solver. }
  rewrite lookup_insert_ne by done.
  destruct (decide (difficulty = Difficulty.EXPERT)) as [->|H4].
  { rewrite lookup_insert_eq. simpl. set_solver. }
  rewrite lookup_insert_ne by done. rewrite lookup_empty. simpl. set_solver.
Qed.

Lemma remove_count_bounds difficulty :
  (40 ≤ (Difficulty.remove_count difficulty).1
      ≤ (Difficulty.remove_count difficulty).2 ≤ 58)%Z.
Proof.
  pose proof (remove_count_cases difficulty) as Hin.
  repeat (apply elem_of_cons in Hin as [->|Hin]; [simpl; lia|]).
  by apply elem_of_nil in Hin.
Qed.

Lemma remove_count_expert :
  Difficulty.remove_count Difficulty.EXPERT = (54, 58)%Z.
Proof.
  unfold Difficulty.remove_count, Difficulty.REMOVE_COUNT.
  rewrite lookup_insert_ne by done. rewrite lookup_insert_ne by done.
  rewrite lookup_insert_ne by done. by rewrite lookup_insert_eq.
Qed.

End GeneratorFacts.

(** *** Completing the seed *)

Section GeneratorRuns.
Import Board Solver Generator Spec Completion.
Context {R : Type} `{RandomLaws R}.

Lemma given_place_numbers numbers b row col :
  given (place_numbers numbers b row col) = given b.
Proof.
  unfold place_numbers. cbv zeta.
  generalize (imap (λ (idx : nat) (rc : nat * nat), (idx, rc))
    (mjoin ((λ r, (λ c, (r, c)) <$> range col (col + BOX_SIZE))
              <$> range row (row + BOX_SIZE)))).
  intros l. revert b. induction l as [|[idx [r c]] l IH]; intros b; [done|].
  simpl. by rewrite IH, given_poke.
Qed.

Lemma given_seed n0 n1 n2 : given (seed n0 n1 n2) = given Board.new.
Proof. unfold seed. by rewrite !given_place_numbers. Qed.

(** [_fill_diagonal_boxes] on an empty board leaves a seed: three
    shuffles of 1..9, one per diagonal box. *)
Lemma _fill_diagonal_boxes_seed (s : R) :
  ∃ n0 n1 n2 s',
    _fill_diagonal_boxes Board.new s = (seed n0 n1 n2, s') ∧
    n0 ≡ₚ numbers ∧ n1 ≡ₚ numbers ∧ n2 ≡ₚ numbers.
Proof.
  unfold _fill_diagonal_boxes, _fill_box, range.
  cbn [Nat.sub seq foldl].
  pose proof (shuffle_perm _ numbers s) as Hp0.
  destruct (shuffle numbers s) as [n0 s0].
  pose proof (shuffle_perm _ numbers s0) as Hp1.
  destruct (shuffle numbers s0) as [n1 s1].
  pose proof (shuffle_perm _ numbers s1) as Hp2.
  destruct (shuffle numbers s1) as [n2 s2].
  exists n0, n1, n2, s2. split; [reflexivity|]. split_and!; assumption.
Qed.

(** [_generate_complete_board] returns a solution: a full board without
    clashes, no cell of which is flagged. *)
Lemma _generate_complete_board_spec (s : R) :
  ∃ full s',
    _generate_complete_board s = Some (full, s', [call_solve_with_randomness]) ∧
    solution full ∧ given full = given Board.new.
Proof.
  unfold _generate_complete_board.
  destruct (_fill_diagonal_boxes_seed s) as (n0 & n1 & n2 & s0 & -> & Hp0 & Hp1 & Hp2).
  destruct (seed_completable n0 n1 n2 Hp0 Hp1 Hp2) as (sol & Hsol & Hext).
  pose proof (wf_seed n0 n1 n2) as Hwf.
  pose proof (empty_count_bound (seed n0 n1 n2)) as Hfuel.
  unfold solve_with_randomness.
  destruct (solve_with_randomness_rec_complete FUEL _ s0 sol Hsol Hwf Hfuel Hext)
    as (b' & s' & Hrun).
  destruct (solve_with_randomness_rec_post FUEL _ s0 Hwf Hfuel)
    as (ok & b1 & s1 & Hrun1 & Hwf1 & Hg1 & _ & Hok).
  rewrite Hrun in Hrun1. injection Hrun1 as <- <- <-.
  rewrite Hrun. exists b', s'. split; [done|].
  destruct (Hok eq_refl) as [Hfull Hcons]. split.
  - apply full_consistent_solution; [done..|].
    apply Hcons. by eapply extends_consistent.
  - by rewrite Hg1, given_seed.
Qed.

Lemma solution_stack full (ps : list (nat * nat)) :
  solution full → ps ≡ₚ positions →
  NoDup ps ∧ Forall (λ '(r, c), r < SIZE ∧ c < SIZE ∧ peek full r c ≠ 0%Z) ps.
Proof.
  intros Hsol Hp. split.
  - rewrite Hp. apply NoDup_positions.
  - apply Forall_forall. intros [r c] Hin. rewrite Hp in Hin.
    apply elem_of_positions in Hin as [Hr Hc]. split_and!; [done..|].
    apply find_empty_None; [|done..]. by apply solution_full.
Qed.

(** What a run of [generate] gives. *)
Lemma generate_spec difficulty (s : R) :
  ∃ full board s' log num,
    generate difficulty s
      = Some (board, s', call_solve_with_randomness :: log) ∧
    (∀ r c, r < SIZE → c < SIZE →
       is_given board r c = negb (peek board r c =? 0)%Z) ∧
    ((Difficulty.remove_count difficulty).1 ≤ num
       ≤ (Difficulty.remove_count difficulty).2)%Z ∧
    solution full ∧ extends board full ∧ wf board ∧ unique board ∧
    given_count board = filled_count board ∧
    Forall (λ c, c = call_count_solutions) log ∧
    length log ≤ 81 ∧
    (81 - Z.of_nat (filled_count board) ≤ num)%Z ∧
    ((81 - Z.of_nat (filled_count board) < num)%Z → length log = 81).
Proof.
  unfold generate.
  destruct (_generate_complete_board_spec s) as (full & s0 & -> & Hsol & Hgv).
  pose proof (remove_count_bounds difficulty) as Hb.
  destruct (Difficulty.remove_count difficulty) as [lo hi]. simpl in Hb.
  pose proof (randint_range lo hi s0 ltac:(lia)) as Hnum.
  destruct (randint lo hi s0) as [num s1]. simpl in Hnum.
  unfold _remove_cells.
  pose proof (shuffle_perm _ positions s1) as Hp.
  destruct (shuffle positions s1) as [ps s2]. simpl in Hp.
  destruct (solution_stack full (reverse ps) Hsol) as [Hnd Hall].
  { by rewrite reverse_Permutation. }
  assert (Hlen : length (reverse ps) = 81).
  { by rewrite length_reverse, Hp. }
  destruct (remove_loop_spec (reverse ps) num (num * 3)%Z 0%Z 0%Z full
              (proj1 Hsol) (unique_solution _ Hsol) Hnd Hall)
    as (b' & log & -> & Hwf' & Hu' & Hgv' & Hext' & Hlog & Hll & Hle & Hk & Hstop).
  destruct (mark_nonzero_given_spec b' Hwf') as (Hwfm & Hgm & Hfl).
  pose proof (filled_count_full full (solution_full _ Hsol)) as Hfull.
  rewrite Hfull in Hle, Hk, Hstop. rewrite Hlen in Hll, Hstop.
  assert (Hflags : ∀ r c, r < SIZE → c < SIZE →
            is_given (mark_nonzero_given b') r c
            = negb (peek (mark_nonzero_given b') r c =? 0)%Z).
  { intros r c Hr Hc. rewrite (Hfl r c Hr Hc).
    rewrite (is_given_new_flags b' r c) by congruence.
    unfold peek. rewrite Hgm. reflexivity. }
  exists full, (mark_nonzero_given b'), s2, log, num.
  split; [reflexivity|]. split; [exact Hflags|]. cbn [fst snd].
  rewrite (filled_count_same_grid _ _ Hgm).
  split_and!; try done; try lia.
  - by apply (extends_same_grid b').
  - by apply (unique_same_grid b').
  - apply given_count_marked; [done|congruence].
Qed.

(** What a run of [generate_simple] gives: the number of cells to blank
    is the one [randint] returns after the board is completed, and the
    cells blanked are the first that many of the shuffled positions. *)
Lemma generate_simple_spec difficulty (s : R) :
  ∃ full s0,
    _generate_complete_board s = Some (full, s0, [call_solve_with_randomness]) ∧
    solution full ∧
    let range := Difficulty.remove_count difficulty in
    let drawn := randint range.1 range.2 s0 in
    let shuffled := shuffle positions drawn.2 in
    ∃ board,
      generate_simple difficulty s
        = Some (board, shuffled.2, [call_solve_with_randomness]) ∧
      (range.1 ≤ drawn.1 ≤ range.2)%Z ∧
      extends board full ∧ wf board ∧
      (∀ r c, r < SIZE → c < SIZE →
         peek board r c
         = if bool_decide ((r, c) ∈ take (Z.to_nat drawn.1) shuffled.1)
           then 0%Z else peek full r c) ∧
      (Z.of_nat (filled_count board) = 81 - drawn.1)%Z ∧
      given_count board = filled_count board ∧
      (∀ r c, r < SIZE → c < SIZE →
         is_given board r c = negb (peek board r c =? 0)%Z).
Proof.
  unfold generate_simple.
  destruct (_generate_complete_board_spec s) as (full & s0 & -> & Hsol & Hgv).
  exists full, s0. split; [done|]. split; [done|].
  pose proof (remove_count_bounds difficulty) as Hb.
  destruct (Difficulty.remove_count difficulty) as [lo hi]. cbn [fst snd] in *.
  pose proof (randint_range lo hi s0 ltac:(lia)) as Hnum.
  destruct (randint lo hi s0) as [num s1]. cbn [fst snd] in *.
  pose proof (shuffle_perm _ positions s1) as Hp.
  destruct (shuffle positions s1) as [ps s2]. cbn [fst snd] in *.
  destruct (solution_stack full ps Hsol Hp) as [Hnd Hall].
  assert (Hlen : length ps = 81) by (by rewrite Hp).
  assert (Hrange : Forall (λ '(r, c), r < SIZE ∧ c < SIZE)
                     (take (Z.to_nat num) ps)).
  { apply Forall_take. eapply Forall_impl; [exact Hall|].
    intros [r c] (Hr & Hc & _). by split. }
  pose proof (blank_cells_peek (take (Z.to_nat num) ps) full) as Hpeek.
  destruct (blank_cells_spec (take (Z.to_nat num) ps) full (proj1 Hsol))
    as (Hwf' & Hgv' & Hext' & Hfc).
  { eapply sublist_NoDup; [exact Hnd|apply sublist_take]. }
  { by apply Forall_take. }
  set (b' := foldl _ full _) in *.
  destruct (mark_nonzero_given_spec b' Hwf') as (Hwfm & Hgm & Hfl).
  pose proof (filled_count_full full (solution_full _ Hsol)) as Hfull.
  rewrite Hfull, length_take, Hlen in Hfc.
  assert (Hpk : ∀ r c, peek (mark_nonzero_given b') r c = peek b' r c).
  { intros r c. unfold peek. by rewrite Hgm. }
  exists (mark_nonzero_given b').
  rewrite (filled_count_same_grid _ _ Hgm).
  split; [reflexivity|]. split; [exact Hnum|].
  split; [by apply (extends_same_grid b')|]. split; [exact Hwfm|].
  split; [|split; [lia|split]].
  - intros r c Hr Hc. rewrite Hpk. apply Hpeek; [apply Hsol|exact Hrange].
  - apply given_count_marked; [done|congruence].
  - intros r c Hr Hc. rewrite (Hfl r c Hr Hc), Hpk.
    rewrite (is_given_new_flags b' r c) by congruence. reflexivity.
Qed.

End GeneratorRuns.

(** ** The scripted source is a lawful random source *)

Section ScriptFacts.

Lemma omap_lookup_seq_app {A} (l : list A) : ∀ k : list A,
  omap (λ i, (k ++ l) !! i) (seq (length k) (length l)) = l.
Proof.
  induction l as [|x l IH]; intros k; [done|].
  simpl. rewrite list_lookup_middle by done.
  f_equal. specialize (IH (k ++ [x])).
  rewrite length_app, Nat.add_1_r, <- app_assoc in IH. exact IH.
Qed.

Lemma omap_lookup_seq {A} (l : list A) :
  omap (λ i, l !! i) (seq 0 (length l)) = l.
Proof. apply (omap_lookup_seq_app l []). Qed.

(** Applying an index permutation permutes the list. *)
Lemma apply_perm_Permutation {A} (p : list nat) (l : list A) :
  p ≡ₚ seq 0 (length l) → Script.apply_perm p l ≡ₚ l.
Proof.
  intros Hp. unfold Script.apply_perm. rewrite Hp.
  by rewrite omap_lookup_seq.
Qed.

#[export] Instance Script_laws : RandomLaws Script.t.
Proof.
  split.
  - intros A l [ps ns]. cbn [shuffle Script.random].
    unfold Script.script_shuffle. cbn [Script.perms Script.ints].
    destruct ps as [|p ps]; [done|]. cbn [fst].
    unfold Script.is_index_perm. case_bool_decide as Hp; [|done].
    by apply apply_perm_Permutation.
  - intros a b [ps ns] Hab. cbn [randint Script.random].
    unfold Script.script_randint. cbn [Script.perms Script.ints].
    destruct ns as [|n ns]; cbn [fst]; [lia|].
    destruct ((a <=? n)%Z && (n <=? b)%Z) eqn:Hn; [|lia].
    apply andb_true_iff in Hn as [H1 H2].
    apply Z.leb_le in H1, H2. lia.
Qed.

End ScriptFacts.

(** ** Board operations *)

Section BoardClaims.
Import Board Spec.

(** C7.  On a board of the standard shape and an in-range cell: if the
    cell is not given, [set] returns true and [get] then returns the value
    written; if the cell is given, [set] returns false and the board (all
    cells and all flags) is unchanged. *)
Theorem set_then_get (b : Board.t) (row col : nat) (v : Z) :
  wf b → row < SIZE → col < SIZE →
  (is_given b row col = false →
     (set b row col v).1 = true ∧ get (set b row col v).2 row col = v) ∧
  (is_given b row col = true →
     (set b row col v).1 = false ∧ (set b row col v).2 = b).
Proof.
  intros Hwf Hrow Hcol. unfold set, get. split; intros ->; simpl.
  - split; [done|]. by apply peek_poke_same.
  - done.
Qed.

Lemma set_then_get_witness :
  (set Board.new 0 0 5%Z).1 = true ∧ get (set Board.new 0 0 5%Z).2 0 0 = 5%Z.
Proof.
  apply (set_then_get Board.new 0 0 5%Z wf_new); [unfold SIZE; lia..|].
  reflexivity.
Defined.

(** C10.  [set] does not validate the value: on a non-given in-range
    cell it returns true and stores any integer, and when the integer is
    outside 0..9 the grid is no longer within the value domain. *)
Theorem set_no_domain_check (b : Board.t) (row col : nat) (v : Z) :
  wf b → row < SIZE → col < SIZE → is_given b row col = false →
  (set b row col v).1 = true ∧
  get (set b row col v).2 row col = v ∧
  (¬ (0 ≤ v ≤ 9)%Z → ¬ in_domain (set b row col v).2).
Proof.
  intros Hwf Hrow Hcol Hg.
  assert (Hok : (set b row col v).1 = true) by (unfold set; by rewrite Hg).
  assert (Hget : get (set b row col v).2 row col = v).
  { unfold set, get. rewrite Hg. by apply peek_poke_same. }
  split_and!; [done..|].
  intros Hv Hdom. apply Hv. rewrite <- Hget.
  unfold set in *. rewrite Hg in *. simpl in *.
  unfold get, peek, in_domain in *.
  destruct (wf_lookup_row _ row (wf_poke b row col v Hwf) Hrow)
    as (cells & Hcells & Hlen).
  rewrite Hcells.
  destruct (lookup_lt_is_Some_2 cells col) as [x Hx]; [lia|]. rewrite Hx.
  rewrite Forall_lookup in Hdom. specialize (Hdom _ _ Hcells).
  rewrite Forall_lookup in Hdom. by apply (Hdom _ _ Hx).
Qed.

Lemma set_no_domain_check_witness :
  (set Board.new 3 4 42%Z).1 = true ∧
  get (set Board.new 3 4 42%Z).2 3 4 = 42%Z ∧
  (¬ (0 ≤ 42 ≤ 9)%Z → ¬ in_domain (set Board.new 3 4 42%Z).2).
Proof.
  apply (set_no_domain_check Board.new 3 4 42%Z wf_new);
    [unfold SIZE; lia..|reflexivity].
Defined.

(** C2, as stated, fails: a cell whose value also stands elsewhere in its
    row is reported as invalid when checked against its own value. *)
Lemma own_value_can_conflict :
  ¬ (∀ (b : Board.t) (r c : nat), wf b → r < SIZE → c < SIZE →
       get b r c ≠ 0%Z → is_valid_move b r c (get b r c) = true).
Proof.
  intros Hall.
  assert (Hwf : wf Examples.two_fives).
  { unfold wf. simpl. split_and!; try done; by repeat constructor. }
  assert (Hnz : get Examples.two_fives 0 0 ≠ 0%Z) by (by vm_compute).
  assert (H9 : 0 < SIZE) by (unfold SIZE; lia).
  specialize (Hall Examples.two_fives 0 0 Hwf H9 H9 Hnz).
  vm_compute in Hall. discriminate Hall.
Qed.

(** C2, amended.  The check excludes the cell itself: its result does not
    depend on what the cell holds, and checking a cell against its own
    value returns true exactly when no other cell of its row, column or
    box holds that value. *)
Theorem own_value_valid_iff (b : Board.t) (r c : nat) :
  wf b → r < SIZE → c < SIZE →
  (∀ w num, is_valid_move (poke b r c w) r c num = is_valid_move b r c num) ∧
  (is_valid_move b r c (get b r c) = true ↔
   ∀ r' c', r' < SIZE → c' < SIZE → peers r' c' r c →
            get b r' c' ≠ get b r c).
Proof.
  intros Hwf Hr Hc. split; [|by apply is_valid_move_spec].
  intros w num. apply eq_true_iff_eq.
  rewrite !is_valid_move_spec by done.
  split; intros Hp r' c' Hr' Hc' Hpeer; specialize (Hp r' c' Hr' Hc' Hpeer);
    destruct Hpeer as [Hne _]; by rewrite peek_poke_other in * by done.
Qed.

Lemma own_value_valid_iff_witness :
  is_valid_move (poke Board.new 0 0 7%Z) 0 0 7%Z
  = is_valid_move Board.new 0 0 7%Z.
Proof.
  apply (own_value_valid_iff Board.new 0 0 wf_new); unfold SIZE; lia.
Defined.

(** C6, as stated, fails: a record with both keys is accepted whatever its
    arrays hold; the board built from it has the wrong shape and a value
    outside 0..9. *)
Lemma from_dict_accepts_malformed :
  from_dict Examples.bad_record = inr (Board.mk [[42%Z]] [[false]]) ∧
  ¬ wf (Board.mk [[42%Z]] [[false]]) ∧
  ¬ in_domain (Board.mk [[42%Z]] [[false]]).
Proof.
  split_and!; [done| |].
  - intros [Hlen _]. discriminate Hlen.
  - intros Hdom. unfold in_domain in Hdom. simpl in Hdom.
    apply Forall_cons in Hdom as [Hrow _].
    apply Forall_cons in Hrow as [Hv _]. lia.
Qed.

(** C6, amended.  [from_dict] validates nothing: a record with both keys
    yields the board holding exactly the two arrays of the record, and the
    only failure is the KeyError of a missing key. *)
Theorem from_dict_no_validation (g : list (list Z)) (gv : list (list bool))
    (og : option (list (list bool))) :
  from_dict (mk_record (Some g) (Some gv)) = inr (Board.mk g gv) ∧
  from_dict (mk_record None og) = inl (KeyError "grid") ∧
  from_dict (mk_record (Some g) None) = inl (KeyError "given").
Proof. done. Qed.

End BoardClaims.

(** ** Solver *)

Section SolverClaims.
Import Board Solver Spec.

Lemma solve_total (b : Board.t) :
  wf b →
  ∃ ok b', solve b = Some (ok, b') ∧ wf b' ∧ given b' = given b ∧
    (ok = false → b' = b) ∧ (ok = true → _find_empty_cell b' = None).
Proof.
  intros Hwf.
  destruct (solve_rec_post FUEL b Hwf (empty_count_bound b))
    as (ok & b' & Hrun & Hwf' & Hg & Hf & Ht).
  exists ok, b'. split_and!; [done..|]. intros Hok. by apply Ht.
Qed.

(** C3.  With the caller's board behind reference [l] of the object
    store: [count_solutions] returns and leaves the whole store as it
    was, for every limit; [get_hint] returns and leaves the caller's board
    (and every other object that existed before the call) as it was. *)
Theorem count_and_hint_preserve_board (h : Store.heap) (l : Store.ref)
    (b : Board.t) (limit : Z) :
  h !! l = Some b → wf b →
  (∃ n, Store.count_solutions l limit h = Some (n, h)) ∧
  (∃ hint h', Store.get_hint l h = Some (hint, h') ∧ h' !! l = Some b ∧
     ∀ l' o, h !! l' = Some o → h' !! l' = Some o).
Proof.
  intros Hl Hwf. split.
  - unfold Store.count_solutions, Store.call. rewrite Hl. cbv beta.
    destruct (count_solutions_post b limit Hwf) as (n & ->).
    exists n. cbv iota beta. by rewrite list_insert_id.
  - unfold Store.get_hint, Store.copy, Store.solve, Store.call. rewrite Hl.
    rewrite lookup_app_r, Nat.sub_diag by done. simpl.
    assert (Hwfc : wf (Board.copy b)) by done.
    destruct (solve_total (Board.copy b) Hwfc) as (ok & b' & -> & _).
    assert (Hold : ∀ l' o, h !! l' = Some o →
              <[length h := b']> (h ++ [Board.copy b]) !! l' = Some o).
    { intros l' o Hl'. pose proof (lookup_lt_Some _ _ _ Hl').
      rewrite list_lookup_insert_ne by lia. by rewrite lookup_app_l. }
    rewrite (Hold l b Hl).
    rewrite list_lookup_insert_eq by (rewrite length_app; simpl; lia).
    eexists _, _. split; [done|]. split; [by apply Hold|done].
Qed.

Lemma count_and_hint_preserve_board_witness :
  (∃ n, Store.count_solutions 0 2 [Examples.two_fives]
        = Some (n, [Examples.two_fives])) ∧
  (∃ hint h', Store.get_hint 0 [Examples.two_fives] = Some (hint, h') ∧
     h' !! 0 = Some Examples.two_fives ∧
     ∀ l' o, [Examples.two_fives] !! l' = Some o → h' !! l' = Some o).
Proof.
  apply (count_and_hint_preserve_board [Examples.two_fives] 0
           Examples.two_fives 2); [reflexivity|].
  unfold wf. simpl. split_and!; try done; by repeat constructor.
Defined.

(** C8.  On the board whose first row holds nine 1s and whose other cells
    are empty, [solve] returns (it does not run out of fuel), its result
    is false, and the board is left as it was. *)
Theorem solve_row_of_ones :
  solve Examples.row_of_ones = Some (false, Examples.row_of_ones).
Proof. vm_compute. reflexivity. Qed.

(** C9.  [solve] draws on no random source: it is the search of
    [solve_with_randomness] with the candidates left in the order
    1, 2, ..., 9.  Two runs on boards that are equal cell for cell both
    return, with the same flag, and leave the boards equal cell for
    cell. *)
Theorem solve_deterministic (b1 b2 : Board.t) :
  wf b1 → wf b2 → same_cells b1 b2 →
  solve b1 = forget (solve_with_randomness b1 tt) ∧
  (shuffle numbers tt).1 = [1; 2; 3; 4; 5; 6; 7; 8; 9]%Z ∧
  ∃ ok b1' b2', solve b1 = Some (ok, b1') ∧ solve b2 = Some (ok, b2') ∧
    same_cells b1' b2'.
Proof.
  intros Hwf1 Hwf2 Hsame.
  split; [apply solve_rec_as_random|]. split; [reflexivity|].
  assert (Hb2 : b2 = with_given (given b2) b1).
  { destruct b2 as [g2 gv2]. unfold with_given. simpl. f_equal.
    symmetry. by apply (grid_ext b1 (Board.mk g2 gv2)). }
  destruct (solve_total b1 Hwf1) as (ok & b1' & Hs1 & _).
  exists ok, b1', (with_given (given b2) b1'). split; [done|]. split; [|done].
  rewrite Hb2 at 1. unfold solve in *. rewrite solve_rec_with_given, Hs1. done.
Qed.

Lemma solve_deterministic_witness :
  solve Board.new = forget (solve_with_randomness Board.new tt) ∧
  (shuffle numbers tt).1 = [1; 2; 3; 4; 5; 6; 7; 8; 9]%Z ∧
  ∃ ok b1' b2', solve Board.new = Some (ok, b1') ∧
    solve (with_given (given Examples.two_fives) Board.new) = Some (ok, b2') ∧
    same_cells b1' b2'.
Proof.
  apply (solve_deterministic Board.new
           (with_given (given Examples.two_fives) Board.new) wf_new).
  - unfold wf. simpl. split_and!; try done; by repeat constructor.
  - intros r c _ _. reflexivity.
Defined.

End SolverClaims.

(** ** Generator *)

Section GeneratorClaims.
Import Board Solver Generator Spec.

Lemma all_same_replicate {A} (c : A) (l : list A) :
  Forall (λ x, x = c) l → l = replicate (length l) c.
Proof.
  induction 1 as [|x l -> _ IH]; [done|]. simpl. by rewrite <- IH.
Qed.

(** C1.  Whatever the difficulty string and whatever the random choices
    (any source whose shuffles are permutations and whose [randint] stays
    in range), [generate] returns a board, and [count_solutions] on a
    copy of that board with limit 2 returns 1. *)
Theorem generate_unique {R : Type} `{RandomLaws R}
    (difficulty : string) (s : R) :
  ∃ board s' log,
    generate difficulty s = Some (board, s', log) ∧
    fst <$> count_solutions (Board.copy board) 2 = Some 1%Z.
Proof.
  destruct (generate_spec difficulty s)
    as (full & board & s' & log & num & Hrun & _ & _ & _ & _ & _ & Hu & _).
  by exists board, s', (call_solve_with_randomness :: log).
Qed.

Lemma generate_unique_witness :
  ∃ board s' log,
    generate "hard" tt = Some (board, s', log) ∧
    fst <$> count_solutions (Board.copy board) 2 = Some 1%Z.
Proof. apply (generate_unique (R := unit) "hard" tt). Defined.

(** C4, as stated, fails: under the random choices of
    [Examples.stuck_script] the removal loop tries all 81 positions and
    only 53 removals keep the solution unique, so the board that
    [generate("expert")] returns has 28 given cells. *)
Lemma expert_can_keep_28_givens :
  ∃ board s' log,
    generate Difficulty.EXPERT Examples.stuck_script = Some (board, s', log) ∧
    given_count board = 28 ∧ filled_count board = 28.
Proof.
  assert (Hc : (λ '(board, _, _), (given_count board, filled_count board))
                 <$> generate Difficulty.EXPERT Examples.stuck_script
               = Some (28, 28)) by (vm_compute; reflexivity).
  destruct (generate Difficulty.EXPERT Examples.stuck_script)
    as [[[board s'] log]|]; [|discriminate Hc].
  injection Hc as Hg Hf. by exists board, s', log.
Qed.

(** C4, amended.  [generate("expert")] returns a board whose given
    cells are exactly its filled cells: a cell is flagged if and only if
    it holds a number.  There are at least 23 of them.  There are at most
    27 unless the removal loop ran out of positions: when more than 27
    cells are given, [count_solutions] was called once for each of the 81
    positions. *)
Theorem expert_givens_at_least_23 {R : Type} `{RandomLaws R} (s : R) :
  ∃ board s' log,
    generate Difficulty.EXPERT s = Some (board, s', log) ∧
    (∀ r c, r < SIZE → c < SIZE →
       is_given board r c = negb (get board r c =? 0)%Z) ∧
    given_count board = filled_count board ∧
    23 ≤ given_count board ∧
    (27 < given_count board →
     log = call_solve_with_randomness :: replicate 81 call_count_solutions).
Proof.
  destruct (generate_spec Difficulty.EXPERT s)
    as (full & board & s' & log & num & Hrun & Hflags & Hnum & _ & _ & _ & _
        & Hgc & Hlog & _ & Hk & Hstop).
  rewrite remove_count_expert in Hnum. simpl in Hnum.
  exists board, s', (call_solve_with_randomness :: log).
  split; [exact Hrun|]. split; [exact Hflags|]. split; [exact Hgc|].
  split; [lia|].
  intros Hgt. f_equal. rewrite (all_same_replicate _ _ Hlog).
  f_equal. apply Hstop. lia.
Qed.

Lemma expert_givens_at_least_23_witness :
  ∃ board s' log,
    generate Difficulty.EXPERT tt = Some (board, s', log) ∧
    (∀ r c, r < SIZE → c < SIZE →
       is_given board r c = negb (get board r c =? 0)%Z) ∧
    given_count board = filled_count board ∧
    23 ≤ given_count board ∧
    (27 < given_count board →
     log = call_solve_with_randomness :: replicate 81 call_count_solutions).
Proof. apply (expert_givens_at_least_23 (R := unit) tt). Defined.

(** C5, as stated, fails: [generate_simple] makes one call to the
    solver, the [solve_with_randomness] that completes the board before
    any cell is removed; no solvability check follows the removal. *)
Lemma generate_simple_makes_no_final_check :
  (λ '(_, _, log), log) <$> generate_simple Difficulty.EASY tt
  = Some [call_solve_with_randomness].
Proof. vm_compute. reflexivity. Qed.

(** C5, amended.  [generate_simple] completes a board, draws the number
    of cells to remove with [randint] over the range of the difficulty,
    shuffles the positions, and blanks exactly the first that many of
    them: the board returned is the complete board with those cells set
    to 0, so the number of filled cells is 81 minus the number drawn, and
    its given flags lie exactly on the filled cells.  The solver is
    called only to complete the board before the removal: nothing is
    verified afterwards.  The board returned is solvable all the same,
    because it is a complete valid grid with cells blanked: [solve] on a
    copy returns true and leaves a solution that keeps every filled
    cell. *)
Theorem generate_simple_unchecked_but_solvable {R : Type} `{RandomLaws R}
    (difficulty : string) (s : R) :
  ∃ full s0,
    _generate_complete_board s = Some (full, s0, [call_solve_with_randomness]) ∧
    solution full ∧
    let range := Difficulty.remove_count difficulty in
    let drawn := randint range.1 range.2 s0 in
    let shuffled := shuffle positions drawn.2 in
    ∃ board,
      generate_simple difficulty s
        = Some (board, shuffled.2, [call_solve_with_randomness]) ∧
      (range.1 ≤ drawn.1 ≤ range.2)%Z ∧
      (∀ r c, r < SIZE → c < SIZE →
         get board r c
         = if bool_decide ((r, c) ∈ take (Z.to_nat drawn.1) shuffled.1)
           then 0%Z else get full r c) ∧
      Z.of_nat (filled_count board) = (81 - drawn.1)%Z ∧
      (∀ r c, r < SIZE → c < SIZE →
         is_given board r c = negb (get board r c =? 0)%Z) ∧
      ∃ solved, solve (Board.copy board) = Some (true, solved) ∧
                solution solved ∧ extends board solved.
Proof.
  destruct (generate_simple_spec difficulty s)
    as (full & s0 & Hfull & Hsol & board & Hrun & Hnum & Hext & Hwf & Hcells
        & Hfc & _ & Hflags).
  exists full, s0. split; [done|]. split; [done|]. cbv zeta.
  exists board.
  split; [done|]. split; [exact Hnum|]. split; [exact Hcells|].
  split; [done|]. split; [exact Hflags|].
  rewrite copy_id. unfold solve.
  pose proof (empty_count_bound board) as Hfuel.
  destruct (solve_rec_complete FUEL board full Hsol Hwf Hfuel Hext)
    as (solved & Hrun').
  destruct (solve_rec_post FUEL board Hwf Hfuel)
    as (ok & b1 & Hrun1 & Hwf1 & _ & _ & Hok).
  rewrite Hrun' in Hrun1. injection Hrun1 as <- <-.
  destruct (Hok eq_refl) as [Hfilled Hcons].
  exists solved. split_and!; [done| |].
  - apply full_consistent_solution; [done..|].
    apply Hcons. by eapply extends_consistent.
  - by eapply solve_rec_extends.
Qed.

Lemma generate_simple_unchecked_but_solvable_witness :
  ∃ full s0,
    _generate_complete_board tt = Some (full, s0, [call_solve_with_randomness]) ∧
    solution full ∧
    let range := Difficulty.remove_count "medium" in
    let drawn := randint range.1 range.2 s0 in
    let shuffled := shuffle positions drawn.2 in
    ∃ board,
      generate_simple "medium" tt
        = Some (board, shuffled.2, [call_solve_with_randomness]) ∧
      (range.1 ≤ drawn.1 ≤ range.2)%Z ∧
      (∀ r c, r < SIZE → c < SIZE →
         get board r c
         = if bool_decide ((r, c) ∈ take (Z.to_nat drawn.1) shuffled.1)
           then 0%Z else get full r c) ∧
      Z.of_nat (filled_count board) = (81 - drawn.1)%Z ∧
      (∀ r c, r < SIZE → c < SIZE →
         is_given board r c = negb (get board r c =? 0)%Z) ∧
      ∃ solved, solve (Board.copy board) = Some (true, solved) ∧
                solution solved ∧ extends board solved.
Proof.
  apply (generate_simple_unchecked_but_solvable (R := unit) "medium" tt).
Defined.

End GeneratorClaims.

(** ** More on the board *)

Section BoardMore.
Import Board Spec.

Lemma wf_two_fives : wf Examples.two_fives.
Proof. unfold wf. simpl. split_and!; try done; by repeat constructor. Qed.



Lemma elem_of_omap_if {A B} (P : A → bool) (f : A → B) (l : list A) y :
  y ∈ omap (λ x, if P x then Some (f x) else None) l
  ↔ ∃ x, x ∈ l ∧ P x = true ∧ y = f x.
Proof.
  rewrite list_elem_of_omap. split.
  - intros (x & Hin & Hx). exists x. destruct (P x); naive_solver.
  - intros (x & Hin & HP & ->). exists x. by rewrite HP.
Qed.

Lemma get_conflicts_spec b row col r c :
  row < SIZE → col < SIZE →
  (r, c) ∈ get_conflicts b row col ↔
  peek b row col ≠ 0%Z ∧ r < SIZE ∧ c < SIZE ∧ peers r c row col ∧
  peek b r c = peek b row col.
Proof.
  intros Hrow Hcol. unfold get_conflicts. cbv zeta.
  destruct (Z.eqb_spec (peek b row col) 0) as [Hz|Hnz].
  { split; [by intros ?%elem_of_nil|]. by intros [? _]. }
  rewrite !elem_of_app, !elem_of_omap_if, list_elem_of_join. split.
  - intros [(c' & Hin & Hc & [= -> ->])|[(r' & Hin & Hr & [= -> ->])|
            (l & Hin & Hl)]].
    + apply line_range in Hin. apply andb_true_iff in Hc as [Hne Heq].
      apply negb_true_iff, Nat.eqb_neq in Hne. apply Z.eqb_eq in Heq.
      split_and!; try done. split; [congruence|by left].
    + apply line_range in Hin. apply andb_true_iff in Hr as [Hne Heq].
      apply negb_true_iff, Nat.eqb_neq in Hne. apply Z.eqb_eq in Heq.
      split_and!; try done. split; [congruence|by right; left].
    + apply list_elem_of_fmap in Hl as (r' & -> & Hr').
      apply elem_of_omap_if in Hin as (c' & Hc' & Hc & [= -> ->]).
      apply box_range in Hr', Hc'.
      apply andb_true_iff in Hc as [Hne Heq]. apply Z.eqb_eq in Heq.
      apply negb_true_iff in Hne. unfold cell_eqb in Hne. simpl in Hne.
      split_and!; try done; eauto using box_range_lt.
      split; [|by right; right].
      intros [= -> ->]. by rewrite !Nat.eqb_refl in Hne.
  - intros (_ & Hr & Hc & [Hne [->|[->|[Hbr Hbc]]]] & Heq).
    + left. exists c. split; [by apply line_range|]. split; [|done].
      apply andb_true_iff. split; [|by apply Z.eqb_eq].
      apply negb_true_iff, Nat.eqb_neq. congruence.
    + right. left. exists r. split; [by apply line_range|]. split; [|done].
      apply andb_true_iff. split; [|by apply Z.eqb_eq].
      apply negb_true_iff, Nat.eqb_neq. congruence.
    + right. right. eexists. split; last first.
      { apply list_elem_of_fmap. exists r. split; [reflexivity|].
        by apply box_range. }
      cbv beta. apply elem_of_omap_if. exists c.
      split; [by apply box_range|].
      split; [|done]. apply andb_true_iff. split; [|by apply Z.eqb_eq].
      apply negb_true_iff. unfold cell_eqb. simpl.
      apply andb_false_iff.
      destruct (Nat.eqb_spec r row), (Nat.eqb_spec c col); auto.
      congruence.
Qed.



(** X3.  The two checks agree: on an in-range filled cell,
    [get_conflicts] is empty exactly when [is_valid_move] accepts the
    value the cell holds. *)
Theorem no_conflicts_iff_valid (b : Board.t) (row col : nat) :
  row < SIZE → col < SIZE → get b row col ≠ 0%Z →
  get_conflicts b row col = [] ↔
  is_valid_move b row col (get b row col) = true.
Proof.
  intros Hrow Hcol Hnz. unfold get in *.
  rewrite is_valid_move_spec by done. split.
  - intros Hnil r c Hr Hc Hp Heq.
    assert (Hin : (r, c) ∈ get_conflicts b row col).
    { by apply get_conflicts_spec. }
    rewrite Hnil in Hin. by apply elem_of_nil in Hin.
  - intros Hall. apply elem_of_nil_inv. intros [r c] Hin.
    apply get_conflicts_spec in Hin as (_ & Hr & Hc & Hp & Heq); [|done..].
    by apply (Hall r c).
Qed.

Lemma no_conflicts_iff_valid_witness :
  get_conflicts Examples.two_fives 0 0 = [] ↔
  is_valid_move Examples.two_fives 0 0 (get Examples.two_fives 0 0) = true.
Proof.
  apply (no_conflicts_iff_valid Examples.two_fives 0 0);
    [unfold SIZE; lia..|]. by vm_compute.
Defined.

Lemma is_complete_spec b :
  is_complete b = true ↔
  ∀ r c, r < SIZE → c < SIZE →
    peek b r c ≠ 0%Z ∧ is_valid_move b r c (peek b r c) = true.
Proof.
  unfold is_complete. rewrite forallb_forall. split.
  - intros Hall r c Hr Hc.
    specialize (Hall (r, c)). cbv beta iota in Hall.
    rewrite <- list_elem_of_In, elem_of_positions in Hall.
    specialize (Hall (conj Hr Hc)).
    apply andb_true_iff in Hall as [Hnz Hv].
    by apply negb_true_iff, Z.eqb_neq in Hnz.
  - intros Hall [r c] Hin.
    apply list_elem_of_In, elem_of_positions in Hin as [Hr Hc].
    destruct (Hall r c Hr Hc) as [Hnz Hv].
    apply andb_true_iff. split; [|done]. by apply negb_true_iff, Z.eqb_neq.
Qed.

(** X4.  [is_complete] returns true exactly when every cell is filled
    and no two cells of a row, a column or a box hold the same value.  It
    does not ask the values to be in 1..9; a complete board is a filled
    one. *)
Theorem is_complete_iff (b : Board.t) :
  (is_complete b = true ↔
   ∀ r c, r < SIZE → c < SIZE →
     get b r c ≠ 0%Z ∧
     ∀ r' c', r' < SIZE → c' < SIZE → peers r' c' r c →
              get b r' c' ≠ get b r c) ∧
  (is_complete b = true → is_filled b = true).
Proof.
  split.
  - rewrite is_complete_spec. split; intros Hall r c Hr Hc;
      destruct (Hall r c Hr Hc) as [Hnz Hv]; (split; [done|]).
    + by apply is_valid_move_spec.
    + by apply is_valid_move_spec.
  - rewrite is_complete_spec. intros Hall. unfold is_filled.
    apply forallb_forall. intros [r c] Hin.
    apply list_elem_of_In, elem_of_positions in Hin as [Hr Hc].
    destruct (Hall r c Hr Hc) as [Hnz _].
    by apply negb_true_iff, Z.eqb_neq.
Qed.

Lemma solution_is_complete sol : solution sol → is_complete sol = true.
Proof.
  intros [Hwf Hsol]. apply is_complete_spec. intros r c Hr Hc.
  destruct (Hsol r c Hr Hc) as [Hnum Hv]. split; [|done].
  by apply numbers_nonzero.
Qed.

(** X5.  [set] touches one cell: on a board of the standard shape it
    keeps the shape, never changes a given flag, and leaves every other
    cell as it was, whether it succeeds or not. *)
Theorem set_frame (b : Board.t) (row col : nat) (v : Z) :
  wf b →
  wf (set b row col v).2 ∧
  given (set b row col v).2 = given b ∧
  ∀ r c, (r, c) ≠ (row, col) → get (set b row col v).2 r c = get b r c.
Proof.
  intros Hwf. unfold set, get. destruct (is_given b row col); simpl.
  - done.
  - split_and!; [by apply wf_poke|apply given_poke|].
    intros r c Hne. by apply peek_poke_other.
Qed.

Lemma set_frame_witness :
  wf (set Board.new 2 3 7%Z).2 ∧
  given (set Board.new 2 3 7%Z).2 = given Board.new ∧
  ∀ r c, (r, c) ≠ (2, 3) →
         get (set Board.new 2 3 7%Z).2 r c = get Board.new r c.
Proof. apply (set_frame Board.new 2 3 7%Z wf_new). Defined.

(** X6.  [mark_given] locks a cell: on an in-range cell of a board of
    the standard shape it changes no cell value and no other flag, the
    cell is then reported as given, and [set] on it returns false and
    leaves the board as it is. *)
Theorem mark_given_locks_cell (b : Board.t) (row col : nat) (v : Z) :
  wf b → row < SIZE → col < SIZE →
  grid (mark_given b row col) = grid b ∧
  is_given (mark_given b row col) row col = true ∧
  (∀ r c, (r, c) ≠ (row, col) →
          is_given (mark_given b row col) r c = is_given b r c) ∧
  set (mark_given b row col) row col v = (false, mark_given b row col).
Proof.
  intros Hwf Hrow Hcol.
  pose proof (is_given_mark_given_same b row col Hwf Hrow Hcol) as Hg.
  split_and!; [apply grid_mark_given|done| |].
  - intros r c Hne. by apply is_given_mark_given_other.
  - unfold set. by rewrite Hg.
Qed.

Lemma mark_given_locks_cell_witness :
  grid (mark_given Board.new 4 4) = grid Board.new ∧
  is_given (mark_given Board.new 4 4) 4 4 = true ∧
  (∀ r c, (r, c) ≠ (4, 4) →
          is_given (mark_given Board.new 4 4) r c = is_given Board.new r c) ∧
  set (mark_given Board.new 4 4) 4 4 9%Z = (false, mark_given Board.new 4 4).
Proof.
  apply (mark_given_locks_cell Board.new 4 4 9%Z wf_new); unfold SIZE; lia.
Defined.

(** X7.  Saving and loading a board gives the same board back:
    [from_dict (to_dict b)] succeeds with [b], whatever [b] holds, and
    serializing the result again gives the same record. *)
Theorem to_dict_from_dict (b : Board.t) :
  from_dict (to_dict b) = inr b ∧
  ∀ b', from_dict (to_dict b) = inr b' → to_dict b' = to_dict b.
Proof.
  assert (H : from_dict (to_dict b) = inr b) by (by destruct b).
  split; [done|]. intros b' Hb'. rewrite H in Hb'. by injection Hb' as <-.
Qed.

End BoardMore.

(** ** More on the solver *)

Section SolverMore.
Import Board Solver Spec.

Lemma find_first {A} (f : A → bool) (l : list A) x :
  List.find f l = Some x →
  ∃ l1 l2, l = l1 ++ x :: l2 ∧ Forall (λ y, f y = false) l1 ∧ f x = true.
Proof.
  induction l as [|a l IH]; simpl; [done|].
  destruct (f a) eqn:Hfa.
  - intros [= ->]. by exists [], l.
  - intros Hf. destruct (IH Hf) as (l1 & l2 & -> & Hall & Hx).
    exists (a :: l1), l2. split_and!; [done| |done]. by constructor.
Qed.

Lemma positions_keys : map cell_key positions = seq 0 81.
Proof. reflexivity. Qed.

Lemma positions_before l1 x l2 p :
  positions = l1 ++ x :: l2 → p ∈ positions →
  cell_key p < cell_key x → p ∈ l1.
Proof.
  intros Hsplit Hin Hlt.
  pose proof positions_keys as Hk. rewrite Hsplit in Hk.
  assert (Hx : cell_key x = length l1).
  { pose proof (f_equal (λ l, l !! length l1) Hk) as Hl. cbv beta in Hl.
    rewrite map_app in Hl.
    rewrite lookup_app_r in Hl by (by rewrite length_map).
    rewrite length_map, Nat.sub_diag in Hl.
    change (map cell_key (x :: l2) !! 0) with (Some (cell_key x)) in Hl.
    symmetry in Hl. apply lookup_seq in Hl as [Hl _]. lia. }
  rewrite Hsplit in Hin. apply elem_of_app in Hin as [Hin|Hin]; [done|].
  apply elem_of_cons in Hin as [->|Hin]; [lia|].
  apply list_elem_of_lookup in Hin as [j Hj].
  pose proof (f_equal (λ l, l !! (length l1 + S j)) Hk) as Hl.
  cbv beta in Hl. rewrite map_app in Hl.
  rewrite lookup_app_r in Hl by (rewrite length_map; lia).
  rewrite length_map in Hl.
  replace (length l1 + S j - length l1) with (S j) in Hl by lia.
  change (map cell_key (x :: l2) !! S j) with ((cell_key <$> l2) !! j) in Hl.
  rewrite list_lookup_fmap, Hj in Hl.
  change (cell_key <$> Some p) with (Some (cell_key p)) in Hl.
  symmetry in Hl. apply lookup_seq in Hl as [Hl _]. lia.
Qed.

(** X8.  [_find_empty_cell] returns the first empty cell in row-major
    order: the cell it returns is in range and empty, and every cell
    before it (in an earlier row, or earlier in its row) is filled; it
    returns nothing exactly when [is_filled] holds. *)
Theorem find_empty_first (b : Board.t) :
  (∀ row col, _find_empty_cell b = Some (row, col) →
     row < SIZE ∧ col < SIZE ∧ get b row col = 0%Z ∧
     ∀ r c, r < SIZE → c < SIZE → r < row ∨ (r = row ∧ c < col) →
            get b r c ≠ 0%Z) ∧
  (_find_empty_cell b = None ↔ is_filled b = true).
Proof.
  split.
  - intros row col Hf.
    destruct (find_empty_Some b row col Hf) as (Hz & Hrow & Hcol).
    split_and!; [done..|]. intros r c Hr Hc Hbefore.
    apply find_first in Hf as (l1 & l2 & Hsplit & Hall & _).
    assert (Hin : (r, c) ∈ l1).
    { apply (positions_before l1 (row, col) l2); [done| |].
      - by apply elem_of_positions.
      - unfold cell_key, SIZE in *. simpl. lia. }
    rewrite Forall_forall in Hall. specialize (Hall _ Hin).
    by apply Z.eqb_neq in Hall.
  - unfold is_filled. rewrite forallb_forall. split.
    + intros Hf [r c] Hin.
      apply list_elem_of_In, elem_of_positions in Hin as [Hr Hc].
      apply negb_true_iff, Z.eqb_neq. by apply (find_empty_None b).
    + intros Hall. unfold _find_empty_cell.
      destruct (List.find _ _) as [[r c]|] eqn:Hf; [|done].
      apply find_some in Hf as [Hin Hz]. specialize (Hall _ Hin).
      cbv beta iota in Hall. by rewrite Hz in Hall.
Qed.

End SolverMore.

(** ** What the count of solutions means *)

Section Counting.
Import Board Solver Spec.

Lemma valid_of_solution b sol row col :
  solution sol → extends b sol → row < SIZE → col < SIZE →
  is_valid_move b row col (peek sol row col) = true.
Proof.
  intros [Hwfs Hsol] Hext Hrow Hcol.
  apply is_valid_move_spec; [done..|]. intros r c Hr Hc Hp Heq.
  destruct (Hsol row col Hrow Hcol) as [Hnum Hvs].
  rewrite is_valid_move_spec in Hvs by done.
  apply (Hvs r c Hr Hc Hp). rewrite <- Heq. apply Hext; [done..|].
  rewrite Heq. by apply numbers_nonzero.
Qed.

Lemma extends_poke_solution b sol row col :
  wf b → row < SIZE → col < SIZE → extends b sol →
  extends (poke b row col (peek sol row col)) sol.
Proof.
  intros Hwf Hrow Hcol Hext r c Hr Hc Hnz.
  destruct (decide ((r, c) = (row, col))) as [[= -> ->]|Hne].
  - by rewrite peek_poke_same.
  - rewrite peek_poke_other in Hnz |- * by done. by apply Hext.
Qed.

Lemma numbers_all_nonzero nums :
  Forall (λ num, num ∈ numbers) nums → Forall (λ num, num ≠ 0%Z) nums.
Proof.
  intros H. eapply Forall_impl; [exact H|]. intros num. apply numbers_nonzero.
Qed.

Variable limit : Z.

Lemma count_each_range (rec : Board.t → Z → option (Board.t * Z)) n row col :
  (∀ b1 c1, wf b1 → empty_count b1 < n →
     ∃ c', rec b1 c1 = Some (b1, c') ∧ (c1 ≤ c' ≤ Z.max c1 limit)%Z) →
  row < SIZE → col < SIZE →
  ∀ nums b count, Forall (λ num, num ≠ 0%Z) nums →
    wf b → peek b row col = 0%Z → empty_count b ≤ n →
    ∃ c', count_each rec row col nums b count = Some (b, c') ∧
          (count ≤ c' ≤ Z.max count limit)%Z.
Proof.
  intros Hrec Hrow Hcol. induction nums as [|num nums IH];
    intros b count Hnz Hwf Hz Hn; simpl.
  - exists count. split; [done|lia].
  - apply Forall_cons in Hnz as [Hnum Hnz].
    destruct (is_valid_move b row col num); [|by apply IH].
    destruct (Hrec (poke b row col num) count) as (c1 & -> & Hc1).
    { by apply wf_poke. }
    { pose proof (empty_count_poke b row col num Hwf Hrow Hcol Hz Hnum). lia. }
    rewrite poke_restore by done.
    destruct (IH b c1 Hnz Hwf Hz Hn) as (c2 & -> & Hc2).
    exists c2. split; [done|lia].
Qed.

Lemma backtrack_range fuel b count :
  wf b → empty_count b < fuel →
  ∃ c', backtrack fuel limit b count = Some (b, c') ∧
        (count ≤ c' ≤ Z.max count limit)%Z.
Proof.
  revert b count. induction fuel as [|fuel IH]; intros b count Hwf Hn; [lia|].
  rewrite backtrack_S. destruct (Z.leb_spec limit count).
  { exists count. split; [done|lia]. }
  destruct (_find_empty_cell b) as [[row col]|] eqn:Hf.
  - apply find_empty_Some in Hf as (Hz & Hrow & Hcol).
    apply (count_each_range _ fuel); try done; [|lia].
    apply Forall_forall. intros num Hin. by apply numbers_nonzero.
  - exists (count + 1)%Z. split; [done|lia].
Qed.

(** One solution raises the count by one, unless the limit is reached. *)
Lemma count_each_one (rec : Board.t → Z → option (Board.t * Z)) n row col sol :
  (∀ b1 c1, wf b1 → empty_count b1 < n →
     ∃ c', rec b1 c1 = Some (b1, c') ∧ (c1 ≤ c' ≤ Z.max c1 limit)%Z) →
  (∀ b1 c1 c', wf b1 → empty_count b1 < n → extends b1 sol →
     rec b1 c1 = Some (b1, c') → (Z.min limit (c1 + 1) ≤ c')%Z) →
  row < SIZE → col < SIZE → solution sol →
  ∀ nums b count c2, Forall (λ num, num ∈ numbers) nums →
    peek sol row col ∈ nums →
    wf b → peek b row col = 0%Z → empty_count b ≤ n → extends b sol →
    count_each rec row col nums b count = Some (b, c2) →
    (Z.min limit (count + 1) ≤ c2)%Z.
Proof.
  intros Hrec Hone Hrow Hcol Hsol. induction nums as [|num nums IH];
    intros b count c2 Hnums Hin Hwf Hz Hn Hext Hrun; simpl in Hrun.
  { by apply elem_of_nil in Hin. }
  apply Forall_cons in Hnums as [Hnum Hnums].
  pose proof (numbers_nonzero _ Hnum) as Hnz.
  destruct (is_valid_move b row col num) eqn:Hv.
  - assert (Hlt : empty_count (poke b row col num) < n).
    { pose proof (empty_count_poke b row col num Hwf Hrow Hcol Hz Hnz). lia. }
    pose proof (wf_poke b row col num Hwf) as Hwf1.
    destruct (Hrec _ count Hwf1 Hlt) as (c1 & Hr1 & Hc1).
    rewrite Hr1, poke_restore in Hrun by done.
    destruct (count_each_range rec n row col Hrec Hrow Hcol nums b c1
                (numbers_all_nonzero _ Hnums) Hwf Hz Hn) as (c3 & Hr3 & Hc3).
    rewrite Hr3 in Hrun. injection Hrun as <-.
    destruct (decide (num = peek sol row col)) as [->|Hne].
    + pose proof (Hone _ count c1 Hwf1 Hlt
        (extends_poke_solution b sol row col Hwf Hrow Hcol Hext) Hr1). lia.
    + apply elem_of_cons in Hin as [Heq|Hin]; [congruence|].
      pose proof (IH b c1 c3 Hnums Hin Hwf Hz Hn Hext Hr3). lia.
  - apply elem_of_cons in Hin as [Heq|Hin].
    + rewrite <- Heq, (valid_of_solution b sol row col) in Hv by done. done.
    + by apply (IH b count c2).
Qed.

(** Two solutions that differ raise the count by two, unless the limit
    is reached. *)
Lemma count_each_two (rec : Board.t → Z → option (Board.t * Z)) n row col
    sol1 sol2 :
  (∀ b1 c1, wf b1 → empty_count b1 < n →
     ∃ c', rec b1 c1 = Some (b1, c') ∧ (c1 ≤ c' ≤ Z.max c1 limit)%Z) →
  (∀ sol b1 c1 c', solution sol → wf b1 → empty_count b1 < n →
     extends b1 sol →
     rec b1 c1 = Some (b1, c') → (Z.min limit (c1 + 1) ≤ c')%Z) →
  (∀ b1 c1 c', wf b1 → empty_count b1 < n →
     extends b1 sol1 → extends b1 sol2 →
     rec b1 c1 = Some (b1, c') → (Z.min limit (c1 + 2) ≤ c')%Z) →
  row < SIZE → col < SIZE → solution sol1 → solution sol2 →
  ∀ nums b count c2, NoDup nums → Forall (λ num, num ∈ numbers) nums →
    peek sol1 row col ∈ nums → peek sol2 row col ∈ nums →
    wf b → peek b row col = 0%Z → empty_count b ≤ n →
    extends b sol1 → extends b sol2 →
    count_each rec row col nums b count = Some (b, c2) →
    (Z.min limit (count + 2) ≤ c2)%Z.
Proof.
  intros Hrec Hone Htwo Hrow Hcol Hsol1 Hsol2.
  induction nums as [|num nums IH];
    intros b count c2 Hnd Hnums Hin1 Hin2 Hwf Hz Hn Hext1 Hext2 Hrun;
    simpl in Hrun.
  { by apply elem_of_nil in Hin1. }
  apply NoDup_cons in Hnd as [Hnin Hnd].
  apply Forall_cons in Hnums as [Hnum Hnums].
  pose proof (numbers_nonzero _ Hnum) as Hnz.
  destruct (is_valid_move b row col num) eqn:Hv.
  - assert (Hlt : empty_count (poke b row col num) < n).
    { pose proof (empty_count_poke b row col num Hwf Hrow Hcol Hz Hnz). lia. }
    pose proof (wf_poke b row col num Hwf) as Hwf1.
    destruct (Hrec _ count Hwf1 Hlt) as (c1 & Hr1 & Hc1).
    rewrite Hr1, poke_restore in Hrun by done.
    destruct (count_each_range rec n row col Hrec Hrow Hcol nums b c1
                (numbers_all_nonzero _ Hnums) Hwf Hz Hn) as (c3 & Hr3 & Hc3).
    rewrite Hr3 in Hrun. injection Hrun as <-.
    pose proof (extends_poke_solution b sol1 row col Hwf Hrow Hcol Hext1) as E1.
    pose proof (extends_poke_solution b sol2 row col Hwf Hrow Hcol Hext2) as E2.
    destruct (decide (num = peek sol1 row col)) as [Heq1|Hne1],
             (decide (num = peek sol2 row col)) as [Heq2|Hne2].
    + rewrite <- Heq1 in E1. rewrite <- Heq2 in E2.
      pose proof (Htwo _ count c1 Hwf1 Hlt E1 E2 Hr1). lia.
    + rewrite <- Heq1 in E1.
      pose proof (Hone sol1 _ count c1 Hsol1 Hwf1 Hlt E1 Hr1).
      apply elem_of_cons in Hin2 as [Heq|Hin2]; [congruence|].
      pose proof (count_each_one rec n row col sol2 Hrec (λ b1 c1 c', Hone sol2 b1 c1 c' Hsol2)
                    Hrow Hcol Hsol2 nums b c1 c3 Hnums Hin2 Hwf Hz Hn Hext2 Hr3).
      lia.
    + rewrite <- Heq2 in E2.
      pose proof (Hone sol2 _ count c1 Hsol2 Hwf1 Hlt E2 Hr1).
      apply elem_of_cons in Hin1 as [Heq|Hin1]; [congruence|].
      pose proof (count_each_one rec n row col sol1 Hrec (λ b1 c1 c', Hone sol1 b1 c1 c' Hsol1)
                    Hrow Hcol Hsol1 nums b c1 c3 Hnums Hin1 Hwf Hz Hn Hext1 Hr3).
      lia.
    + apply elem_of_cons in Hin1 as [Heq|Hin1]; [congruence|].
      apply elem_of_cons in Hin2 as [Heq|Hin2]; [congruence|].
      pose proof (IH b c1 c3 Hnd Hnums Hin1 Hin2 Hwf Hz Hn Hext1 Hext2 Hr3).
      lia.
  - apply elem_of_cons in Hin1 as [Heq|Hin1].
    { rewrite <- Heq, (valid_of_solution b sol1 row col) in Hv by done. done. }
    apply elem_of_cons in Hin2 as [Heq|Hin2].
    { rewrite <- Heq, (valid_of_solution b sol2 row col) in Hv by done. done. }
    by apply (IH b count c2).
Qed.

(** A count that goes up has found a solution. *)
Lemma count_each_sound (rec : Board.t → Z → option (Board.t * Z)) n row col :
  (∀ b1 c1, wf b1 → empty_count b1 < n →
     ∃ c', rec b1 c1 = Some (b1, c') ∧ (c1 ≤ c' ≤ Z.max c1 limit)%Z) →
  (∀ b1 c1 c', wf b1 → empty_count b1 < n → consistent b1 →
     rec b1 c1 = Some (b1, c') → (c1 < c')%Z → solvable b1) →
  row < SIZE → col < SIZE →
  ∀ nums b count c2, Forall (λ num, num ∈ numbers) nums →
    wf b → peek b row col = 0%Z → empty_count b ≤ n → consistent b →
    count_each rec row col nums b count = Some (b, c2) →
    (count < c2)%Z → solvable b.
Proof.
  intros Hrec Hsound Hrow Hcol. induction nums as [|num nums IH];
    intros b count c2 Hnums Hwf Hz Hn Hcons Hrun Hup; simpl in Hrun.
  { injection Hrun as <-. lia. }
  apply Forall_cons in Hnums as [Hnum Hnums].
  pose proof (numbers_nonzero _ Hnum) as Hnz.
  destruct (is_valid_move b row col num) eqn:Hv; [|by apply (IH b count c2)].
  assert (Hlt : empty_count (poke b row col num) < n).
  { pose proof (empty_count_poke b row col num Hwf Hrow Hcol Hz Hnz). lia. }
  pose proof (wf_poke b row col num Hwf) as Hwf1.
  destruct (Hrec _ count Hwf1 Hlt) as (c1 & Hr1 & Hc1).
  rewrite Hr1, poke_restore in Hrun by done.
  destruct (Z.lt_ge_cases count c1) as [Hlt1|Hge1].
  - destruct (Hsound _ count c1 Hwf1 Hlt) as (sol & Hsol & Hext); try done.
    { by apply consistent_poke. }
    exists sol. split; [done|]. by apply (extends_poke b row col num).
  - apply (IH b c1 c2); try done. lia.
Qed.

Lemma numbers_all : Forall (λ num, num ∈ numbers) numbers.
Proof. by apply Forall_forall. Qed.

Lemma backtrack_one fuel sol : ∀ b count c',
  solution sol → wf b → empty_count b < fuel → extends b sol →
  backtrack fuel limit b count = Some (b, c') →
  (Z.min limit (count + 1) ≤ c')%Z.
Proof.
  induction fuel as [|fuel IH]; intros b count c' Hsol Hwf Hn Hext Hrun; [lia|].
  rewrite backtrack_S in Hrun. destruct (Z.leb_spec limit count).
  { injection Hrun as <-. lia. }
  destruct (_find_empty_cell b) as [[row col]|] eqn:Hf.
  - apply find_empty_Some in Hf as (Hz & Hrow & Hcol).
    refine (count_each_one _ fuel row col sol _ _ Hrow Hcol Hsol numbers
              b count c' numbers_all _ Hwf Hz _ Hext Hrun); [| | |lia].
    + intros. by apply backtrack_range.
    + intros b1 c1 c1' ? ? ? ?. by apply (IH b1 c1 c1').
    + by apply Hsol.
  - injection Hrun as <-. lia.
Qed.

Lemma backtrack_two fuel sol1 sol2 : ∀ b count c',
  solution sol1 → solution sol2 → grid sol1 ≠ grid sol2 →
  wf b → empty_count b < fuel → extends b sol1 → extends b sol2 →
  backtrack fuel limit b count = Some (b, c') →
  (Z.min limit (count + 2) ≤ c')%Z.
Proof.
  induction fuel as [|fuel IH];
    intros b count c' Hsol1 Hsol2 Hdiff Hwf Hn Hext1 Hext2 Hrun; [lia|].
  rewrite backtrack_S in Hrun. destruct (Z.leb_spec limit count).
  { injection Hrun as <-. lia. }
  destruct (_find_empty_cell b) as [[row col]|] eqn:Hf.
  - apply find_empty_Some in Hf as (Hz & Hrow & Hcol).
    refine (count_each_two _ fuel row col sol1 sol2 _ _ _ Hrow Hcol Hsol1 Hsol2
              numbers b count c' NoDup_numbers numbers_all _ _ Hwf Hz _
              Hext1 Hext2 Hrun); [| | | | |lia].
    + intros. by apply backtrack_range.
    + intros sol b1 c1 c1' ? ? ? ? ?. by apply (backtrack_one fuel sol b1 c1 c1').
    + intros b1 c1 c1' ? ? ? ? ?. by apply (IH b1 c1 c1').
    + by apply Hsol1.
    + by apply Hsol2.
  - exfalso. apply Hdiff. apply grid_ext; [apply Hsol1|apply Hsol2|].
    intros r c Hr Hc.
    pose proof (find_empty_None b r c Hf Hr Hc) as Hnz.
    by rewrite (Hext1 r c Hr Hc Hnz), (Hext2 r c Hr Hc Hnz).
Qed.

Lemma backtrack_sound fuel : ∀ b count c',
  wf b → empty_count b < fuel → consistent b →
  backtrack fuel limit b count = Some (b, c') → (count < c')%Z → solvable b.
Proof.
  induction fuel as [|fuel IH]; intros b count c' Hwf Hn Hcons Hrun Hup; [lia|].
  rewrite backtrack_S in Hrun. destruct (Z.leb_spec limit count).
  { injection Hrun as <-. lia. }
  destruct (_find_empty_cell b) as [[row col]|] eqn:Hf.
  - apply find_empty_Some in Hf as (Hz & Hrow & Hcol).
    refine (count_each_sound _ fuel row col _ _ Hrow Hcol numbers b count c'
              numbers_all Hwf Hz _ Hcons Hrun Hup); [| |lia].
    + intros. by apply backtrack_range.
    + intros b1 c1 c1' ? ? ? ? ?. by apply (IH b1 c1 c1').
  - exists b. split; [by apply full_consistent_solution|].
    apply solution_extends_self.
Qed.

(** A count that goes up has found a solution whose value at the cell
    is one of the candidates. *)
Lemma count_each_found (rec : Board.t → Z → option (Board.t * Z)) n row col :
  (∀ b1 c1, wf b1 → empty_count b1 < n →
     ∃ c', rec b1 c1 = Some (b1, c') ∧ (c1 ≤ c' ≤ Z.max c1 limit)%Z) →
  (∀ b1 c1 c', wf b1 → empty_count b1 < n → consistent b1 →
     rec b1 c1 = Some (b1, c') → (c1 < c')%Z → solvable b1) →
  row < SIZE → col < SIZE →
  ∀ nums b count c2, Forall (λ num, num ∈ numbers) nums →
    wf b → peek b row col = 0%Z → empty_count b ≤ n → consistent b →
    count_each rec row col nums b count = Some (b, c2) →
    (count < c2)%Z →
    ∃ sol, solution sol ∧ extends b sol ∧ peek sol row col ∈ nums.
Proof.
  intros Hrec Hsound Hrow Hcol. induction nums as [|num nums IH];
    intros b count c2 Hnums Hwf Hz Hn Hcons Hrun Hup; simpl in Hrun.
  { injection Hrun as <-. lia. }
  apply Forall_cons in Hnums as [Hnum Hnums].
  pose proof (numbers_nonzero _ Hnum) as Hnz.
  destruct (is_valid_move b row col num) eqn:Hv.
  - assert (Hlt : empty_count (poke b row col num) < n).
    { pose proof (empty_count_poke b row col num Hwf Hrow Hcol Hz Hnz). lia. }
    pose proof (wf_poke b row col num Hwf) as Hwf1.
    destruct (Hrec _ count Hwf1 Hlt) as (c1 & Hr1 & Hc1).
    rewrite Hr1, poke_restore in Hrun by done.
    destruct (Z.lt_ge_cases count c1) as [Hlt1|Hge1].
    + destruct (Hsound _ count c1 Hwf1 Hlt) as (sol & Hsol & Hext); try done.
      { by apply consistent_poke. }
      exists sol. split_and!; [done|by apply (extends_poke b row col num)|].
      rewrite (Hext row col Hrow Hcol), peek_poke_same by
        (rewrite ?peek_poke_same; done).
      by left.
    + destruct (IH b c1 c2) as (sol & Hsol & Hext & Hin); try done; [lia|].
      exists sol. split_and!; [done..|]. by right.
  - destruct (IH b count c2) as (sol & Hsol & Hext & Hin); try done.
    exists sol. split_and!; [done..|]. by right.
Qed.

Lemma ambiguous_poke b row col num :
  peek b row col = 0%Z → ambiguous (poke b row col num) → ambiguous b.
Proof.
  intros Hz (sol1 & sol2 & Hs1 & Hs2 & He1 & He2 & Hd).
  exists sol1, sol2. split_and!; try done; by apply (extends_poke b row col num).
Qed.

(** A count that goes up by two has found two solutions that differ. *)
Lemma count_each_found_two (rec : Board.t → Z → option (Board.t * Z)) n row col :
  (∀ b1 c1, wf b1 → empty_count b1 < n →
     ∃ c', rec b1 c1 = Some (b1, c') ∧ (c1 ≤ c' ≤ Z.max c1 limit)%Z) →
  (∀ b1 c1 c', wf b1 → empty_count b1 < n → consistent b1 →
     rec b1 c1 = Some (b1, c') → (c1 < c')%Z → solvable b1) →
  (∀ b1 c1 c', wf b1 → empty_count b1 < n → consistent b1 →
     rec b1 c1 = Some (b1, c') → (c1 + 2 ≤ c')%Z → ambiguous b1) →
  row < SIZE → col < SIZE →
  ∀ nums b count c2, NoDup nums → Forall (λ num, num ∈ numbers) nums →
    wf b → peek b row col = 0%Z → empty_count b ≤ n → consistent b →
    count_each rec row col nums b count = Some (b, c2) →
    (count + 2 ≤ c2)%Z → ambiguous b.
Proof.
  intros Hrec Hsound Htwo Hrow Hcol. induction nums as [|num nums IH];
    intros b count c2 Hnd Hnums Hwf Hz Hn Hcons Hrun Hup; simpl in Hrun.
  { injection Hrun as <-. lia. }
  apply NoDup_cons in Hnd as [Hnin Hnd].
  apply Forall_cons in Hnums as [Hnum Hnums].
  pose proof (numbers_nonzero _ Hnum) as Hnz.
  destruct (is_valid_move b row col num) eqn:Hv;
    [|by apply (IH b count c2)].
  assert (Hlt : empty_count (poke b row col num) < n).
  { pose proof (empty_count_poke b row col num Hwf Hrow Hcol Hz Hnz). lia. }
  pose proof (wf_poke b row col num Hwf) as Hwf1.
  pose proof (consistent_poke b row col num Hwf Hrow Hcol Hz Hnum Hv Hcons)
    as Hcons1.
  destruct (Hrec _ count Hwf1 Hlt) as (c1 & Hr1 & Hc1).
  rewrite Hr1, poke_restore in Hrun by done.
  destruct (Z.le_gt_cases (count + 2) c1) as [Hbig|Hsmall].
  { apply (ambiguous_poke b row col num Hz).
    by apply (Htwo _ count c1). }
  destruct (Z.lt_ge_cases count c1) as [Hlt1|Hge1];
    [|apply (IH b c1 c2); try done; lia].
  destruct (Hsound _ count c1 Hwf1 Hlt Hcons1 Hr1 Hlt1)
    as (sol1 & Hsol1 & Hext1).
  destruct (count_each_found rec n row col Hrec Hsound Hrow Hcol nums b c1 c2
              Hnums Hwf Hz Hn Hcons Hrun) as (sol2 & Hsol2 & Hext2 & Hin2);
    [lia|].
  exists sol1, sol2.
  split_and!; [done|done|by apply (extends_poke b row col num)|done|].
  intros Hsame. apply Hnin.
  assert (Hp1 : peek sol1 row col = num).
  { rewrite (Hext1 row col Hrow Hcol); rewrite peek_poke_same; done. }
  specialize (Hsame row col Hrow Hcol). unfold get in Hsame. congruence.
Qed.

Lemma backtrack_found_two fuel : ∀ b count c',
  wf b → empty_count b < fuel → consistent b →
  backtrack fuel limit b count = Some (b, c') → (count + 2 ≤ c')%Z →
  ambiguous b.
Proof.
  induction fuel as [|fuel IH]; intros b count c' Hwf Hn Hcons Hrun Hup; [lia|].
  rewrite backtrack_S in Hrun. destruct (Z.leb_spec limit count).
  { injection Hrun as <-. lia. }
  destruct (_find_empty_cell b) as [[row col]|] eqn:Hf.
  - apply find_empty_Some in Hf as (Hz & Hrow & Hcol).
    refine (count_each_found_two _ fuel row col _ _ _ Hrow Hcol numbers b
              count c' NoDup_numbers numbers_all Hwf Hz _ Hcons Hrun Hup);
      [| | |lia].
    + intros. by apply backtrack_range.
    + intros b1 c1 c1' ? ? ? ? ?. by apply (backtrack_sound fuel b1 c1 c1').
    + intros b1 c1 c1' ? ? ? ? ?. by apply (IH b1 c1 c1').
  - injection Hrun as <-. lia.
Qed.

End Counting.

(** *** Boards used by the examples *)

Section ExampleBoards.
Import Board Solver Spec.

Lemma peek_new r c : peek Board.new r c = 0%Z.
Proof.
  unfold peek, Board.new. cbn [grid].
  destruct (replicate SIZE (replicate SIZE 0%Z) !! r) as [cells|] eqn:Hrow;
    [|done].
  apply lookup_replicate in Hrow as [-> _].
  destruct (replicate SIZE 0%Z !! c) as [v|] eqn:Hcell; [|done].
  by apply lookup_replicate in Hcell as [-> _].
Qed.

Lemma consistent_new : consistent Board.new.
Proof. intros r c Hr Hc Hnz. by rewrite peek_new in Hnz. Qed.

Lemma extends_new sol : extends Board.new sol.
Proof. intros r c Hr Hc Hnz. by rewrite peek_new in Hnz. Qed.

Lemma wf_first_solution : wf Examples.first_solution.
Proof. unfold wf. simpl. split_and!; try done; by repeat constructor. Qed.

Lemma solution_check b :
  wf b →
  forallb (λ '(r, c), bool_decide (peek b r c ∈ numbers)
                      && is_valid_move b r c (peek b r c)) positions = true →
  solution b.
Proof.
  intros Hwf Hall. split; [done|]. intros r c Hr Hc.
  rewrite forallb_forall in Hall. specialize (Hall (r, c)).
  cbv beta iota in Hall.
  rewrite <- list_elem_of_In, elem_of_positions in Hall.
  specialize (Hall (conj Hr Hc)). apply andb_true_iff in Hall as [Hn Hv].
  split; [|done]. by apply bool_decide_eq_true in Hn.
Qed.

Lemma solution_first_solution : solution Examples.first_solution.
Proof.
  apply solution_check; [apply wf_first_solution|]. vm_compute. reflexivity.
Qed.

Lemma same_cells_grid b1 b2 : grid b1 = grid b2 → same_cells b1 b2.
Proof. intros Hg r c _ _. unfold get, peek. by rewrite Hg. Qed.

Lemma same_cells_grid_inv b1 b2 :
  wf b1 → wf b2 → same_cells b1 b2 → grid b1 = grid b2.
Proof. intros Hwf1 Hwf2 Hs. by apply grid_ext. Qed.

Lemma solvable_new : solvable Board.new.
Proof.
  exists Examples.first_solution.
  split; [apply solution_first_solution|apply extends_new].
Qed.

End ExampleBoards.

(** ** What the searches find *)

Section SolverResults.
Import Board Solver Spec.

Lemma is_filled_full b : _find_empty_cell b = None → is_filled b = true.
Proof.
  intros Hf. unfold is_filled. apply forallb_forall. intros [r c] Hin.
  apply list_elem_of_In, elem_of_positions in Hin as [Hr Hc].
  apply negb_true_iff, Z.eqb_neq. by apply (find_empty_None b).
Qed.

Lemma solve_run b :
  wf b →
  ∃ ok b', solve b = Some (ok, b') ∧ wf b' ∧ given b' = given b ∧
    (ok = false → b' = b ∧ ¬ solvable b) ∧
    (ok = true → _find_empty_cell b' = None ∧ extends b b' ∧
                 (consistent b → solution b')).
Proof.
  intros Hwf. pose proof (empty_count_bound b) as Hfuel.
  destruct (solve_rec_post FUEL b Hwf Hfuel)
    as (ok & b' & Hrun & Hwf' & Hg & Hf & Ht).
  exists ok, b'. split_and!; try done.
  - intros ->. split; [by apply Hf|]. intros (sol & Hsol & Hext).
    destruct (solve_rec_complete FUEL b sol Hsol Hwf Hfuel Hext) as (b1 & Hrun1).
    unfold solve in Hrun. congruence.
  - intros ->. destruct (Ht eq_refl) as [Hfull Hcons].
    split_and!; [done|by apply (solve_rec_extends FUEL)|].
    intros Hc. apply full_consistent_solution; auto.
Qed.

(** X9.  [solve] on a board of the standard shape whose filled cells
    hold numbers of 1..9 that do not clash: the call returns; it returns
    true exactly when some solution keeps the filled cells of the board;
    on true the board has become such a solution, with the given flags
    as they were; on false the board is as it was. *)
Theorem solve_correct (b : Board.t) :
  wf b → consistent b →
  ∃ ok b', solve b = Some (ok, b') ∧
    (ok = true ↔ solvable b) ∧
    (ok = true → solution b' ∧ extends b b' ∧ given b' = given b) ∧
    (ok = false → b' = b).
Proof.
  intros Hwf Hc.
  destruct (solve_run b Hwf) as (ok & b' & Hrun & Hwf' & Hg & Hf & Ht).
  exists ok, b'. split_and!; try done.
  - split.
    + intros Hok. destruct (Ht Hok) as (_ & Hext & Hsol).
      exists b'. split; [by apply Hsol|done].
    + intros Hs. destruct ok; [done|]. by destruct (Hf eq_refl) as [_ []].
  - intros Hok. destruct (Ht Hok) as (_ & Hext & Hsol). split_and!; auto.
  - intros Hok. by apply Hf.
Qed.

Lemma solve_correct_witness :
  ∃ ok b', solve Board.new = Some (ok, b') ∧
    (ok = true ↔ solvable Board.new) ∧
    (ok = true → solution b' ∧ extends Board.new b' ∧
                 given b' = given Board.new) ∧
    (ok = false → b' = Board.new).
Proof. apply (solve_correct Board.new); [apply wf_new|apply consistent_new]. Defined.

(** X10.  [solve] does not look at the cells that are filled: on any
    board of the standard shape, clashing or not, it returns, it writes
    into empty cells only, a true result leaves no cell empty, and a
    false result leaves the board as it was and means that no solution
    keeps the filled cells.  A full board is reported solved as it
    stands. *)
Theorem solve_any_board (b : Board.t) :
  wf b →
  ∃ ok b', solve b = Some (ok, b') ∧ given b' = given b ∧
    (ok = true → is_filled b' = true ∧ extends b b') ∧
    (ok = false → b' = b ∧ ¬ solvable b) ∧
    (is_filled b = true → ok = true ∧ b' = b).
Proof.
  intros Hwf.
  destruct (solve_run b Hwf) as (ok & b' & Hrun & Hwf' & Hg & Hf & Ht).
  exists ok, b'. split_and!; try done.
  - intros Hok. destruct (Ht Hok) as (Hfull & Hext & _).
    split; [by apply is_filled_full|done].
  - intros Hfill.
    assert (Hnone : _find_empty_cell b = None).
    { unfold _find_empty_cell.
      destruct (List.find _ _) as [[r c]|] eqn:Hfind; [|done].
      apply find_some in Hfind as [Hin Hz].
      unfold is_filled in Hfill. rewrite forallb_forall in Hfill.
      specialize (Hfill _ Hin). cbv beta iota in Hfill.
      by rewrite Hz in Hfill. }
    unfold solve, FUEL in Hrun. rewrite solve_rec_S, Hnone in Hrun.
    by injection Hrun as <- <-.
Qed.

Lemma solve_any_board_witness :
  ∃ ok b', solve Examples.two_fives = Some (ok, b') ∧
    given b' = given Examples.two_fives ∧
    (ok = true → is_filled b' = true ∧ extends Examples.two_fives b') ∧
    (ok = false → b' = Examples.two_fives ∧ ¬ solvable Examples.two_fives) ∧
    (is_filled Examples.two_fives = true → ok = true ∧ b' = Examples.two_fives).
Proof. apply (solve_any_board Examples.two_fives), wf_two_fives. Defined.

Section Randomized.
Context {R : Type} `{RandomLaws R}.

(** X11.  [solve_with_randomness], whatever the shuffles: on a board of
    the standard shape whose filled cells do not clash the call returns;
    it returns true exactly when some solution keeps the filled cells;
    on true the board has become such a solution; on false the board is
    as it was. *)
Theorem solve_with_randomness_correct (b : Board.t) (s : R) :
  wf b → consistent b →
  ∃ ok b' s', solve_with_randomness b s = Some (ok, b', s') ∧
    (ok = true ↔ solvable b) ∧
    (ok = true → solution b' ∧ extends b b' ∧ given b' = given b) ∧
    (ok = false → b' = b).
Proof.
  intros Hwf Hc. pose proof (empty_count_bound b) as Hfuel.
  destruct (solve_with_randomness_rec_post FUEL b s Hwf Hfuel)
    as (ok & b' & s' & Hrun & Hwf' & Hg & Hf & Ht).
  exists ok, b', s'. split_and!; try done.
  - split.
    + intros ->. destruct (Ht eq_refl) as [Hfull Hcons].
      exists b'. split; [apply full_consistent_solution; auto|].
      by apply (solve_with_randomness_rec_extends FUEL b s b' s').
    + intros (sol & Hsol & Hext).
      destruct (solve_with_randomness_rec_complete FUEL b s sol Hsol Hwf
                  Hfuel Hext) as (b1 & s1 & Hrun1).
      congruence.
  - intros ->. destruct (Ht eq_refl) as [Hfull Hcons].
    split_and!; [apply full_consistent_solution; auto| |done].
    by apply (solve_with_randomness_rec_extends FUEL b s b' s').
Qed.

End Randomized.

Lemma solve_with_randomness_correct_witness :
  ∃ ok b' s', solve_with_randomness Board.new tt = Some (ok, b', s') ∧
    (ok = true ↔ solvable Board.new) ∧
    (ok = true → solution b' ∧ extends Board.new b' ∧
                 given b' = given Board.new) ∧
    (ok = false → b' = Board.new).
Proof.
  apply (solve_with_randomness_correct Board.new tt);
    [apply wf_new|apply consistent_new].
Defined.

(** *** Counting *)

Lemma count_solutions_run b limit :
  wf b →
  ∃ n, count_solutions b limit = Some (n, b) ∧
    (0 ≤ n ≤ Z.max 0 limit)%Z ∧
    (solvable b → (Z.min limit 1 ≤ n)%Z) ∧
    (ambiguous b → (Z.min limit 2 ≤ n)%Z) ∧
    (consistent b → (0 < n)%Z → solvable b) ∧
    (consistent b → (2 ≤ n)%Z → ambiguous b).
Proof.
  intros Hwf. pose proof (empty_count_bound b) as Hfuel.
  unfold count_solutions.
  destruct (backtrack_range limit FUEL b 0 Hwf Hfuel) as (n & Hrun & Hn).
  rewrite Hrun. exists n. split; [done|]. split; [lia|]. split_and!.
  - intros (sol & Hsol & Hext).
    by apply (backtrack_one limit FUEL sol b 0 n).
  - intros (sol1 & sol2 & Hs1 & Hs2 & He1 & He2 & Hd).
    apply (backtrack_two limit FUEL sol1 sol2 b 0 n); try done.
    intros Hg. apply Hd. by apply same_cells_grid.
  - intros Hc Hpos. by apply (backtrack_sound limit FUEL b 0 n).
  - intros Hc Hpos. by apply (backtrack_found_two limit FUEL b 0 n).
Qed.

(** X12.  [count_solutions] on a board of the standard shape returns,
    for every limit, a count between 0 and the limit (0 when the limit is
    not positive), and hands the board back as it was. *)
Theorem count_solutions_bounded (b : Board.t) (limit : Z) :
  wf b →
  ∃ n, count_solutions b limit = Some (n, b) ∧
    (0 ≤ n)%Z ∧ (n ≤ Z.max 0 limit)%Z ∧ ((limit ≤ 0)%Z → n = 0%Z).
Proof.
  intros Hwf. destruct (count_solutions_run b limit Hwf) as (n & Hrun & Hn & _).
  exists n. split_and!; [done|lia..].
Qed.

Lemma count_solutions_bounded_witness :
  ∃ n, count_solutions Examples.two_fives 2 = Some (n, Examples.two_fives) ∧
    (0 ≤ n)%Z ∧ (n ≤ Z.max 0 2)%Z ∧ ((2 ≤ 0)%Z → n = 0%Z).
Proof. apply (count_solutions_bounded Examples.two_fives 2), wf_two_fives. Defined.

(** X13.  With a positive limit, on a board whose filled cells do not
    clash, [count_solutions] returns 0 exactly when no solution keeps the
    filled cells of the board. *)
Theorem count_zero_iff_unsolvable (b : Board.t) (limit : Z) :
  wf b → consistent b → (0 < limit)%Z →
  ∃ n, count_solutions b limit = Some (n, b) ∧ (n = 0%Z ↔ ¬ solvable b).
Proof.
  intros Hwf Hc Hlim.
  destruct (count_solutions_run b limit Hwf)
    as (n & Hrun & Hn & Hone & _ & Hsound & _).
  exists n. split; [done|]. split.
  - intros -> Hs. specialize (Hone Hs). lia.
  - intros Hns. destruct (Z.eq_dec n 0) as [|Hne]; [done|].
    exfalso. apply Hns, Hsound; [done|lia].
Qed.

Lemma count_zero_iff_unsolvable_witness :
  ∃ n, count_solutions Board.new 2 = Some (n, Board.new) ∧
    (n = 0%Z ↔ ¬ solvable Board.new).
Proof.
  apply (count_zero_iff_unsolvable Board.new 2);
    [apply wf_new|apply consistent_new|lia].
Defined.

(** X14.  With a limit of at least 2 (the generator uses 2), on a board
    whose filled cells do not clash: [count_solutions] returns 1 exactly
    when one and only one solution keeps the filled cells of the board,
    and it returns 2 or more exactly when two solutions that differ do. *)
Theorem count_one_iff_only_solution (b : Board.t) (limit : Z) :
  wf b → consistent b → (2 ≤ limit)%Z →
  ∃ n, count_solutions b limit = Some (n, b) ∧
    (n = 1%Z ↔ ∃ sol, only_solution b sol) ∧
    ((2 ≤ n)%Z ↔ ambiguous b).
Proof.
  intros Hwf Hc Hlim.
  destruct (count_solutions_run b limit Hwf)
    as (n & Hrun & Hn & Hone & Htwo & Hsound & Hsound2).
  exists n. split; [done|]. split; split.
  - intros ->. destruct (Hsound Hc) as (sol & Hsol & Hext); [lia|].
    exists sol. split_and!; [done..|]. intros sol' Hsol' Hext'.
    destruct (decide (grid sol' = grid sol)) as [Hg|Hg];
      [by apply same_cells_grid|].
    exfalso. assert (Ha : ambiguous b).
    { exists sol', sol. split_and!; try done. intros Hs. apply Hg.
      apply same_cells_grid_inv; [apply Hsol'|apply Hsol|done]. }
    specialize (Htwo Ha). lia.
  - intros (sol & Hsol & Hext & Honly).
    assert (Hs : solvable b) by (by exists sol). specialize (Hone Hs).
    destruct (Z.le_gt_cases 2 n) as [Hbig|Hsmall]; [|lia].
    destruct (Hsound2 Hc Hbig) as (sol1 & sol2 & Hs1 & Hs2 & He1 & He2 & Hd).
    exfalso. apply Hd. intros r c Hr Hcc.
    by rewrite (Honly sol1 Hs1 He1 r c Hr Hcc), (Honly sol2 Hs2 He2 r c Hr Hcc).
  - by apply Hsound2.
  - intros Ha. specialize (Htwo Ha). lia.
Qed.

Lemma count_one_iff_only_solution_witness :
  ∃ n, count_solutions Examples.first_solution 2
       = Some (n, Examples.first_solution) ∧
    (n = 1%Z ↔ ∃ sol, only_solution Examples.first_solution sol) ∧
    ((2 ≤ n)%Z ↔ ambiguous Examples.first_solution).
Proof.
  apply (count_one_iff_only_solution Examples.first_solution 2);
    [apply wf_first_solution| |lia].
  apply (extends_consistent _ Examples.first_solution);
    [apply solution_first_solution|apply solution_extends_self].
Defined.

(** *** Hints and solutions *)

Lemma find_ext_in {A} (f g : A → bool) (l : list A) :
  (∀ x, x ∈ l → f x = g x) → List.find f l = List.find g l.
Proof.
  induction l as [|x l IH]; intros Hall; [done|]. simpl.
  rewrite (Hall x) by left. destruct (g x); [done|].
  apply IH. intros y Hy. apply Hall. by right.
Qed.

(** [get_hint], when the caller's board is [b]: the hint is read off the
    board that [solve] leaves of a copy. *)
Lemma get_hint_run (h : Store.heap) (l : Store.ref) b :
  h !! l = Some b → wf b →
  ∃ ok b' h', solve b = Some (ok, b') ∧
    Store.get_hint l h
    = Some (if ok then
              match _find_empty_cell b with
              | Some (row, col) => Some (row, col, peek b' row col)
              | None => None
              end
            else None, h').
Proof.
  intros Hl Hwf.
  unfold Store.get_hint, Store.copy, Store.solve, Store.call. rewrite Hl.
  rewrite lookup_app_r, Nat.sub_diag by done. cbn [lookup list_lookup].
  rewrite copy_id.
  destruct (solve_run b Hwf) as (ok & b' & Hrun & Hwf' & Hg & Hf & Ht).
  rewrite Hrun. cbv beta iota.
  assert (Hold : <[length h := b']> (h ++ [b]) !! l = Some b).
  { pose proof (lookup_lt_Some _ _ _ Hl).
    rewrite list_lookup_insert_ne by lia. by rewrite lookup_app_l. }
  rewrite Hold.
  rewrite list_lookup_insert_eq by (rewrite length_app; simpl; lia).
  exists ok, b', (<[length h := b']> (h ++ [b])). split; [done|].
  destruct ok; [|done]. destruct (Ht eq_refl) as (Hfull & _).
  unfold _find_empty_cell at 1.
  rewrite (find_ext_in _ (λ '(row, col), (peek b row col =? 0)%Z)); [done|].
  intros [r c] Hin. apply elem_of_positions in Hin as [Hr Hc].
  pose proof (find_empty_None b' r c Hfull Hr Hc) as Hnz.
  apply Z.eqb_neq in Hnz. rewrite Hnz. apply andb_true_r.
Qed.

(** X15.  [get_hint] on a solvable board with an empty cell, whose
    filled cells do not clash: the hint is for the first empty cell in
    row-major order; its value is a number of 1..9 that is a legal move
    on the caller's board, and it is the value of that cell in a solution
    that keeps the filled cells. *)
Theorem get_hint_first_empty_cell (h : Store.heap) (l : Store.ref)
    (b : Board.t) (row col : nat) :
  h !! l = Some b → wf b → consistent b → solvable b →
  _find_empty_cell b = Some (row, col) →
  ∃ v h', Store.get_hint l h = Some (Some (row, col, v), h') ∧
    v ∈ numbers ∧ is_valid_move b row col v = true ∧
    ∃ sol, solution sol ∧ extends b sol ∧ peek sol row col = v.
Proof.
  intros Hl Hwf Hc Hs Hfind.
  destruct (get_hint_run h l b Hl Hwf) as (ok & b' & h' & Hrun & Hhint).
  destruct (solve_run b Hwf) as (ok1 & b1 & Hrun1 & _ & _ & Hf & Ht).
  rewrite Hrun in Hrun1. injection Hrun1 as <- <-.
  destruct ok; [|by destruct (Hf eq_refl) as [_ []]].
  destruct (Ht eq_refl) as (_ & Hext & Hsol). specialize (Hsol Hc).
  rewrite Hfind in Hhint.
  apply find_empty_Some in Hfind as (Hz & Hrow & Hcol).
  exists (peek b' row col), h'. split_and!; [done| | |].
  - by apply Hsol.
  - by apply valid_of_solution.
  - by exists b'.
Qed.

Lemma get_hint_first_empty_cell_witness :
  ∃ v h', Store.get_hint 0 [Board.new] = Some (Some (0, 0, v), h') ∧
    v ∈ numbers ∧ is_valid_move Board.new 0 0 v = true ∧
    ∃ sol, solution sol ∧ extends Board.new sol ∧ peek sol 0 0 = v.
Proof.
  apply (get_hint_first_empty_cell [Board.new] 0 Board.new 0 0);
    [reflexivity|apply wf_new|apply consistent_new|apply solvable_new|
     reflexivity].
Defined.

(** X16.  [get_hint] on a board whose filled cells do not clash returns
    None in two cases only: the board has no empty cell, or no solution
    keeps its filled cells. *)
Theorem get_hint_none_iff (h : Store.heap) (l : Store.ref) (b : Board.t) :
  h !! l = Some b → wf b → consistent b →
  ((∃ h', Store.get_hint l h = Some (None, h')) ↔
   _find_empty_cell b = None ∨ ¬ solvable b).
Proof.
  intros Hl Hwf Hc.
  destruct (get_hint_run h l b Hl Hwf) as (ok & b' & h' & Hrun & Hhint).
  destruct (solve_run b Hwf) as (ok1 & b1 & Hrun1 & _ & _ & Hf & Ht).
  rewrite Hrun in Hrun1. injection Hrun1 as <- <-.
  rewrite Hhint. split.
  - intros (h1 & Heq). destruct ok; [|right; by apply Hf].
    left. destruct (_find_empty_cell b) as [[row col]|]; [done|done].
  - intros [Hnone|Hns].
    + exists h'. rewrite Hnone. by destruct ok.
    + destruct ok; [|by exists h'].
      exfalso. apply Hns. destruct (Ht eq_refl) as (_ & Hext & Hsol).
      exists b'. split; [by apply Hsol|done].
Qed.

Lemma get_hint_none_iff_witness :
  (∃ h', Store.get_hint 0 [Examples.first_solution] = Some (None, h')) ↔
  _find_empty_cell Examples.first_solution = None
  ∨ ¬ solvable Examples.first_solution.
Proof.
  apply (get_hint_none_iff [Examples.first_solution] 0 Examples.first_solution);
    [reflexivity|apply wf_first_solution|].
  apply (extends_consistent _ Examples.first_solution);
    [apply solution_first_solution|apply solution_extends_self].
Defined.

(** X17.  [get_solution] on a board whose filled cells do not clash
    returns a solution that keeps the filled cells and the given flags of
    the board, or None when there is no such solution. *)
Theorem get_solution_correct (b : Board.t) :
  wf b → consistent b →
  ∃ res, get_solution b = Some res ∧
    match res with
    | Some sol => solution sol ∧ extends b sol ∧ given sol = given b
    | None => ¬ solvable b
    end.
Proof.
  intros Hwf Hc. unfold get_solution. rewrite copy_id.
  destruct (solve_run b Hwf) as (ok & b' & -> & _ & Hg & Hf & Ht).
  destruct ok.
  - exists (Some b'). split; [done|].
    destruct (Ht eq_refl) as (_ & Hext & Hsol). split_and!; auto.
  - exists None. split; [done|]. by apply Hf.
Qed.

Lemma get_solution_correct_witness :
  ∃ res, get_solution Board.new = Some res ∧
    match res with
    | Some sol => solution sol ∧ extends Board.new sol ∧
                  given sol = given Board.new
    | None => ¬ solvable Board.new
    end.
Proof. apply (get_solution_correct Board.new); [apply wf_new|apply consistent_new]. Defined.

End SolverResults.

(** ** More about the generator *)

Section GeneratorResults.
Import Board Solver Generator Spec Completion.

(** A count of 1 on a copy means that the solution at hand is the only
    one. *)
Lemma unique_only_solution b full :
  wf b → unique b → solution full → extends b full → only_solution b full.
Proof.
  intros Hwf Hu Hsol Hext. split_and!; [done..|]. intros sol' Hsol' Hext'.
  destruct (decide (grid sol' = grid full)) as [Hg|Hg];
    [by apply same_cells_grid|].
  exfalso. unfold unique in Hu. rewrite copy_id in Hu.
  destruct (count_solutions_run b 2 Hwf) as (n & Hrun & _ & _ & Htwo & _).
  rewrite Hrun in Hu. injection Hu as ->.
  assert (Ha : ambiguous b).
  { exists sol', full. split_and!; try done. intros Hs. apply Hg.
    apply same_cells_grid_inv; [apply Hsol'|apply Hsol|done]. }
  specialize (Htwo Ha). lia.
Qed.

Lemma all_calls_replicate (log : list call) :
  Forall (λ c, c = call_count_solutions) log →
  log = replicate (length log) call_count_solutions.
Proof.
  induction 1 as [|c log -> _ IH]; [done|]. simpl. by rewrite <- IH.
Qed.

Lemma remove_count_unknown difficulty :
  difficulty ∉ [Difficulty.EASY; Difficulty.MEDIUM; Difficulty.HARD;
                Difficulty.EXPERT] →
  Difficulty.remove_count difficulty
  = Difficulty.remove_count Difficulty.EASY.
Proof.
  intros Hnin. unfold Difficulty.remove_count, Difficulty.REMOVE_COUNT.
  rewrite !not_elem_of_cons in Hnin.
  destruct Hnin as (H1 & H2 & H3 & H4 & _).
  rewrite lookup_insert_ne by done. rewrite lookup_insert_ne by done.
  rewrite lookup_insert_ne by done. rewrite lookup_insert_ne by done.
  rewrite lookup_empty. by rewrite lookup_insert_eq.
Qed.

Section Runs.
Context {R : Type} `{RandomLaws R}.

(** X18.  [_fill_diagonal_boxes] on the empty board, whatever the
    shuffles: each of the three diagonal boxes receives the numbers 1..9,
    each once; every cell outside these boxes stays empty and no flag is
    set. *)
Theorem fill_diagonal_boxes_permutations (s : R) :
  ∃ b s', _fill_diagonal_boxes Board.new s = (b, s') ∧
    wf b ∧ given b = given Board.new ∧
    (∀ k, k < 3 →
       (λ i, peek b (3 * k + i / 3) (3 * k + i mod 3)) <$> seq 0 9
       ≡ₚ numbers) ∧
    (∀ r c, r < SIZE → c < SIZE → r / 3 ≠ c / 3 → peek b r c = 0%Z).
Proof.
  destruct (_fill_diagonal_boxes_seed s)
    as (n0 & n1 & n2 & s' & Hrun & Hp0 & Hp1 & Hp2).
  exists (seed n0 n1 n2), s'.
  pose proof (Permutation_length Hp0) as L0.
  pose proof (Permutation_length Hp1) as L1.
  pose proof (Permutation_length Hp2) as L2.
  change (length numbers) with 9 in L0, L1, L2.
  split_and!; [done|apply wf_seed|apply given_seed| |].
  - intros k Hk.
    assert (Hlist : (λ i, peek (seed n0 n1 n2) (3 * k + i / 3)
                            (3 * k + i mod 3)) <$> seq 0 9
                    = nth k [n0; n1; n2] []).
    { do 10 (destruct n0 as [|? n0]; try done).
      do 10 (destruct n1 as [|? n1]; try done).
      do 10 (destruct n2 as [|? n2]; try done).
      do 3 (destruct k as [|k]; [vm_compute; reflexivity|]). lia. }
    rewrite Hlist.
    do 3 (destruct k as [|k]; [done|]). lia.
  - intros r c Hr Hc Hne. rewrite peek_seed by done.
    destruct (Nat.eqb_spec (r / 3) (c / 3)); done.
Qed.

(** X19.  [_generate_complete_board] drops the flag that
    [solve_with_randomness] returns.  Whatever the random choices, that
    search succeeds: the board returned is full and free of clashes
    ([is_complete] holds), with numbers of 1..9 and no flag set. *)
Theorem complete_board_is_solution (s : R) :
  ∃ full s',
    _generate_complete_board s = Some (full, s', [call_solve_with_randomness]) ∧
    solution full ∧ is_complete full = true ∧
    ∀ r c, is_given full r c = false.
Proof.
  destruct (_generate_complete_board_spec s) as (full & s' & Hrun & Hsol & Hg).
  exists full, s'. split_and!; [done..|by apply solution_is_complete|].
  intros r c. by apply is_given_new_flags.
Qed.

(** [_remove_cells] on a full valid board. *)
Lemma remove_cells_run full count (s : R) :
  solution full →
  ∃ b' s' log, _remove_cells full count s = Some (b', s', log) ∧
    wf b' ∧ unique b' ∧ given b' = given full ∧ extends b' full ∧
    Forall (λ c, c = call_count_solutions) log ∧ length log ≤ 81 ∧
    filled_count b' ≤ 81 ∧
    (81 - Z.of_nat (filled_count b') ≤ Z.max 0 count)%Z ∧
    ((81 - Z.of_nat (filled_count b') < count)%Z →
     (Z.of_nat (length log) < count * 3)%Z → length log = 81).
Proof.
  intros Hsol. unfold _remove_cells.
  pose proof (shuffle_perm _ positions s) as Hp.
  destruct (shuffle positions s) as [ps s2]. simpl in Hp.
  destruct (solution_stack full (reverse ps) Hsol) as [Hnd Hall].
  { by rewrite reverse_Permutation. }
  assert (Hlen : length (reverse ps) = 81).
  { by rewrite length_reverse, Hp. }
  destruct (remove_loop_spec (reverse ps) count (count * 3)%Z 0%Z 0%Z full
              (proj1 Hsol) (unique_solution _ Hsol) Hnd Hall)
    as (b' & log & -> & Hwf' & Hu' & Hgv' & Hext' & Hlog & Hll & Hle & Hk & Hstop).
  pose proof (filled_count_full full (solution_full _ Hsol)) as Hfull.
  rewrite Hfull in Hle, Hk, Hstop. rewrite Hlen in Hll, Hstop.
  exists b', s2, log. split_and!; try done; lia.
Qed.

(** X20.  [_remove_cells] on a full valid board, for every count and
    whatever the shuffle: the board it leaves agrees with the full board
    on every cell that is still filled, at most [count] cells are
    emptied (none when [count] is not positive), the flags are untouched,
    and the full board is the one and only solution of what is left. *)
Theorem remove_cells_keeps_one_solution (full : Board.t) (count : Z) (s : R) :
  solution full →
  ∃ b' s' log, _remove_cells full count s = Some (b', s', log) ∧
    extends b' full ∧ only_solution b' full ∧ given b' = given full ∧
    (81 - Z.of_nat (filled_count b') ≤ Z.max 0 count)%Z ∧
    filled_count b' ≤ 81.
Proof.
  intros Hsol.
  destruct (remove_cells_run full count s Hsol)
    as (b' & s' & log & Hrun & Hwf' & Hu' & Hgv' & Hext' & _ & _ & Hle & Hk & _).
  exists b', s', log. split_and!; try done.
  by apply unique_only_solution.
Qed.

(** What a run of [generate] gives, cell by cell. *)
Lemma generate_run difficulty (s : R) :
  ∃ full board s' log num,
    generate difficulty s
      = Some (board, s', call_solve_with_randomness :: log) ∧
    ((Difficulty.remove_count difficulty).1 ≤ num
       ≤ (Difficulty.remove_count difficulty).2)%Z ∧
    solution full ∧ extends board full ∧ wf board ∧ unique board ∧
    (∀ r c, r < SIZE → c < SIZE →
       is_given board r c = negb (peek board r c =? 0)%Z) ∧
    Forall (λ c, c = call_count_solutions) log ∧ length log ≤ 81 ∧
    filled_count board ≤ 81 ∧
    (81 - Z.of_nat (filled_count board) ≤ num)%Z.
Proof.
  unfold generate.
  destruct (_generate_complete_board_spec s) as (full & s0 & -> & Hsol & Hgv).
  pose proof (remove_count_bounds difficulty) as Hb.
  destruct (Difficulty.remove_count difficulty) as [lo hi]. simpl in Hb.
  pose proof (randint_range lo hi s0 ltac:(lia)) as Hnum.
  destruct (randint lo hi s0) as [num s1]. simpl in Hnum.
  destruct (remove_cells_run full num s1 Hsol)
    as (b' & s2 & log & -> & Hwf' & Hu' & Hgv' & Hext' & Hlog & Hll & Hle & Hk & _).
  destruct (mark_nonzero_given_spec b' Hwf') as (Hwfm & Hgm & Hfl).
  exists full, (mark_nonzero_given b'), s2, log, num. cbn [fst snd].
  rewrite (filled_count_same_grid _ _ Hgm).
  split_and!; try done; try lia.
  - by apply (extends_same_grid b').
  - by apply (unique_same_grid b').
  - intros r c Hr Hc. rewrite Hfl by done.
    rewrite (is_given_new_flags b' r c) by congruence.
    unfold peek. by rewrite Hgm.
Qed.

(** X21.  The puzzle that [generate] returns has exactly one solution,
    in the plain sense: the complete board the generator started from
    keeps every filled cell of the puzzle, and every solution that does
    so is equal to it cell for cell.  [solve] on the puzzle finds it. *)
Theorem generate_exactly_one_solution (difficulty : string) (s : R) :
  ∃ board s' log sol,
    generate difficulty s = Some (board, s', log) ∧
    only_solution board sol ∧ is_complete sol = true ∧
    ∃ b', solve board = Some (true, b') ∧ same_cells b' sol.
Proof.
  destruct (generate_run difficulty s)
    as (full & board & s' & log & num & Hrun & _ & Hsol & Hext & Hwf & Hu & _).
  pose proof (unique_only_solution board full Hwf Hu Hsol Hext) as Honly.
  exists board, s', (call_solve_with_randomness :: log), full.
  split_and!; [done..|by apply solution_is_complete|].
  destruct (solve_run board Hwf) as (ok & b' & Hsolve & _ & _ & Hf & Ht).
  destruct ok.
  - exists b'. split; [done|]. destruct (Ht eq_refl) as (_ & Hext' & Hs').
    apply Honly; [|done]. apply Hs'. by apply (extends_consistent _ full).
  - destruct (Hf eq_refl) as [_ []]. by exists full.
Qed.

(** X22.  In the puzzle that [generate] returns, the given cells are
    exactly the filled cells: a cell is flagged if and only if it holds a
    number, so [set] is refused on every filled cell and accepted on
    every empty one. *)
Theorem generate_givens_are_filled (difficulty : string) (s : R) :
  ∃ board s' log,
    generate difficulty s = Some (board, s', log) ∧
    ∀ r c v, r < SIZE → c < SIZE →
      (is_given board r c = true ↔ get board r c ≠ 0%Z) ∧
      ((set board r c v).1 = true ↔ get board r c = 0%Z).
Proof.
  destruct (generate_run difficulty s)
    as (full & board & s' & log & num & Hrun & _ & _ & _ & _ & _ & Hfl & _).
  exists board, s', (call_solve_with_randomness :: log). split; [done|].
  intros r c v Hr Hc. unfold set, get. rewrite (Hfl r c Hr Hc).
  destruct (Z.eqb_spec (peek board r c) 0) as [->|Hne]; simpl; split; split;
    try done.
Qed.

(** X23.  For every difficulty string, [generate] empties at most the
    upper bound of the difficulty's range, which is one of 45, 49, 53 and
    58, so that at least 23 cells stay filled in every case; and it calls
    the solver at most 82 times: once to complete the board, then
    [count_solutions] at most once per cell. *)
Theorem generate_removal_bounds (difficulty : string) (s : R) :
  ∃ board s' k,
    generate difficulty s
      = Some (board, s',
              call_solve_with_randomness :: replicate k call_count_solutions) ∧
    k ≤ 81 ∧ 23 ≤ filled_count board ≤ 81 ∧
    (81 - Z.of_nat (filled_count board)
       ≤ (Difficulty.remove_count difficulty).2)%Z ∧
    Difficulty.remove_count difficulty
      ∈ [(40, 45)%Z; (46, 49)%Z; (50, 53)%Z; (54, 58)%Z].
Proof.
  destruct (generate_run difficulty s)
    as (full & board & s' & log & num & Hrun & Hnum & _ & _ & _ & _ & _
        & Hlog & Hlen & Hle & Hk).
  pose proof (remove_count_bounds difficulty) as Hb.
  exists board, s', (length log).
  rewrite <- (all_calls_replicate log Hlog).
  split; [exact Hrun|]. split; [exact Hlen|]. split; [lia|].
  split; [lia|apply remove_count_cases].
Qed.

End Runs.

(** X24.  A difficulty string that is none of the four names is treated
    as easy, by [generate] and by [generate_simple], for every random
    source. *)
Theorem unknown_difficulty_is_easy {R : Type} `{Random R}
    (difficulty : string) (s : R) :
  difficulty ∉ [Difficulty.EASY; Difficulty.MEDIUM; Difficulty.HARD;
                Difficulty.EXPERT] →
  generate difficulty s = generate Difficulty.EASY s ∧
  generate_simple difficulty s = generate_simple Difficulty.EASY s.
Proof.
  intros Hnin. unfold generate, generate_simple.
  by rewrite (remove_count_unknown difficulty Hnin).
Qed.

Lemma fill_diagonal_boxes_permutations_witness :
  ∃ b s', _fill_diagonal_boxes Board.new tt = (b, s') ∧
    wf b ∧ given b = given Board.new ∧
    (∀ k, k < 3 →
       (λ i, peek b (3 * k + i / 3) (3 * k + i mod 3)) <$> seq 0 9
       ≡ₚ numbers) ∧
    (∀ r c, r < SIZE → c < SIZE → r / 3 ≠ c / 3 → peek b r c = 0%Z).
Proof. apply (fill_diagonal_boxes_permutations (R := unit) tt). Defined.

Lemma complete_board_is_solution_witness :
  ∃ full s',
    _generate_complete_board tt = Some (full, s', [call_solve_with_randomness]) ∧
    solution full ∧ is_complete full = true ∧
    ∀ r c, is_given full r c = false.
Proof. apply (complete_board_is_solution (R := unit) tt). Defined.

Lemma remove_cells_keeps_one_solution_witness :
  ∃ b' s' log,
    _remove_cells Examples.first_solution 3 tt = Some (b', s', log) ∧
    extends b' Examples.first_solution ∧
    only_solution b' Examples.first_solution ∧
    given b' = given Examples.first_solution ∧
    (81 - Z.of_nat (filled_count b') ≤ Z.max 0 3)%Z ∧
    filled_count b' ≤ 81.
Proof.
  apply (remove_cells_keeps_one_solution (R := unit) Examples.first_solution
           3 tt), solution_first_solution.
Defined.

Lemma generate_exactly_one_solution_witness :
  ∃ board s' log sol,
    generate "medium" tt = Some (board, s', log) ∧
    only_solution board sol ∧ is_complete sol = true ∧
    ∃ b', solve board = Some (true, b') ∧ same_cells b' sol.
Proof. apply (generate_exactly_one_solution (R := unit) "medium" tt). Defined.

Lemma generate_givens_are_filled_witness :
  ∃ board s' log,
    generate "easy" tt = Some (board, s', log) ∧
    ∀ r c v, r < SIZE → c < SIZE →
      (is_given board r c = true ↔ get board r c ≠ 0%Z) ∧
      ((set board r c v).1 = true ↔ get board r c = 0%Z).
Proof. apply (generate_givens_are_filled (R := unit) "easy" tt). Defined.

Lemma generate_removal_bounds_witness :
  ∃ board s' k,
    generate "hard" tt
      = Some (board, s',
              call_solve_with_randomness :: replicate k call_count_solutions) ∧
    k ≤ 81 ∧ 23 ≤ filled_count board ≤ 81 ∧
    (81 - Z.of_nat (filled_count board)
       ≤ (Difficulty.remove_count "hard").2)%Z ∧
    Difficulty.remove_count "hard"
      ∈ [(40, 45)%Z; (46, 49)%Z; (50, 53)%Z; (54, 58)%Z].
Proof. apply (generate_removal_bounds (R := unit) "hard" tt). Defined.

Lemma unknown_difficulty_is_easy_witness :
  generate "insane" tt = generate Difficulty.EASY tt ∧
  generate_simple "insane" tt = generate_simple Difficulty.EASY tt.
Proof.
  apply (unknown_difficulty_is_easy (R := unit) "insane" tt).
  rewrite !not_elem_of_cons. split_and!; try done. apply not_elem_of_nil.
Defined.

End GeneratorResults.

(** ** The game state *)

Section GameStateFacts.
Import Board GameState.

Lemma wrap_range (n : nat) (d : Z) : Z.to_nat ((Z.of_nat n + d) mod 9) < SIZE.
Proof.
  pose proof (Z.mod_pos_bound (Z.of_nat n + d) 9 ltac:(lia)). unfold SIZE. lia.
Qed.

Lemma wrap_wrap (n : nat) (a c : Z) :
  Z.to_nat ((Z.of_nat (Z.to_nat ((Z.of_nat n + a) mod 9)) + c) mod 9)
  = Z.to_nat ((Z.of_nat n + (a + c)) mod 9).
Proof.
  pose proof (Z.mod_pos_bound (Z.of_nat n + a) 9 ltac:(lia)).
  rewrite Z2Nat.id by lia. rewrite Zplus_mod_idemp_l. f_equal. f_equal. lia.
Qed.

Lemma wrap_id (n : nat) : n < SIZE → Z.to_nat ((Z.of_nat n + 0) mod 9) = n.
Proof.
  unfold SIZE. intros Hn. rewrite Z.add_0_r, Z.mod_small by lia. lia.
Qed.

(** X25.  [move_cursor] wraps at the edges: whatever the deltas
    (negative, or larger than the board), the cursor ends on the board,
    a delta of 9 is a delta of 0, and nothing but the cursor changes. *)
Theorem move_cursor_wraps (g : GameState.t) (dr dc : Z) :
  cursor_ok (move_cursor g dr dc) ∧
  move_cursor g (dr + 9) dc = move_cursor g dr dc ∧
  move_cursor g dr (dc + 9) = move_cursor g dr dc ∧
  board (move_cursor g dr dc) = board g ∧
  history (move_cursor g dr dc) = history g ∧
  move_count (move_cursor g dr dc) = move_count g ∧
  hint_cell (move_cursor g dr dc) = hint_cell g ∧
  difficulty (move_cursor g dr dc) = difficulty g.
Proof.
  split; [split; apply wrap_range|].
  assert (Hper : ∀ x d, ((x + (d + 9)) mod 9 = (x + d) mod 9)%Z).
  { intros x d. replace (x + (d + 9))%Z with (x + d + 1 * 9)%Z by lia.
    apply Z.mod_add. lia. }
  unfold move_cursor. cbn [board history move_count hint_cell difficulty].
  rewrite !Hper. done.
Qed.

(** X26.  Cursor moves add up: two moves in a row are the move by the sum
    of the deltas, and from a cursor on the board a move followed by the
    opposite move brings the state back. *)
Theorem move_cursor_compose (g : GameState.t) (a b c d : Z) :
  move_cursor (move_cursor g a b) c d = move_cursor g (a + c) (b + d) ∧
  (cursor_ok g → move_cursor (move_cursor g a b) (- a) (- b) = g).
Proof.
  assert (Hcomp : ∀ a b c d,
    move_cursor (move_cursor g a b) c d = move_cursor g (a + c) (b + d)).
  { intros a' b' c' d'. unfold move_cursor.
    cbn [board difficulty cursor move_count history hint_cell fst snd].
    by rewrite !wrap_wrap. }
  split; [apply Hcomp|]. intros [Hr Hc]. rewrite Hcomp.
  rewrite !Z.add_opp_diag_r. unfold move_cursor.
  rewrite (wrap_id _ Hr), (wrap_id _ Hc). by destruct g as [? ? [? ?] ? ? ?].
Qed.

Lemma move_cursor_compose_witness :
  move_cursor (move_cursor (GameState.new Board.new "easy") 7 (-2)) 5 4
  = move_cursor (GameState.new Board.new "easy") (7 + 5) (-2 + 4) ∧
  (cursor_ok (GameState.new Board.new "easy") →
   move_cursor (move_cursor (GameState.new Board.new "easy") 7 (-2)) (- 7)
               (- -2)
   = GameState.new Board.new "easy").
Proof. apply (move_cursor_compose (GameState.new Board.new "easy") 7 (-2) 5 4). Defined.

(** The two cases of [undo]. *)
Lemma undo_cases g :
  (history g = [] ∧ undo g = (false, g)) ∨
  ∃ h m, history g = h ++ [m] ∧
    undo g = (true,
              GameState.mk (poke (board g) (row m) (col m) (old_value m))
                (difficulty g) (cursor g) (Z.max 0 (move_count g - 1)) h None).
Proof.
  unfold undo. destruct (history g) as [|m0 h0] using rev_ind.
  - by left.
  - right. exists h0, m0. split; [done|].
    by rewrite reverse_snoc, reverse_involutive.
Qed.

(** The two cases of [set_cell]. *)
Lemma set_cell_cases g v :
  (is_given (board g) (cursor g).1 (cursor g).2 = true ∧
   set_cell g v = (false, g)) ∨
  (is_given (board g) (cursor g).1 (cursor g).2 = false ∧
   ∃ h, set_cell g v
     = (true,
        GameState.mk (poke (board g) (cursor g).1 (cursor g).2 v)
          (difficulty g) (cursor g) (move_count g + 1)%Z h None) ∧
     let m := mk_move (cursor g).1 (cursor g).2
                (get (board g) (cursor g).1 (cursor g).2) v in
     h = if decide (length (history g) < MAX_HISTORY)
         then history g ++ [m] else drop 1 (history g) ++ [m]).
Proof.
  unfold set_cell, set. destruct g as [b df [r c] mc h hc].
  cbn [board difficulty cursor move_count history hint_cell fst snd].
  destruct (is_given b r c); [by left|]. right. split; [done|].
  eexists. split; [reflexivity|]. cbv zeta.
  rewrite length_app. cbn [length].
  destruct (decide (length h < MAX_HISTORY)) as [Hlt|Hge].
  - destruct (Nat.ltb_spec MAX_HISTORY (length h + 1)); [lia|done].
  - destruct (Nat.ltb_spec MAX_HISTORY (length h + 1)); [|lia].
    destruct h as [|m0 h]; [unfold MAX_HISTORY in *; simpl in *; lia|done].
Qed.

(** X27.  A move and its undo: on a cell that is not given, [set_cell]
    succeeds and the [undo] that follows succeeds too and puts the board
    back exactly as it was, with the cursor in place and the hint
    cleared.  The history is as before unless it was full (100 moves):
    then the oldest move has been dropped for good.  The move counter is
    back to its value (to 0 if it was negative). *)
Theorem set_cell_then_undo (g : GameState.t) (v : Z) :
  wf (board g) → cursor_ok g →
  is_given (board g) (cursor g).1 (cursor g).2 = false →
  ∃ g1 g2, set_cell g v = (true, g1) ∧ undo g1 = (true, g2) ∧
    get (board g1) (cursor g).1 (cursor g).2 = v ∧
    board g2 = board g ∧ cursor g2 = cursor g ∧
    difficulty g2 = difficulty g ∧ hint_cell g2 = None ∧
    move_count g2 = Z.max 0 (move_count g) ∧
    history g2 = (if decide (length (history g) < MAX_HISTORY)
                  then history g else drop 1 (history g)).
Proof.
  intros Hwf [Hr Hc] Hng.
  destruct (set_cell_cases g v) as [[Hg _]|(_ & h & Hset & Hh)]; [congruence|].
  cbv zeta in Hh. rewrite Hset. eexists. 
  set (g1 := GameState.mk _ _ _ _ h None).
  destruct (undo_cases g1) as [[Hnil _]|(h' & m & Hhist & Hundo)].
  { exfalso. unfold g1 in Hnil. cbn [history] in Hnil. rewrite Hh in Hnil.
    apply (f_equal length) in Hnil.
    destruct (decide _); rewrite length_app in Hnil; simpl in Hnil; lia. }
  unfold g1 in Hhist. cbn [history] in Hhist.
  assert (Hm : h' = (if decide (length (history g) < MAX_HISTORY)
                     then history g else drop 1 (history g)) ∧
               m = mk_move (cursor g).1 (cursor g).2
                     (get (board g) (cursor g).1 (cursor g).2) v).
  { rewrite Hh in Hhist. destruct (decide _);
      apply app_inj_tail in Hhist as [-> ->]; done. }
  destruct Hm as [-> ->].
  eexists. split; [reflexivity|]. split; [exact Hundo|].
  unfold g1. cbn [board cursor difficulty hint_cell move_count history
                  row col old_value].
  split_and!; try done.
  - unfold get. by apply peek_poke_same.
  - unfold get. rewrite poke_poke. apply poke_peek.
  - f_equal. lia.
Qed.

Lemma wf_cursor_new : wf (board (GameState.new Board.new "easy")) ∧
                      cursor_ok (GameState.new Board.new "easy").
Proof. split; [apply wf_new|]. split; unfold SIZE; simpl; lia. Qed.

Lemma set_cell_then_undo_witness :
  ∃ g1 g2, set_cell (GameState.new Board.new "easy") 5 = (true, g1) ∧
    undo g1 = (true, g2) ∧
    get (board g1) 0 0 = 5%Z ∧
    board g2 = Board.new ∧ cursor g2 = (0, 0) ∧
    difficulty g2 = "easy" ∧ hint_cell g2 = None ∧
    move_count g2 = Z.max 0 0 ∧
    history g2 = (if decide (0 < MAX_HISTORY) then [] else drop 1 []).
Proof.
  apply (set_cell_then_undo (GameState.new Board.new "easy") 5);
    [apply wf_cursor_new|apply wf_cursor_new|reflexivity].
Defined.

Lemma valid_new b d : wf b → valid (GameState.new b d).
Proof.
  intros Hwf. split_and!; [done| |by constructor|simpl; lia].
  split; unfold SIZE; simpl; lia.
Qed.

(** X28.  The states of a game stay sound: [move_cursor], [set_cell]
    and [undo] keep the board in shape, the cursor on the board, the
    history at 100 moves or fewer, and every recorded move on a cell that
    is not given; and a new game on the board of a sound state is sound
    (the cursor at (0, 0), no history). *)
Theorem game_state_stays_valid (g : GameState.t) (v dr dc : Z) :
  valid g →
  valid (move_cursor g dr dc) ∧ valid (set_cell g v).2 ∧ valid (undo g).2 ∧
  valid (GameState.new (board g) (difficulty g)).
Proof.
  intros (Hwf & Hcur & Hhist & Hlen). split_and!; [| | |by apply valid_new].
  - split_and!; [done|split; apply wrap_range|done..].
  - destruct (set_cell_cases g v) as [[_ ->]|(Hng & h & -> & Hh)];
      [by split_and!|].
    cbv zeta in Hh. destruct Hcur as [Hr Hc].
    assert (Hall : Forall (λ m, row m < SIZE ∧ col m < SIZE ∧
                     is_given (board g) (row m) (col m) = false) h).
    { rewrite Hh. destruct (decide _); apply Forall_app; (split;
        [try apply Forall_drop; exact Hhist|]);
        apply Forall_singleton; cbn [row col]; by split_and!. }
    split_and!; cbn [snd].
    + by apply wf_poke.
    + done.
    + unfold history_ok. cbn [board history].
      eapply Forall_impl; [exact Hall|]. intros m (? & ? & ?).
      split_and!; [done..|]. by rewrite is_given_poke.
    + cbn [history]. rewrite Hh. destruct (decide _) as [Hlt|Hge];
        rewrite length_app, ?length_drop; unfold MAX_HISTORY in *;
        simpl; lia.
  - destruct (undo_cases g) as [[_ ->]|(h & m & Hh & ->)]; [by split_and!|].
    unfold history_ok in Hhist. rewrite Hh in Hhist, Hlen.
    apply Forall_app in Hhist as [Hall _]. rewrite length_app in Hlen.
    split_and!; cbn [snd].
    + by apply wf_poke.
    + done.
    + unfold history_ok. cbn [board history].
      eapply Forall_impl; [exact Hall|]. intros m' (? & ? & ?).
      split_and!; [done..|]. by rewrite is_given_poke.
    + cbn [history]. lia.
Qed.

Lemma game_state_stays_valid_witness :
  valid (move_cursor (GameState.new Board.new "easy") (-1) 10) ∧
  valid (set_cell (GameState.new Board.new "easy") 5).2 ∧
  valid (undo (GameState.new Board.new "easy")).2 ∧
  valid (GameState.new (board (GameState.new Board.new "easy"))
                       (difficulty (GameState.new Board.new "easy"))).
Proof.
  apply (game_state_stays_valid (GameState.new Board.new "easy") 5 (-1) 10).
  apply valid_new, wf_new.
Defined.

(** X29.  The given cells are safe: in a sound state neither [set_cell]
    nor [undo] changes the value of a given cell or any given flag,
    although [undo] writes into the grid without asking [Board.set]. *)
Theorem given_cells_never_change (g : GameState.t) (v : Z) (r c : nat) :
  valid g → is_given (board g) r c = true →
  get (board (set_cell g v).2) r c = get (board g) r c ∧
  get (board (undo g).2) r c = get (board g) r c ∧
  given (board (set_cell g v).2) = given (board g) ∧
  given (board (undo g).2) = given (board g).
Proof.
  intros (Hwf & Hcur & Hhist & Hlen) Hgiven. unfold get.
  destruct (set_cell_cases g v) as [[_ ->]|(Hng & h & -> & _)];
    destruct (undo_cases g) as [[_ ->]|(h' & m & Hh & ->)];
    cbn [snd board]; rewrite ?given_poke; split_and!; try done.
  - apply peek_poke_other. intros [= -> ->].
    unfold history_ok in Hhist. rewrite Hh in Hhist.
    apply Forall_app in Hhist as [_ Hm].
    apply Forall_cons in Hm as [(_ & _ & Hm) _]. congruence.
  - apply peek_poke_other. intros [= -> ->]. congruence.
  - apply peek_poke_other. intros [= -> ->]. congruence.
  - apply peek_poke_other. intros [= -> ->].
    unfold history_ok in Hhist. rewrite Hh in Hhist.
    apply Forall_app in Hhist as [_ Hm].
    apply Forall_cons in Hm as [(_ & _ & Hm) _]. congruence.
Qed.

Lemma given_cells_never_change_witness :
  get (board (set_cell (GameState.new (mark_given Board.new 0 0) "easy") 5).2)
      0 0
  = get (board (GameState.new (mark_given Board.new 0 0) "easy")) 0 0 ∧
  get (board (undo (GameState.new (mark_given Board.new 0 0) "easy")).2) 0 0
  = get (board (GameState.new (mark_given Board.new 0 0) "easy")) 0 0 ∧
  given (board (set_cell (GameState.new (mark_given Board.new 0 0) "easy")
                         5).2)
  = given (board (GameState.new (mark_given Board.new 0 0) "easy")) ∧
  given (board (undo (GameState.new (mark_given Board.new 0 0) "easy")).2)
  = given (board (GameState.new (mark_given Board.new 0 0) "easy")).
Proof.
  apply (given_cells_never_change
           (GameState.new (mark_given Board.new 0 0) "easy") 5 0 0);
    [apply valid_new, wf_mark_given, wf_new|reflexivity].
Defined.

End GameStateFacts.
